(** * tiny-redis: a shallow embedding of the data engine, the skiplist,
      the snapshot codec, the replica frame dispatch and the command line,
      with the properties of the specification checked against them.

    The C++ sources are embedded as executable Rocq functions.  A [double]
    is a kernel binary64 float, a [std::string] a [string] of 8-bit
    characters, a [std::unordered_map] a [gmap], a [std::vector] a [list],
    a pointer an optional heap location.  Calls that may leave the defined
    behaviour of C++ return an [outcome]. *)

From Stdlib Require Import ZArith String Ascii List Bool Lia DecimalString.
From Stdlib Require Import Sorting.Sorted Structures.OrderedTypeEx.
From Stdlib Require Import Floats.PrimFloat.
From Stdlib Require Uint63.
From Stdlib Require DecimalPos.
From stdpp Require Import base option list gmap strings fin_maps.

Open Scope Z_scope.

(** ** Outcomes of a C++ call *)

(** What a call can do besides returning: run into undefined behaviour (a
    null or dangling dereference, [operator[]] out of range, signed
    overflow, leaving a value-returning function without [return]), let an
    exception escape, or loop forever. *)
Inductive outcome (A : Type) : Type :=
| Done (a : A)
| UB
| Throw (what : string)
| Diverge.

Arguments Done {A} a.
Arguments UB {A}.
Arguments Throw {A} what.
Arguments Diverge {A}.

#[global] Instance outcome_ret : MRet outcome := fun A a => Done a.

#[global] Instance outcome_bind : MBind outcome := fun A B f m =>
  match m with
  | Done a => f a
  | UB => UB
  | Throw w => Throw w
  | Diverge => Diverge
  end.

#[global] Instance outcome_fmap : FMap outcome := fun A B f m => a ← m; Done (f a).

(** [v[i]] on a [std::vector]: out of range is undefined. *)
Definition at_ {A} (v : list A) (i : nat) : outcome A :=
  match v !! i with
  | Some a => Done a
  | None => UB
  end.

(** [v[i] = a] on a [std::vector]. *)
Definition put {A} (v : list A) (i : nat) (a : A) : outcome (list A) :=
  if decide (i < length v)%nat then Done (<[i:=a]> v) else UB.

(** ** The C library's [rand()] *)

(** The pseudo-random source is the sequence of values the process will get
    from [std::rand()], with the position reached so far. *)
Record Rand := mkRand { draws : nat → Z; pos : nat }.

Definition rand (g : Rand) : Z * Rand :=
  (draws g (pos g), mkRand (draws g) (S (pos g))).

(** ** Integers of the machine *)

Definition INT64_MIN : Z := - 2 ^ 63.
Definition INT64_MAX : Z := 2 ^ 63 - 1.
Definition SIZE_MOD : Z := 2 ^ 64.

(** A signed 64-bit result: overflow is undefined behaviour. *)
Definition int64 (z : Z) : outcome Z :=
  if (INT64_MIN <=? z) && (z <=? INT64_MAX) then Done z else UB.

(** ** Skiplist (skiplist.hpp, skiplist.cpp) *)

Module Skiplist.

Definition loc := nat.
(** A [SkiplistNode *]; [None] is [nullptr]. *)
Definition ptr := option loc.

Definition kDelta : float := 0x1.0c6f7a0b5ed8dp-20%float.
Definition kMaxLevel : Z := 32.
(** [static_cast<int>(kProbability * 0xFFFF)] with [kProbability = 0.25]:
    16383.75 truncated. *)
Definition threshold : Z := 16383.

Record SkiplistNode := mkNode {
  score : float;
  member : string;
  forward : list ptr
}.

(** [_skiplist_node(level, sc, mem)]: [level] null forward pointers. *)
Definition new_node (level : Z) (sc : float) (mem : string) : SkiplistNode :=
  mkNode sc mem (replicate (Z.to_nat level) None).

Definition set_forward (n : SkiplistNode) (f : list ptr) : SkiplistNode :=
  mkNode (score n) (member n) f.

(** The object: the nodes it owns (the heap cells reachable from it), the
    sentinel, the current highest level and the node count. *)
Record t := mk {
  heap : gmap loc SkiplistNode;
  head_ : loc;
  level_ : Z;
  length_ : Z
}.

(** [Skiplist()]. *)
Definition create : t :=
  mk {[ 1%nat := new_node kMaxLevel 0 "" ]} 1%nat 1 0.

Definition size (sl : t) : Z := length_ sl.

(** [p->...]: a null or dangling pointer is undefined behaviour. *)
Definition deref (h : gmap loc SkiplistNode) (p : ptr) : outcome SkiplistNode :=
  match p with
  | None => UB
  | Some l =>
      match h !! l with
      | Some n => Done n
      | None => UB
      end
  end.

(** [abs(a - b) <= kDelta], with [abs] the [double] overload. *)
Definition close (a b : float) : bool :=
  PrimFloat.leb (PrimFloat.abs (PrimFloat.sub a b)) kDelta.

Definition comparedLess (sc1 : float) (m1 : string) (sc2 : float) (m2 : string) : bool :=
  if close sc1 sc2 then String.ltb m1 m2 else PrimFloat.ltb sc1 sc2.

(** [randomLevel]: the loop runs at most [kMaxLevel - 1] times. *)
Fixpoint randomLevel_loop (fuel : nat) (lvl r : Z) (g : Rand) : Z * Rand :=
  match fuel with
  | O => (lvl, g)
  | S fuel' =>
      if (r <? threshold) && (lvl <? kMaxLevel)
      then let '(d, g') := rand g in
           randomLevel_loop fuel' (lvl + 1) (Z.land d 65535) g'
      else (lvl, g)
  end.

Definition randomLevel (g : Rand) : Z * Rand :=
  let '(d, g') := rand g in
  randomLevel_loop (Z.to_nat kMaxLevel) 1 (Z.land d 65535) g'.

(** The inner [while] of the search at level [i], from node [x]: advance
    while the next node is less than the key.  A walk longer than the number
    of cells has met a cell twice, and the C++ loop does not end. *)
Fixpoint walk (fuel : nat) (h : gmap loc SkiplistNode) (i : nat) (x : loc)
    (sc : float) (m : string) : outcome loc :=
  match fuel with
  | O => Diverge
  | S fuel' =>
      xn ← deref h (Some x);
      nx ← at_ (forward xn) i;
      match nx with
      | None => Done x
      | Some y =>
          yn ← deref h nx;
          if comparedLess (score yn) (member yn) sc m
          then walk fuel' h i y sc m
          else Done x
      end
  end.

(** [for (int i = level_ - 1; i >= 0; --i) { while ...; update[i] = x; }]
    with [n] the number of levels still to visit. *)
Fixpoint search_from (n : nat) (h : gmap loc SkiplistNode) (x : loc)
    (sc : float) (m : string) (update : list ptr) : outcome (loc * list ptr) :=
  match n with
  | O => Done (x, update)
  | S i =>
      x' ← walk (S (base.size h)) h i x sc m;
      update' ← put update i (Some x');
      search_from i h x' sc m update'
  end.

Definition search (sl : t) (sc : float) (m : string) : outcome (loc * list ptr) :=
  search_from (Z.to_nat (level_ sl)) (heap sl) (head_ sl) sc m
    (replicate (Z.to_nat kMaxLevel) None).

(** [for (int i = from; i < to; ++i) update[i] = head_;] *)
Fixpoint fill_from (n i : nat) (head : loc) (update : list ptr) : outcome (list ptr) :=
  match n with
  | O => Done update
  | S n' => u ← put update i (Some head); fill_from n' (S i) head u
  end.

Definition fill_head (from to : Z) (head : loc) (update : list ptr) : outcome (list ptr) :=
  fill_from (Z.to_nat (to - from)) (Z.to_nat from) head update.

(** [for (int i = 0; i < lvl; ++i) { node->forward[i] = update[i]->forward[i];
    update[i]->forward[i] = node; }], [n] iterations from level [i]. *)
Fixpoint link (n i : nat) (node : loc) (update : list ptr)
    (h : gmap loc SkiplistNode) : outcome (gmap loc SkiplistNode) :=
  match n with
  | O => Done h
  | S n' =>
      u ← at_ update i;
      un ← deref h u;
      f ← at_ (forward un) i;
      nn ← deref h (Some node);
      nf ← put (forward nn) i f;
      let h1 := <[node := set_forward nn nf]> h in
      un1 ← deref h1 u;
      uf ← put (forward un1) i (Some node);
      match u with
      | Some ul => link n' (S i) node update (<[ul := set_forward un1 uf]> h1)
      | None => UB
      end
  end.

Definition insert (sl : t) (sc : float) (m : string) (g : Rand)
    : outcome (bool * t * Rand) :=
  '(x, update) ← search sl sc m;
  xn ← deref (heap sl) (Some x);
  x0 ← at_ (forward xn) 0;
  found ← match x0 with
          | None => Done false
          | Some _ =>
              n ← deref (heap sl) x0;
              Done (close (score n) sc && String.eqb (member n) m)
          end;
  if found : bool then Done (false, sl, g)
  else
    let '(lvl, g') := randomLevel g in
    (* [level_ = lvl] is assigned before the loop that starts at [level_] *)
    let level' := if lvl >? level_ sl then lvl else level_ sl in
    update' ← (if lvl >? level_ sl
               then fill_head level' lvl (head_ sl) update
               else Done update);
    let node := fresh (dom (heap sl)) in
    let h := <[node := new_node lvl sc m]> (heap sl) in
    h' ← link (Z.to_nat lvl) 0 node update' h;
    Done (true, mk h' (head_ sl) level' ((length_ sl + 1) mod SIZE_MOD), g').

(** [for (int i = 0; i < level_; ++i) if (update[i]->forward[i] == x)
    update[i]->forward[i] = x->forward[i];] *)
Fixpoint unlink (n i : nat) (x : ptr) (update : list ptr)
    (h : gmap loc SkiplistNode) : outcome (gmap loc SkiplistNode) :=
  match n with
  | O => Done h
  | S n' =>
      u ← at_ update i;
      un ← deref h u;
      f ← at_ (forward un) i;
      if decide (f = x) then
        xn ← deref h x;
        xf ← at_ (forward xn) i;
        uf ← put (forward un) i xf;
        match u with
        | Some ul => unlink n' (S i) x update (<[ul := set_forward un uf]> h)
        | None => UB
        end
      else unlink n' (S i) x update h
  end.

(** [while (level_ > 1 && head_->forward[level_-1] == nullptr) --level_;] *)
Fixpoint lower_level (fuel : nat) (h : gmap loc SkiplistNode) (head : loc)
    (level : Z) : outcome Z :=
  match fuel with
  | O => Done level
  | S fuel' =>
      if level >? 1 then
        hn ← deref h (Some head);
        top ← at_ (forward hn) (Z.to_nat (level - 1));
        match top with
        | None => lower_level fuel' h head (level - 1)
        | Some _ => Done level
        end
      else Done level
  end.

Definition erase (sl : t) (sc : float) (m : string) : outcome (bool * t) :=
  '(x, update) ← search sl sc m;
  xn ← deref (heap sl) (Some x);
  x0 ← at_ (forward xn) 0;
  (* [x != nullptr || abs(x->score-score) > kDelta || x->member != member],
     evaluated left to right *)
  miss ← match x0 with
         | Some _ => Done true
         | None =>
             n ← deref (heap sl) x0;
             Done (PrimFloat.ltb kDelta (PrimFloat.abs (PrimFloat.sub (score n) sc))
                   || negb (String.eqb (member n) m))
         end;
  if miss : bool then Done (false, sl)
  else
    h ← unlink (Z.to_nat (level_ sl)) 0 x0 update (heap sl);
    let h' := match x0 with Some l => delete l h | None => h end in
    level' ← lower_level (Z.to_nat (level_ sl)) h' (head_ sl) (level_ sl);
    Done (true, mk h' (head_ sl) level' ((length_ sl - 1) mod SIZE_MOD)).

(** The bottom-level chain from [p]. *)
Fixpoint collect (fuel : nat) (h : gmap loc SkiplistNode) (p : ptr)
    : outcome (list (float * string)) :=
  match p with
  | None => Done []
  | Some _ =>
      match fuel with
      | O => Diverge
      | S fuel' =>
          n ← deref h p;
          nx ← at_ (forward n) 0;
          rest ← collect fuel' h nx;
          Done ((score n, member n) :: rest)
      end
  end.

Definition toVector (sl : t) : outcome (list (float * string)) :=
  hn ← deref (heap sl) (Some (head_ sl));
  first ← at_ (forward hn) 0;
  collect (base.size (heap sl)) (heap sl) first.

(** [static_cast<int64_t>] of a [size_t]. *)
Definition to_int64 (z : Z) : Z :=
  let r := z mod SIZE_MOD in if r <=? INT64_MAX then r else r - SIZE_MOD.

(** The lambda [norm] of [rangeByRank] and of [zrange], with [n] the
    number of elements. *)
Definition norm (n idx : Z) : Z :=
  let idx := if idx <? 0 then n + idx else idx in
  let idx := if idx <? 0 then 0 else idx in
  if idx >=? n then n - 1 else idx.

(** [while (node != nullptr && rank < s) { ++rank; node = node->forward[0]; }] *)
Fixpoint skip_to (fuel : nat) (h : gmap loc SkiplistNode) (node : ptr) (rank s : Z)
    : outcome (ptr * Z) :=
  match node with
  | None => Done (node, rank)
  | Some _ =>
      if rank <? s then
        match fuel with
        | O => Diverge
        | S fuel' =>
            n ← deref h node;
            nx ← at_ (forward n) 0;
            skip_to fuel' h nx (rank + 1) s
        end
      else Done (node, rank)
  end.

(** [while (node != nullptr && rank <= e) { out.push_back(node->member);
    node = node->forward[0]; ++rank; }] *)
Fixpoint push_members (fuel : nat) (h : gmap loc SkiplistNode) (node : ptr) (rank e : Z)
    (out : list string) : outcome (list string) :=
  match node with
  | None => Done out
  | Some _ =>
      if rank <=? e then
        match fuel with
        | O => Diverge
        | S fuel' =>
            n ← deref h node;
            nx ← at_ (forward n) 0;
            push_members fuel' h nx (rank + 1) e (out ++ [member n])
        end
      else Done out
  end.

(** [rangeByRank(start, stop, out)]: the vector [out] afterwards. *)
Definition rangeByRank (sl : t) (start stop : Z) (out : list string)
    : outcome (list string) :=
  if length_ sl =? 0 then Done out
  else
    let n := to_int64 (length_ sl) in
    let s := norm n start in
    let e := norm n stop in
    if s >? e then Done out
    else
      hn ← deref (heap sl) (Some (head_ sl));
      first ← at_ (forward hn) 0;
      '(node, rank) ← skip_to (base.size (heap sl)) (heap sl) first 0 s;
      push_members (base.size (heap sl)) (heap sl) node rank e out.

End Skiplist.

(** ** The data engine (kv.hpp, kv.cpp) *)

Definition INT_MAX : Z := 2 ^ 31 - 1.

(** An [int] counter after [++]: overflow is undefined behaviour. *)
Definition int32 (z : Z) : outcome Z :=
  if (- 2 ^ 31 <=? z) && (z <=? INT_MAX) then Done z else UB.

Module ValueRecord.
Record t := mk { value : string; expire_at_ms : Z }.
End ValueRecord.

Module HashRecord.
Record t := mk { fields : gmap string string; expire_at_ms : Z }.
(** A default-constructed record, as [hmap_[key]] creates it. *)
Definition fresh : t := mk ∅ (-1).
End HashRecord.

Module ZSetRecord.
Record t := mk {
  use_skiplist : bool;
  items : list (float * string);
  sl : option Skiplist.t;
  member_to_score : gmap string float;
  expire_at_ms : Z
}.
(** A default-constructed record, as [zmap_[key]] creates it. *)
Definition fresh : t := mk false [] None ∅ (-1).
End ZSetRecord.

Module ZSetFlat.
Record t := mk { key : string; items : list (float * string); expire_at_ms : Z }.
End ZSetFlat.

Module KeyValueStore.

Record t := mk {
  map_ : gmap string ValueRecord.t;
  hmap_ : gmap string HashRecord.t;
  zmap_ : gmap string ZSetRecord.t;
  expire_index_ : gmap string Z
}.

(** The engine at start-up. *)
Definition empty : t := mk ∅ ∅ ∅ ∅.

Definition kZsetVectorThreshold : Z := 128.

Definition with_map (s : t) m := mk m (hmap_ s) (zmap_ s) (expire_index_ s).
Definition with_hmap (s : t) h := mk (map_ s) h (zmap_ s) (expire_index_ s).
Definition with_zmap (s : t) z := mk (map_ s) (hmap_ s) z (expire_index_ s).
Definition with_index (s : t) e := mk (map_ s) (hmap_ s) (zmap_ s) e.

(** The three [isExpired] overloads test the same condition. *)
Definition isExpired (expire_at_ms now_ms : Z) : bool :=
  (expire_at_ms >=? 0) && (now_ms >=? expire_at_ms).

Definition cleanupIfExpired (s : t) (key : string) (now_ms : Z) : t :=
  match map_ s !! key with
  | None => s
  | Some r =>
      if isExpired (ValueRecord.expire_at_ms r) now_ms
      then mk (delete key (map_ s)) (hmap_ s) (zmap_ s) (delete key (expire_index_ s))
      else s
  end.

Definition cleanupIfExpiredHash (s : t) (key : string) (now_ms : Z) : t :=
  match hmap_ s !! key with
  | None => s
  | Some r =>
      if isExpired (HashRecord.expire_at_ms r) now_ms
      then mk (map_ s) (delete key (hmap_ s)) (zmap_ s) (delete key (expire_index_ s))
      else s
  end.

Definition cleanupIfExpiredZSet (s : t) (key : string) (now_ms : Z) : t :=
  match zmap_ s !! key with
  | None => s
  | Some r =>
      if isExpired (ZSetRecord.expire_at_ms r) now_ms
      then mk (map_ s) (hmap_ s) (delete key (zmap_ s)) (delete key (expire_index_ s))
      else s
  end.

(** [expire_index_[key] = e] when [e >= 0], else [expire_index_.erase(key)]. *)
Definition index_update (key : string) (e : Z) (idx : gmap string Z) : gmap string Z :=
  if e >=? 0 then <[key := e]> idx else delete key idx.

(** [now] is the value [nowMs()] returns inside the call. *)
Definition set (s : t) (key value : string) (ttl_ms : option Z) (now : Z)
    : outcome (bool * t) :=
  expire_at ← match ttl_ms with
              | Some ttl => int64 (now + ttl)
              | None => Done (-1)
              end;
  Done (true, mk (<[key := ValueRecord.mk value expire_at]> (map_ s)) (hmap_ s) (zmap_ s)
                 (index_update key expire_at (expire_index_ s))).

Definition setWithExpireAtMs (s : t) (key value : string) (expire_at_ms : Z) : bool * t :=
  (true, mk (<[key := ValueRecord.mk value expire_at_ms]> (map_ s)) (hmap_ s) (zmap_ s)
            (if expire_at_ms >=? 0 then <[key := expire_at_ms]> (expire_index_ s)
             else expire_index_ s)).

Definition get (s : t) (key : string) (now : Z) : option string * t :=
  let s1 := cleanupIfExpired s key now in
  (ValueRecord.value <$> map_ s1 !! key, s1).

(** The loop of [del] over the keys still to visit. *)
Fixpoint del_loop (keys : list string) (s : t) (now : Z) (removed : Z) : outcome (Z * t) :=
  match keys with
  | [] => Done (removed, s)
  | k :: keys' =>
      let s1 := cleanupIfExpired s k now in
      match map_ s1 !! k with
      | Some _ =>
          removed' ← int32 (removed + 1);
          del_loop keys' (mk (delete k (map_ s1)) (hmap_ s1) (zmap_ s1)
                             (delete k (expire_index_ s1))) now removed'
      | None => del_loop keys' s1 now removed
      end
  end.

Definition del (s : t) (keys : list string) (now : Z) : outcome (Z * t) :=
  del_loop keys s now 0.

Definition exists_ (s : t) (key : string) (now : Z) : bool * t :=
  let s1 := cleanupIfExpired s key now in
  (bool_decide (is_Some (map_ s1 !! key)) || bool_decide (is_Some (hmap_ s1 !! key))
   || bool_decide (is_Some (zmap_ s1 !! key)), s1).

Definition expire (s : t) (key : string) (ttl_seconds : Z) (now : Z) : outcome (bool * t) :=
  let s1 := cleanupIfExpired s key now in
  match map_ s1 !! key with
  | None => Done (false, s1)
  | Some r =>
      if ttl_seconds <? 0 then
        Done (true, mk (<[key := ValueRecord.mk (ValueRecord.value r) (-1)]> (map_ s1))
                       (hmap_ s1) (zmap_ s1) (delete key (expire_index_ s1)))
      else
        ms ← int64 (ttl_seconds * 1000);
        e ← int64 (now + ms);
        Done (true, mk (<[key := ValueRecord.mk (ValueRecord.value r) e]> (map_ s1))
                       (hmap_ s1) (zmap_ s1) (<[key := e]> (expire_index_ s1)))
  end.

(** The loop of [expireScanStep]: [order] is the sequence in which the
    iterator meets the entries of [expire_index_], [it] its position, [n]
    the steps left. *)
Fixpoint scan_loop (n : nat) (order : list (string * Z)) (it : nat) (s : t)
    (now : Z) (removed : Z) : Z * t :=
  match n with
  | O => (removed, s)
  | S n' =>
      match order with
      | [] => (removed, s)
      | _ =>
          let it := if decide (it = length order) then O else it in
          match order !! it with
          | None => (removed, s)
          | Some (key, when) =>
              if (when >=? 0) && (now >=? when) then
                scan_loop n' (take it order ++ drop (S it) order) it
                  (mk (delete key (map_ s)) (delete key (hmap_ s)) (delete key (zmap_ s))
                      (delete key (expire_index_ s))) now (removed + 1)
              else scan_loop n' order (S it) s now removed
          end
      end
  end.

(** [r] is the value of [std::rand()]. *)
Definition expireScanStep (s : t) (max_steps : Z) (now : Z) (r : Z) : Z * t :=
  if (max_steps <=? 0) || bool_decide (expire_index_ s = ∅) then (0, s)
  else
    let order := map_to_list (expire_index_ s) in
    scan_loop (Z.to_nat max_steps) order
      (Z.to_nat (r mod Z.of_nat (base.size (expire_index_ s)))) s now 0.

Definition snapshot (s : t) : list (string * ValueRecord.t) := map_to_list (map_ s).

Definition snapshotHash (s : t) : list (string * HashRecord.t) := map_to_list (hmap_ s).

(** One turn of the loop of [snapshotZSet]. *)
Definition flatten (kv : string * ZSetRecord.t) : outcome ZSetFlat.t :=
  items ← (if ZSetRecord.use_skiplist kv.2
           then match ZSetRecord.sl kv.2 with
                | Some sl => Skiplist.toVector sl
                | None => UB
                end
           else Done (ZSetRecord.items kv.2));
  Done (ZSetFlat.mk kv.1 items (ZSetRecord.expire_at_ms kv.2)).

Fixpoint flatten_all (l : list (string * ZSetRecord.t)) : outcome (list ZSetFlat.t) :=
  match l with
  | [] => Done []
  | kv :: l' => f ← flatten kv; fs ← flatten_all l'; Done (f :: fs)
  end.

(** The local vector [out] of [snapshotZSet] when its loop is over. *)
Definition snapshotZSet_out (s : t) : outcome (list ZSetFlat.t) :=
  flatten_all (map_to_list (zmap_ s)).

(** [snapshotZSet]: the body ends after the loop, without a [return]. *)
Definition snapshotZSet (s : t) : outcome (list ZSetFlat.t) :=
  out ← snapshotZSet_out s;
  UB.

(** [std::sort] on strings with [operator<]: the ascending rearrangement,
    here by insertion. *)
Fixpoint sort_insert (x : string) (l : list string) : list string :=
  match l with
  | [] => [x]
  | y :: l' => if String.ltb y x then y :: sort_insert x l' else x :: l
  end.

Definition std_sort (l : list string) : list string := foldr sort_insert [] l.

(** [out.erase(std::unique(out.begin(), out.end()), out.end())]: of every
    run of equal neighbours the first is kept. *)
Fixpoint std_unique (l : list string) : list string :=
  match l with
  | [] => []
  | x :: l' =>
      match l' with
      | [] => [x]
      | y :: _ => if String.eqb x y then std_unique l' else x :: std_unique l'
      end
  end.

Definition listKeys (s : t) : list string :=
  std_unique (std_sort ((map_to_list (map_ s)).*1 ++ (map_to_list (hmap_ s)).*1
                        ++ (map_to_list (zmap_ s)).*1)).

(** *** Field maps *)

Definition hset (s : t) (key field value : string) (now : Z) : Z * t :=
  let s1 := cleanupIfExpiredHash s key now in
  let rec := default HashRecord.fresh (hmap_ s1 !! key) in
  let rec' := HashRecord.mk (<[field := value]> (HashRecord.fields rec))
                            (HashRecord.expire_at_ms rec) in
  match HashRecord.fields rec !! field with
  | None => (1, with_hmap s1 (<[key := rec']> (hmap_ s1)))
  | Some _ => (0, with_hmap s1 (<[key := rec']> (hmap_ s1)))
  end.

(** The loop of [hdel] over the fields still to visit. *)
Fixpoint hdel_loop (fs : list string) (fields : gmap string string) (removed : Z)
    : outcome (Z * gmap string string) :=
  match fs with
  | [] => Done (removed, fields)
  | f :: fs' =>
      match fields !! f with
      | Some _ => removed' ← int32 (removed + 1); hdel_loop fs' (delete f fields) removed'
      | None => hdel_loop fs' fields removed
      end
  end.

Definition hdel (s : t) (key : string) (fs : list string) (now : Z) : outcome (Z * t) :=
  let s1 := cleanupIfExpiredHash s key now in
  match hmap_ s1 !! key with
  | None => Done (0, s1)
  | Some rec =>
      '(removed, fields') ← hdel_loop fs (HashRecord.fields rec) 0;
      if bool_decide (fields' = ∅)
      then Done (removed, with_hmap s1 (delete key (hmap_ s1)))
      else Done (removed, with_hmap s1
                   (<[key := HashRecord.mk fields' (HashRecord.expire_at_ms rec)]> (hmap_ s1)))
  end.

Definition setHashExpireAtMs (s : t) (key : string) (expire_at_ms : Z) : bool * t :=
  match hmap_ s !! key with
  | None => (false, s)
  | Some rec =>
      (true, mk (map_ s) (<[key := HashRecord.mk (HashRecord.fields rec) expire_at_ms]> (hmap_ s))
                (zmap_ s) (index_update key expire_at_ms (expire_index_ s)))
  end.

(** *** Ordered sets *)

(** The comparator handed to [std::lower_bound] in [zadd]. *)
Definition item_less (a b : float * string) : bool :=
  if PrimFloat.ltb Skiplist.kDelta (PrimFloat.abs (PrimFloat.sub a.1 b.1))
  then PrimFloat.ltb a.1 b.1
  else String.ltb a.2 b.2.

(** [std::lower_bound]: the halving loop on [first, first + len). *)
Fixpoint lower_bound_loop (fuel : nat) (vec : list (float * string)) (first len : nat)
    (val : float * string) : nat :=
  match fuel with
  | O => first
  | S fuel' =>
      if decide (0 < len)%nat then
        let half := Nat.div2 len in
        let middle := (first + half)%nat in
        match vec !! middle with
        | Some e =>
            if item_less e val
            then lower_bound_loop fuel' vec (S middle) (len - half - 1)%nat val
            else lower_bound_loop fuel' vec first half val
        | None => first
        end
      else first
  end.

Definition lower_bound (vec : list (float * string)) (val : float * string) : nat :=
  lower_bound_loop (S (length vec)) vec O (length vec) val.

(** [vec.insert(vec.begin() + i, val)]. *)
Definition vec_insert (vec : list (float * string)) (i : nat) (val : float * string) :=
  take i vec ++ val :: drop i vec.

(** The loop that erases the first element equal to [(sc, m)]; the flag
    tells whether one was erased. *)
Fixpoint erase_first (vec : list (float * string)) (sc : float) (m : string)
    : bool * list (float * string) :=
  match vec with
  | [] => (false, [])
  | e :: vec' =>
      if PrimFloat.eqb e.1 sc && String.eqb e.2 m then (true, vec')
      else let '(b, r) := erase_first vec' sc m in (b, e :: r)
  end.

(** [for (const auto &p : vec) rec.sl->insert(p.first, p.second);] *)
Fixpoint insert_all (vec : list (float * string)) (sl : Skiplist.t) (g : Rand)
    : outcome (Skiplist.t * Rand) :=
  match vec with
  | [] => Done (sl, g)
  | e :: vec' =>
      '(_, sl', g') ← Skiplist.insert sl e.1 e.2 g;
      insert_all vec' sl' g'
  end.

(** The sequence after an insertion: past the threshold the record moves to
    a new skiplist and the sequence is swapped with an empty one. *)
Definition place (rec : ZSetRecord.t) (vec : list (float * string)) (g : Rand)
    : outcome (ZSetRecord.t * Rand) :=
  if Z.of_nat (length vec) >? kZsetVectorThreshold then
    '(sl, g') ← insert_all vec Skiplist.create g;
    Done (ZSetRecord.mk true [] (Some sl) (ZSetRecord.member_to_score rec)
            (ZSetRecord.expire_at_ms rec), g')
  else
    Done (ZSetRecord.mk (ZSetRecord.use_skiplist rec) vec (ZSetRecord.sl rec)
            (ZSetRecord.member_to_score rec) (ZSetRecord.expire_at_ms rec), g).

Definition with_scores (rec : ZSetRecord.t) (m2s : gmap string float) : ZSetRecord.t :=
  ZSetRecord.mk (ZSetRecord.use_skiplist rec) (ZSetRecord.items rec) (ZSetRecord.sl rec)
    m2s (ZSetRecord.expire_at_ms rec).

Definition with_sl (rec : ZSetRecord.t) (sl : Skiplist.t) : ZSetRecord.t :=
  ZSetRecord.mk (ZSetRecord.use_skiplist rec) (ZSetRecord.items rec) (Some sl)
    (ZSetRecord.member_to_score rec) (ZSetRecord.expire_at_ms rec).

Definition with_items (rec : ZSetRecord.t) (vec : list (float * string)) : ZSetRecord.t :=
  ZSetRecord.mk (ZSetRecord.use_skiplist rec) vec (ZSetRecord.sl rec)
    (ZSetRecord.member_to_score rec) (ZSetRecord.expire_at_ms rec).

(** [zadd] on the record [rec] that [zmap_[key]] refers to. *)
Definition zadd_rec (rec : ZSetRecord.t) (sc : float) (m : string) (g : Rand)
    : outcome (Z * ZSetRecord.t * Rand) :=
  match ZSetRecord.member_to_score rec !! m with
  | None =>
      '(rec1, g1) ←
        (if negb (ZSetRecord.use_skiplist rec) then
           let vec := ZSetRecord.items rec in
           place rec (vec_insert vec (lower_bound vec (sc, m)) (sc, m)) g
         else
           match ZSetRecord.sl rec with
           | None => UB
           | Some sl => '(_, sl', g') ← Skiplist.insert sl sc m g; Done (with_sl rec sl', g')
           end);
      Done (1, with_scores rec1 (<[m := sc]> (ZSetRecord.member_to_score rec1)), g1)
  | Some old =>
      if PrimFloat.eqb old sc then Done (0, rec, g)
      else
        '(rec1, g1) ←
          (if negb (ZSetRecord.use_skiplist rec) then
             let vec := (erase_first (ZSetRecord.items rec) old m).2 in
             place rec (vec_insert vec (lower_bound vec (sc, m)) (sc, m)) g
           else
             match ZSetRecord.sl rec with
             | None => UB
             | Some sl =>
                 '(_, sl1) ← Skiplist.erase sl old m;
                 '(_, sl2, g') ← Skiplist.insert sl1 sc m g;
                 Done (with_sl rec sl2, g')
             end);
        Done (0, with_scores rec1 (<[m := sc]> (ZSetRecord.member_to_score rec1)), g1)
  end.

Definition zadd (s : t) (key : string) (sc : float) (m : string) (now : Z) (g : Rand)
    : outcome (Z * t * Rand) :=
  let s1 := cleanupIfExpiredZSet s key now in
  let rec := default ZSetRecord.fresh (zmap_ s1 !! key) in
  '(r, rec', g') ← zadd_rec rec sc m g;
  Done (r, with_zmap s1 (<[key := rec']> (zmap_ s1)), g').

(** The loop of [zrem] over the members still to visit. *)
Fixpoint zrem_loop (ms : list string) (rec : ZSetRecord.t) (removed : Z)
    : outcome (Z * ZSetRecord.t) :=
  match ms with
  | [] => Done (removed, rec)
  | m :: ms' =>
      match ZSetRecord.member_to_score rec !! m with
      | None => zrem_loop ms' rec removed
      | Some sc =>
          let rec1 := with_scores rec (delete m (ZSetRecord.member_to_score rec)) in
          if negb (ZSetRecord.use_skiplist rec1) then
            let '(hit, vec) := erase_first (ZSetRecord.items rec1) sc m in
            removed' ← (if hit : bool then int32 (removed + 1) else Done removed);
            zrem_loop ms' (with_items rec1 vec) removed'
          else
            match ZSetRecord.sl rec1 with
            | None => UB
            | Some sl =>
                '(hit, sl') ← Skiplist.erase sl sc m;
                removed' ← (if hit : bool then int32 (removed + 1) else Done removed);
                zrem_loop ms' (with_sl rec1 sl') removed'
            end
      end
  end.

Definition zrem (s : t) (key : string) (ms : list string) (now : Z) : outcome (Z * t) :=
  let s1 := cleanupIfExpiredZSet s key now in
  match zmap_ s1 !! key with
  | None => Done (0, s1)
  | Some rec =>
      '(removed, rec') ← zrem_loop ms rec 0;
      gone ← (if negb (ZSetRecord.use_skiplist rec')
              then Done (bool_decide (ZSetRecord.items rec' = []))
              else match ZSetRecord.sl rec' with
                   | None => UB
                   | Some sl => Done (Skiplist.size sl =? 0)
                   end);
      if gone : bool
      then Done (removed, with_zmap s1 (delete key (zmap_ s1)))
      else Done (removed, with_zmap s1 (<[key := rec']> (zmap_ s1)))
  end.

Definition setZSetExpireAtMs (s : t) (key : string) (expire_at_ms : Z) : bool * t :=
  match zmap_ s !! key with
  | None => (false, s)
  | Some rec =>
      (true, mk (map_ s) (hmap_ s)
                (<[key := ZSetRecord.mk (ZSetRecord.use_skiplist rec) (ZSetRecord.items rec)
                            (ZSetRecord.sl rec) (ZSetRecord.member_to_score rec) expire_at_ms]>
                   (zmap_ s))
                (index_update key expire_at_ms (expire_index_ s)))
  end.

(** *** Reads *)

Definition ttl (s : t) (key : string) (now : Z) : outcome (Z * t) :=
  let s1 := cleanupIfExpired s key now in
  match map_ s1 !! key with
  | None => Done (-2, s1)
  | Some r =>
      if ValueRecord.expire_at_ms r <? 0 then Done (-1, s1)
      else
        ms_left ← int64 (ValueRecord.expire_at_ms r - now);
        if ms_left <=? 0 then Done (-2, s1) else Done (Z.quot ms_left 1000, s1)
  end.

Definition hget (s : t) (key field : string) (now : Z) : option string * t :=
  let s1 := cleanupIfExpiredHash s key now in
  (rec ← hmap_ s1 !! key; HashRecord.fields rec !! field, s1).

Definition hexists (s : t) (key field : string) (now : Z) : bool * t :=
  let s1 := cleanupIfExpiredHash s key now in
  (match hmap_ s1 !! key with
   | None => false
   | Some rec => bool_decide (is_Some (HashRecord.fields rec !! field))
   end, s1).

(** [out.push_back(kv.first); out.push_back(kv.second);] for every field. *)
Definition flat_pairs (l : list (string * string)) : list string :=
  concat (map (λ kv, [kv.1; kv.2]) l).

Definition hgetallFlat (s : t) (key : string) (now : Z) : list string * t :=
  let s1 := cleanupIfExpiredHash s key now in
  (match hmap_ s1 !! key with
   | None => []
   | Some rec => flat_pairs (map_to_list (HashRecord.fields rec))
   end, s1).

(** [static_cast<int>] of a [size_t]. *)
Definition to_int (z : Z) : Z :=
  let r := z mod 2 ^ 32 in if r <=? INT_MAX then r else r - 2 ^ 32.

Definition hlen (s : t) (key : string) (now : Z) : Z * t :=
  let s1 := cleanupIfExpiredHash s key now in
  (match hmap_ s1 !! key with
   | None => 0
   | Some rec => to_int (Z.of_nat (base.size (HashRecord.fields rec)))
   end, s1).

(** [for (int64_t i = s; i <= e; ++i) out.push_back(vec[i].second);] with
    [n] turns left. *)
Fixpoint push_range (n : nat) (vec : list (float * string)) (i : Z) (out : list string)
    : outcome (list string) :=
  match n with
  | O => Done out
  | S n' =>
      e ← at_ vec (Z.to_nat (i mod SIZE_MOD));
      push_range n' vec (i + 1) (out ++ [e.2])
  end.

Definition zrange (s : t) (key : string) (start stop : Z) (now : Z)
    : outcome (list string * t) :=
  let s1 := cleanupIfExpiredZSet s key now in
  match zmap_ s1 !! key with
  | None => Done ([], s1)
  | Some rec =>
      if negb (ZSetRecord.use_skiplist rec) then
        let vec := ZSetRecord.items rec in
        let n := Skiplist.to_int64 (Z.of_nat (length vec)) in
        if n =? 0 then Done ([], s1)
        else
          let b := Skiplist.norm n start in
          let e := Skiplist.norm n stop in
          if b >? e then Done ([], s1)
          else out ← push_range (Z.to_nat (e - b + 1)) vec b []; Done (out, s1)
      else
        match ZSetRecord.sl rec with
        | None => UB
        | Some sl => out ← Skiplist.rangeByRank sl start stop []; Done (out, s1)
        end
  end.

Definition zscore (s : t) (key member : string) (now : Z) : option float * t :=
  let s1 := cleanupIfExpiredZSet s key now in
  (rec ← zmap_ s1 !! key; ZSetRecord.member_to_score rec !! member, s1).

End KeyValueStore.

(** ** Strings of the C++ library *)

Definition nl : string := String "010"%char EmptyString.

Definition size_of (s : string) : Z := Z.of_nat (String.length s).

(** [std::to_string] on an integer. *)
Definition to_string (z : Z) : string := NilZero.string_of_int (Z.to_int z).

(** [s.find(c, pos)]; [None] is [npos]. *)
Fixpoint find_char (c : ascii) (pos : nat) (s : string) : option nat :=
  match s with
  | EmptyString => None
  | String a s' =>
      match pos with
      | O => if Ascii.eqb a c then Some O else S <$> find_char c O s'
      | S pos' => S <$> find_char c pos' s'
      end
  end.

(** [s.substr(pos, n)] with [pos] and [n] of type [size_t]: throws when
    [pos > s.size()], and stops at the end of [s]. *)
Definition substr (s : string) (pos n : Z) : outcome string :=
  if pos >? size_of s then Throw "out_of_range"
  else Done (String.substring (Z.to_nat pos) (Z.to_nat (Z.min n (size_of s - pos))) s).

(** [s.substr(pos)]. *)
Definition substr_from (s : string) (pos : Z) : outcome string :=
  substr s pos (SIZE_MOD - 1).

(** [static_cast<size_t>] of an [int], and [size_t] addition. *)
Definition to_size_t (z : Z) : Z := z mod SIZE_MOD.

Definition isspace (c : ascii) : bool :=
  let n := N_of_ascii c in ((9 <=? n) && (n <=? 13))%N || (n =? 32)%N.

Definition digit_of (c : ascii) : option Z :=
  let n := Z.of_N (N_of_ascii c) in
  if (48 <=? n) && (n <=? 57) then Some (n - 48) else None.

Fixpoint skip_space (s : string) : string :=
  match s with
  | String c s' => if isspace c then skip_space s' else s
  | EmptyString => s
  end.

(** The digits at the head of [s]: how many there are and their value. *)
Fixpoint read_digits (s : string) (n : nat) (acc : Z) : nat * Z :=
  match s with
  | String c s' =>
      match digit_of c with
      | Some d => read_digits s' (S n) (10 * acc + d)
      | None => (n, acc)
      end
  | EmptyString => (n, acc)
  end.

(** [strtol]-style conversion behind [std::stoi] and [std::stoll]: leading
    white space, an optional sign, decimal digits; what follows is ignored.
    No digit throws [invalid_argument], a value outside [lo, hi] throws
    [out_of_range]. *)
Definition sto (lo hi : Z) (s : string) : outcome Z :=
  let s1 := skip_space s in
  let '(neg, s2) := match s1 with
                    | String "-" s' => (true, s')
                    | String "+" s' => (false, s')
                    | _ => (false, s1)
                    end in
  let '(n, v) := read_digits s2 O 0 in
  match n with
  | O => Throw "invalid_argument"
  | S _ =>
      let z := if neg : bool then - v else v in
      if (lo <=? z) && (z <=? hi) then Done z else Throw "out_of_range"
  end.

Definition stoi : string → outcome Z := sto (- 2 ^ 31) INT_MAX.
Definition stoll : string → outcome Z := sto INT64_MIN INT64_MAX.

(** ** The clock *)

(** The readings [nowMs()] will return, with the position reached. *)
Record Clock := mkClock { readings : nat → Z; tick : nat }.

Definition nowMs (c : Clock) : Z * Clock :=
  (readings c (tick c), mkClock (readings c) (S (tick c))).

(** ** The snapshot codec (rdb.hpp, rdb.cpp) *)

Module Rdb.

(** The snapshot file as [load] finds it. *)
Inductive file :=
| NoFile
| Unreadable
| Content (data : string).

(** The device [save] writes to: whether the file can be opened, and the
    number of [write] calls that succeed ([None]: all of them). *)
Record device := mkDevice { can_open : bool; writes_ok : option nat }.

(** The last character of a string ([dir.back()]). *)
Fixpoint back (s : string) : option ascii :=
  match s with
  | EmptyString => None
  | String c EmptyString => Some c
  | String _ s' => back s'
  end.

Definition joinPath (dir file : string) : string :=
  match back dir with
  | None => file
  | Some c => if Ascii.eqb c "/" then dir +:+ file else dir +:+ "/" +:+ file
  end.

(** [Rdb::path()] for the options [dir] and [filename]. *)
Definition path (dir filename : string) : string := joinPath dir filename.

Section Libc.

(** [std::to_string(double)] and [std::stod], of the C++ library. *)
Variable to_string_double : float → string.
Variable stod : string → outcome float.

Definition sp : string := " ".

(** One scalar record. *)
Definition str_rec (kv : string * ValueRecord.t) : string :=
  to_string (size_of kv.1) +:+ sp +:+ kv.1 +:+ sp
  +:+ to_string (size_of (ValueRecord.value kv.2)) +:+ sp +:+ ValueRecord.value kv.2
  +:+ sp +:+ to_string (ValueRecord.expire_at_ms kv.2) +:+ nl.

Definition hash_head (kv : string * HashRecord.t) : string :=
  to_string (size_of kv.1) +:+ sp +:+ kv.1 +:+ sp
  +:+ to_string (HashRecord.expire_at_ms kv.2) +:+ sp
  +:+ to_string (Z.of_nat (base.size (HashRecord.fields kv.2))) +:+ nl.

Definition hash_field (fv : string * string) : string :=
  to_string (size_of fv.1) +:+ sp +:+ fv.1 +:+ sp
  +:+ to_string (size_of fv.2) +:+ sp +:+ fv.2 +:+ nl.

Definition zset_head (flat : ZSetFlat.t) : string :=
  to_string (size_of (ZSetFlat.key flat)) +:+ sp +:+ ZSetFlat.key flat +:+ sp
  +:+ to_string (ZSetFlat.expire_at_ms flat) +:+ sp
  +:+ to_string (Z.of_nat (length (ZSetFlat.items flat))) +:+ nl.

Definition zset_item (it : float * string) : string :=
  to_string_double it.1 +:+ sp +:+ to_string (size_of it.2) +:+ sp +:+ it.2 +:+ nl.

(** The [write] calls of [save] in their order, each with the message
    [err] gets when it fails. *)
Definition chunks (snap_str : list (string * ValueRecord.t))
    (snap_hash : list (string * HashRecord.t)) (snap_zset : list ZSetFlat.t)
    : list (string * string) :=
  [("MRDB2" +:+ nl, "write hdr");
   ("STR " +:+ to_string (Z.of_nat (length snap_str)) +:+ nl, "write str cnt")]
  ++ map (fun kv => (str_rec kv, "write str rec")) snap_str
  ++ [("HASH " +:+ to_string (Z.of_nat (length snap_hash)) +:+ nl, "write hash cnt")]
  ++ concat (map (fun kv =>
       (hash_head kv, "write hash head")
       :: map (fun fv => (hash_field fv, "write hash field"))
              (map_to_list (HashRecord.fields kv.2))) snap_hash)
  ++ [("ZSET " +:+ to_string (Z.of_nat (length snap_zset)) +:+ nl, "write zset cnt")]
  ++ concat (map (fun flat =>
       (zset_head flat, "write zset head")
       :: map (fun it => (zset_item it, "write zset item")) (ZSetFlat.items flat)) snap_zset).

(** The writes in turn: the result of [save], the message and what the
    file holds. *)
Fixpoint write_all (budget : option nat) (cs : list (string * string)) (written : string)
    : bool * string * string :=
  match cs with
  | [] => (true, EmptyString, written)
  | (data, msg) :: cs' =>
      match budget with
      | Some O => (false, msg, written)
      | Some (S b) => write_all (Some b) cs' (written +:+ data)
      | None => write_all None cs' (written +:+ data)
      end
  end.

(** [Rdb::save]: the returned flag, [err], and the file afterwards
    ([old] when it is not opened). *)
Definition save (enabled : bool) (dev : device) (old : file) (store : KeyValueStore.t)
    : outcome (bool * string * file) :=
  if negb enabled then Done (true, EmptyString, old)
  else if negb (can_open dev) then Done (false, "open rdb failed", old)
  else
    let snap_str := KeyValueStore.snapshot store in
    let snap_hash := KeyValueStore.snapshotHash store in
    snap_zset ← KeyValueStore.snapshotZSet store;
    let '(ok, err, written) :=
      write_all (writes_ok dev) (chunks snap_str snap_hash snap_zset) EmptyString in
    Done (ok, err, Content written).

(** What [load] works on: the engine, the clock and [rand()]. *)
Record world := mkWorld { engine : KeyValueStore.t; clock : Clock; rng : Rand }.

Definition with_engine (w : world) (s : KeyValueStore.t) : world :=
  mkWorld s (clock w) (rng w).

(** What a part of [load] does: go on with a value, or make [load] return
    false with a message; the engine keeps what was loaded so far. *)
Inductive step (A : Type) : Type :=
| Go (a : A)
| Fail (err : string) (w : world).

Arguments Go {A} a.
Arguments Fail {A} err w.

Definition and_then {A B} (m : outcome (step A)) (f : A → outcome (step B))
    : outcome (step B) :=
  r ← m;
  match r with
  | Go a => f a
  | Fail e w => Done (Fail e w)
  end.

Notation "x ⇐ m ; k" := (and_then m (fun x => k))
  (at level 20, m at level 100, k at level 200, only parsing).
Notation "' x ⇐ m ; k" := (and_then m (fun x => k))
  (at level 20, x pattern, m at level 100, k at level 200, only parsing).

(** A call that cannot make [load] return. *)
Definition lift {A} (m : outcome A) : outcome (step A) := a ← m; Done (Go a).

(** The lambda [readLine]: the line from [pos] and the position after it. *)
Definition readLine (file : string) (pos : nat) : option (string * nat) :=
  match find_char "010"%char pos file with
  | None => None
  | Some e => Some (String.substring pos (e - pos) file, S e)
  end.

(** [if (!readLine(line)) { err = ...; return false; }] *)
Definition read_or (file : string) (pos : nat) (err : string) (w : world)
    : outcome (step (string * nat)) :=
  match readLine file pos with
  | None => Done (Fail err w)
  | Some r => Done (Go r)
  end.

(** [while (s < line.size() && line[s] == ' ') ++s;] *)
Fixpoint skip_blanks (fuel : nat) (line : string) (s : Z) : Z :=
  match fuel with
  | O => s
  | S fuel' =>
      if (s <? size_of line)
         && bool_decide (String.get (Z.to_nat s) line = Some " "%char)
      then skip_blanks fuel' line ((s + 1) mod SIZE_MOD)
      else s
  end.

(** The lambdas [nextTok] and [nextTok2]: the token and the new [p]. *)
Definition nextTok (line : string) (p : Z) : outcome (string * Z) :=
  let s := skip_blanks (String.length line) line p in
  match (if s <? size_of line then find_char " "%char (Z.to_nat s) line else None) with
  | None => tok ← substr_from line s; Done (tok, size_of line)
  | Some q => tok ← substr line s (Z.of_nat q - s); Done (tok, Z.of_nat q + 1)
  end.

(** [len SP bytes SP]: the length token, then that many bytes. *)
Definition sized (line : string) (p : Z) : outcome (string * Z) :=
  '(len_s, p1) ← nextTok line p;
  len ← stoi len_s;
  bytes ← substr line p1 (to_size_t len);
  Done (bytes, (p1 + to_size_t len + 1) mod SIZE_MOD).

(** A scalar record line: key, value, expiry. *)
Definition parse_str (line : string) : outcome (string * string * Z) :=
  '(key, p1) ← sized line 0;
  '(val, p2) ← sized line p1;
  '(exp_s, _) ← nextTok line p2;
  exp ← stoll exp_s;
  Done (key, val, exp).

(** The loop over the scalar records, [n] still to read. *)
Fixpoint load_strs (n : nat) (err : string) (file : string) (pos : nat) (w : world)
    : outcome (step (nat * world)) :=
  match n with
  | O => Done (Go (pos, w))
  | S n' =>
      '(line, pos1) ⇐ read_or file pos err w;
      '(key, val, exp) ⇐ lift (parse_str line);
      load_strs n' err file pos1
        (with_engine w (KeyValueStore.setWithExpireAtMs (engine w) key val exp).2)
  end.

(** A head line of a field map or an ordered set: key, expiry, count. *)
Definition parse_head (line : string) : outcome (string * Z * Z) :=
  '(key, p1) ← sized line 0;
  '(exp_s, p2) ← nextTok line p1;
  exp ← stoll exp_s;
  '(n_s, _) ← nextTok line p2;
  n ← stoi n_s;
  Done (key, exp, n).

(** A field line: field and value (the value is the last thing read). *)
Definition parse_field (line : string) : outcome (string * string) :=
  '(field, q1) ← sized line 0;
  '(vlen_s, q2) ← nextTok line q1;
  vlen ← stoi vlen_s;
  val ← substr line q2 (to_size_t vlen);
  Done (field, val).

Fixpoint load_fields (n : nat) (file : string) (pos : nat) (w : world)
    (fvs : list (string * string)) : outcome (step (nat * list (string * string))) :=
  match n with
  | O => Done (Go (pos, fvs))
  | S n' =>
      '(line, pos1) ⇐ read_or file pos "trunc hash field" w;
      fv ⇐ lift (parse_field line);
      load_fields n' file pos1 w (fvs ++ [fv])
  end.

(** [for (const auto &fv : fvs) store.hset(key, fv.first, fv.second);] *)
Fixpoint hset_all (fvs : list (string * string)) (key : string) (w : world) : world :=
  match fvs with
  | [] => w
  | fv :: fvs' =>
      let '(now, c') := nowMs (clock w) in
      hset_all fvs' key
        (mkWorld (KeyValueStore.hset (engine w) key fv.1 fv.2 now).2 c' (rng w))
  end.

Fixpoint load_hashes (n : nat) (file : string) (pos : nat) (w : world)
    : outcome (step (nat * world)) :=
  match n with
  | O => Done (Go (pos, w))
  | S n' =>
      '(line, pos1) ⇐ read_or file pos "trunc hash head" w;
      '(key, exp, nf) ⇐ lift (parse_head line);
      (* [fvs.reserve(nf)] with a negative [int] *)
      _ ⇐ lift (if nf <? 0 then Throw "length_error" else Done ());
      '(pos2, fvs) ⇐ load_fields (Z.to_nat nf) file pos1 w [];
      let w1 :=
        match fvs with
        | [] => w
        | _ =>
            let w' := hset_all fvs key w in
            if exp >=? 0
            then with_engine w' (KeyValueStore.setHashExpireAtMs (engine w') key exp).2
            else w'
        end in
      load_hashes n' file pos2 w1
  end.

(** An item line: score and member. *)
Definition parse_item (line : string) : outcome (float * string) :=
  '(score_s, q1) ← nextTok line 0;
  sc ← stod score_s;
  '(member, _) ← sized line q1;
  Done (sc, member).

Fixpoint load_items (n : nat) (key : string) (file : string) (pos : nat) (w : world)
    : outcome (step (nat * world)) :=
  match n with
  | O => Done (Go (pos, w))
  | S n' =>
      '(line, pos1) ⇐ read_or file pos "trunc zset item" w;
      '(sc, member) ⇐ lift (parse_item line);
      let '(now, c1) := nowMs (clock w) in
      '(_, store1, g1) ⇐ lift (KeyValueStore.zadd (engine w) key sc member now (rng w));
      load_items n' key file pos1 (mkWorld store1 c1 g1)
  end.

Fixpoint load_zsets (n : nat) (file : string) (pos : nat) (w : world)
    : outcome (step world) :=
  match n with
  | O => Done (Go w)
  | S n' =>
      '(line, pos1) ⇐ read_or file pos "trunc zset head" w;
      '(key, exp, ni) ⇐ lift (parse_head line);
      '(pos2, w1) ⇐ load_items (Z.to_nat ni) key file pos1 w;
      load_zsets n' file pos2
        (if exp >=? 0
         then with_engine w1 (KeyValueStore.setZSetExpireAtMs (engine w1) key exp).2
         else w1)
  end.

(** The count that follows a section tag. *)
Definition section_count (tag : string) (err : string) (line : string) (w : world)
    : outcome (step nat) :=
  if String.prefix tag line then
    rest ⇐ lift (substr_from line (size_of tag));
    n ⇐ lift (stoi rest);
    Done (Go (Z.to_nat n))
  else Done (Fail err w).

(** [load] on the bytes of the file. *)
Definition load_text (data : string) (w : world) : outcome (step world) :=
  '(line, pos) ⇐ read_or data O "bad magic" w;
  if String.eqb line "MRDB1" then
    '(line, pos) ⇐ read_or data pos "no count" w;
    count ⇐ lift (stoi line);
    '(_, w) ⇐ load_strs (Z.to_nat count) "trunc rec" data pos w;
    Done (Go w)
  else if negb (String.eqb line "MRDB2") then Done (Fail "bad magic" w)
  else
    '(line, pos) ⇐ read_or data pos "no str section" w;
    str_count ⇐ section_count "STR " "no str tag" line w;
    '(pos, w) ⇐ load_strs str_count "trunc str rec" data pos w;
    '(line, pos) ⇐ read_or data pos "no hash section" w;
    hash_count ⇐ section_count "HASH " "no hash tag" line w;
    '(pos, w) ⇐ load_hashes hash_count data pos w;
    '(line, pos) ⇐ read_or data pos "no zset section" w;
    zset_count ⇐ section_count "ZSET " "no zset tag" line w;
    load_zsets zset_count data pos w.

(** [Rdb::load]: the returned flag, [err], and the engine, the clock and
    [rand()] afterwards. *)
Definition load (enabled : bool) (f : file) (w : world) : outcome (bool * string * world) :=
  if negb enabled then Done (true, EmptyString, w)
  else
    match f with
    | NoFile => Done (true, EmptyString, w)
    | Unreadable => Done (false, "read rdb", w)
    | Content data =>
        r ← load_text data w;
        match r with
        | Go w' => Done (true, EmptyString, w')
        | Fail err w' => Done (false, err, w')
        end
    end.

End Libc.

End Rdb.

(** ** Protocol values (resp.hpp) *)

Inductive RespType :=
| kSimpleString | kError | kInteger | kBulkString | kArray | kNull.

#[global] Instance RespType_eq_dec : EqDecision RespType.
Proof. solve_decision. Defined.

#[warnings="-register-all"]
Inductive RespValue := mkResp (type : RespType) (bulk : string) (array : list RespValue).

Definition type (v : RespValue) : RespType := let 'mkResp t _ _ := v in t.
Definition bulk (v : RespValue) : string := let 'mkResp _ b _ := v in b.
Definition array (v : RespValue) : list RespValue := let 'mkResp _ _ a := v in a.

(** ** The replication client (replica_client.hpp, replica_client.cpp) *)

Module ReplicaClient.

(** The client with what its thread works on: the global engine with the
    clock and [rand()], and the snapshot file at [Rdb::path()]. *)
Record t := mk {
  g_store : Rdb.world;
  last_offset_ : Z;
  rdb_file : Rdb.file
}.

(** What the body of the inner [while (true)] does with one parsed frame:
    go round the loop again, or leave [threadMain]. *)
Inductive control :=
| Continue (r : t)
| Return (r : t).

(** [::toupper] in the C locale. *)
Definition toupper (c : ascii) : ascii :=
  let n := N_of_ascii c in
  if ((97 <=? n) && (n <=? 122))%N then ascii_of_N (n - 32) else c.

Fixpoint upper (s : string) : string :=
  match s with
  | EmptyString => EmptyString
  | String c s' => String (toupper c) (upper s')
  end.

(** [v->array[i].bulk]. *)
Definition arg (v : RespValue) (i : nat) : outcome string := bulk <$> at_ (array v) i.

Definition with_store (r : t) (w : Rdb.world) : t := mk w (last_offset_ r) (rdb_file r).

(** The engine call of a command, with the clock read once. *)
Definition timed {A} (r : t)
    (call : KeyValueStore.t → Z → outcome (A * KeyValueStore.t)) : outcome control :=
  let w := g_store r in
  let '(now, c) := nowMs (Rdb.clock w) in
  '(_, s) ← call (Rdb.engine w) now;
  Done (Continue (with_store r (Rdb.mkWorld s c (Rdb.rng w)))).

Section Libc.

Variable stod : string → outcome float.

(** The [try] block of the [OFFSET] branch: any exception is swallowed. *)
Definition parse_offset (s : string) (last_offset : Z) : Z :=
  match substr_from s 8 ≫= stoll with
  | Done n => n
  | _ => last_offset
  end.

(** The branch for [RespType::kArray]. *)
Definition on_array (v : RespValue) (r : t) : outcome control :=
  match array v with
  | [] => Done (Continue r)
  | first :: _ =>
      let cmd := upper (bulk first) in
      let n := length (array v) in
      if String.eqb cmd "SET" && bool_decide (n = 3%nat) then
        k ← arg v 1; x ← arg v 2;
        '(_, s) ← KeyValueStore.set (Rdb.engine (g_store r)) k x None 0;
        Done (Continue (with_store r (Rdb.with_engine (g_store r) s)))
      else if String.eqb cmd "DEL" && bool_decide (2 ≤ n)%nat then
        timed r (fun s now => KeyValueStore.del s (bulk <$> drop 1 (array v)) now)
      else if String.eqb cmd "EXPIRE" && bool_decide (n = 3%nat) then
        k ← arg v 1; x ← arg v 2;
        secs ← stoll x;
        timed r (fun s now => KeyValueStore.expire s k secs now)
      else if String.eqb cmd "HSET" && bool_decide (n = 4%nat) then
        k ← arg v 1; f ← arg v 2; x ← arg v 3;
        timed r (fun s now => Done (KeyValueStore.hset s k f x now))
      else if String.eqb cmd "HDEL" && bool_decide (3 ≤ n)%nat then
        k ← arg v 1;
        timed r (fun s now => KeyValueStore.hdel s k (bulk <$> drop 2 (array v)) now)
      else if String.eqb cmd "ZADD" && bool_decide (n = 4%nat) then
        k ← arg v 1; x ← arg v 2; m ← arg v 3;
        sc ← stod x;
        let w := g_store r in
        let '(now, c) := nowMs (Rdb.clock w) in
        '(_, s, g) ← KeyValueStore.zadd (Rdb.engine w) k sc m now (Rdb.rng w);
        Done (Continue (with_store r (Rdb.mkWorld s c g)))
      else if String.eqb cmd "ZREM" && bool_decide (3 ≤ n)%nat then
        k ← arg v 1;
        timed r (fun s now => KeyValueStore.zrem s k (bulk <$> drop 2 (array v)) now)
      else if bool_decide (type v = kSimpleString) then
        if String.prefix "OFFSET " (bulk v)
        then Done (Continue (mk (g_store r) (parse_offset (bulk v) (last_offset_ r))
                                (rdb_file r)))
        else Done (Continue r)
      else Done (Continue r)
  end.

(** The body of the inner loop of [threadMain] for the frame [v] that
    [tryParseOne] returned; [can_fopen] tells whether [fopen] succeeds. *)
Definition on_frame (can_fopen : bool) (v : RespValue) (r : t) : outcome control :=
  if bool_decide (type v = kBulkString) then
    if negb can_fopen then Done (Return r)
    else
      let f := Rdb.Content (bulk v) in
      '(_, _, w) ← Rdb.load stod true f (g_store r);
      Done (Continue (mk w (last_offset_ r) f))
  else if bool_decide (type v = kArray) then on_array v r
  else Done (Continue r).

End Libc.

End ReplicaClient.

(** ** The command line (main.cpp) *)

Module Main.

Section Server.

(** [ServerConfig] (config.hpp), the configuration file reader
    (config_loader.hpp) and the server (server.hpp) are not part of these
    sources: the type, its default value, the two assignments [parse_args]
    makes, [loadConfigFromFile] and the exit status of [Server::run] are
    taken as given. *)
Variable ServerConfig : Type.
Variable default_config : ServerConfig.
Variable set_port : Z → ServerConfig → ServerConfig.
Variable set_bind_address : string → ServerConfig → ServerConfig.
Variable loadConfigFromFile : string → ServerConfig → bool * ServerConfig * string.
Variable run_server : ServerConfig → Z.

(** What the process has written to [std::cout] and to [std::cerr], one
    entry per line. *)
Record console := mkConsole { cout : list string; cerr : list string }.

Definition print_usage (argv0 : string) (o : console) : console :=
  mkConsole (cout o ++ ["mini-redis usage:";
                        "  " +:+ argv0 +:+ " [--port <port>] [--bind <ip>] [--config <file>]"])
            (cerr o).

Definition to_cerr (line : string) (o : console) : console :=
  mkConsole (cout o) (cerr o ++ [line]).

(** The loop of [parse_args] over [argv[i]], [argv[i+1]], ...: [args] are
    the arguments still to read. *)
Fixpoint parse_loop (argv0 : string) (args : list string) (cfg : ServerConfig)
    (o : console) {struct args} : outcome (bool * ServerConfig * console) :=
  match args with
  | [] => Done (true, cfg, o)
  | a :: rest =>
      match rest with
      | x :: rest' =>
          if String.eqb a "--port" then
            p ← stoi x;
            parse_loop argv0 rest' (set_port (p mod 2 ^ 16) cfg) o
          else if String.eqb a "--bind" then
            parse_loop argv0 rest' (set_bind_address x cfg) o
          else if String.eqb a "--config" then
            let '(ok, cfg', err) := loadConfigFromFile x cfg in
            if ok : bool then parse_loop argv0 rest' cfg' o
            else Done (false, cfg', to_cerr err o)
          else if String.eqb a "-h" || String.eqb a "--help" then
            Done (false, cfg, print_usage argv0 o)
          else
            Done (false, cfg, print_usage argv0 (to_cerr ("Unknown argument: " +:+ a) o))
      | [] =>
          if String.eqb a "-h" || String.eqb a "--help" then
            Done (false, cfg, print_usage argv0 o)
          else
            Done (false, cfg, print_usage argv0 (to_cerr ("Unknown argument: " +:+ a) o))
      end
  end.

(** [parse_args(argc, argv, out_config)] with [argv = argv0 :: args]. *)
Definition parse_args (argv0 : string) (args : list string) (cfg : ServerConfig)
    : outcome (bool * ServerConfig * console) :=
  parse_loop argv0 args cfg (mkConsole [] []).

(** [main]: the exit status and what was printed. *)
Definition main (argv0 : string) (args : list string) : outcome (Z * console) :=
  '(ok, config, o) ← parse_args argv0 args default_config;
  if ok : bool then Done (run_server config, o) else Done (1, o).

End Server.

End Main.

(** ** Scenarios *)

(** Draws that make every sampled level 1, and draws whose first value
    makes [randomLevel] advance once. *)
Definition draws_high : Rand := mkRand (fun _ => 20000) 0.
Definition draws_low_once : Rand :=
  mkRand (fun i => match i with O => 100 | _ => 20000 end) 0.

Definition clock0 : Clock := mkClock (fun _ => 0) 0.

(** The score [i] and the member [m<i>]. *)
Definition score_of (i : Z) : float := PrimFloat.of_uint63 (Uint63.of_Z i).
Definition member_of (i : Z) : string := "m" +:+ to_string i.

(** [ZADD key 1 m1], ..., [ZADD key n mn] at time 0. *)
Fixpoint zadd_upto (n : nat) (key : string) (s : KeyValueStore.t) (g : Rand)
    : outcome (KeyValueStore.t * Rand) :=
  match n with
  | O => Done (s, g)
  | S n' =>
      '(s1, g1) ← zadd_upto n' key s g;
      '(_, s2, g2) ← KeyValueStore.zadd s1 key (score_of (Z.of_nat n)) (member_of (Z.of_nat n)) 0 g1;
      Done (s2, g2)
  end.

(** * Properties *)

#[local] Set Warnings "-clear-no-such-hyp".

(** The ordered set under [key] after [ZADD key 1 m1] ... [ZADD key 128
    m128] on the empty engine. *)
Definition seq128 : KeyValueStore.t :=
  match zadd_upto 128 "z" KeyValueStore.empty draws_high with
  | Done (s, _) => s
  | _ => KeyValueStore.empty
  end.

(** What can be seen of the record under [key]: its mode, the length of
    its sequence and the node count of its skiplist. *)
Definition zset_shape (s : KeyValueStore.t) (key : string) : option (bool * nat * option Z) :=
  rec ← KeyValueStore.zmap_ s !! key;
  Some (ZSetRecord.use_skiplist rec, length (ZSetRecord.items rec),
        Skiplist.length_ <$> ZSetRecord.sl rec).

(** ** Reasoning about outcomes *)

Lemma bind_Done {A B} (m : outcome A) (f : A → outcome B) (b : B) :
  m ≫= f = Done b → ∃ a, m = Done a ∧ f a = Done b.
Proof. destruct m; simpl; intros H; try discriminate. eauto. Qed.

Lemma at_Done {A} (v : list A) (i : nat) (a : A) : at_ v i = Done a → v !! i = Some a.
Proof. unfold at_. destruct (v !! i); congruence. Qed.

Lemma put_Done {A} (v v' : list A) (i : nat) (a : A) :
  put v i a = Done v' → (i < length v)%nat ∧ v' = <[i:=a]> v.
Proof. unfold put. case_decide; intros E; inversion E; auto. Qed.

(** Splits a hypothesis [m ≫= f = Done b] into the two calls. *)
Tactic Notation "inv_bind" hyp(H) "as" simple_intropattern(a) ident(Ha) :=
  let H' := fresh "H" in
  apply bind_Done in H; destruct H as (a & Ha & H'); cbv beta iota in H'; rename H' into H.

(** ** Skiplist *)

Section SkiplistFacts.
Import Skiplist.

(** C1: whatever the state, a call of [erase] that returns has returned
    false and has not touched the skiplist. *)
Lemma erase_returns_false (sl : t) (sc : float) (m : string) (r : bool * t) :
  erase sl sc m = Done r → r = (false, sl).
Proof.
  unfold erase. intros H.
  inv_bind H as [x update] Hs.
  inv_bind H as xn Hx.
  inv_bind H as x0 Hx0.
  destruct x0 as [y|]; simpl in H.
  - congruence.
  - discriminate.
Qed.

(** The search writes [update] only below the level it starts from. *)
Lemma search_from_above n h x sc m update x' update' :
  search_from n h x sc m update = Done (x', update') →
  ∀ j, (n ≤ j)%nat → update' !! j = update !! j.
Proof.
  revert x update. induction n as [|i IH]; simpl; intros x update H j Hj.
  - congruence.
  - inv_bind H as y Hw. inv_bind H as u Hu. apply put_Done in Hu as [_ ->].
    rewrite (IH _ _ H j) by lia.
    apply list_lookup_insert_ne. lia.
Qed.

(** Linking levels [i .. i+n-1] reads a non-null [update[j]] at each. *)
Lemma link_reads n i node update h h' :
  link n i node update h = Done h' →
  ∀ j, (i ≤ j < i + n)%nat → ∃ l, update !! j = Some (Some l).
Proof.
  revert i h. induction n as [|n IH]; simpl; intros i h H j Hj; [lia|].
  inv_bind H as u Hu. inv_bind H as un Hun. inv_bind H as f Hf.
  inv_bind H as nn Hnn. inv_bind H as nf Hnf. inv_bind H as un1 Hun1.
  inv_bind H as uf Huf.
  destruct u as [ul|]; [|discriminate].
  destruct (decide (j = i)) as [->|Hne].
  - apply at_Done in Hu. eauto.
  - apply (IH _ _ H). lia.
Qed.

Lemma randomLevel_loop_ge fuel lvl r g : lvl ≤ (randomLevel_loop fuel lvl r g).1.
Proof.
  revert lvl r g. induction fuel as [|fuel IH]; simpl; intros lvl r g; [lia|].
  destruct (_ && _); simpl; [|lia].
  specialize (IH (lvl + 1) (Z.land (draws g (pos g)) 65535)
                 (mkRand (draws g) (S (pos g)))). lia.
Qed.

Lemma randomLevel_ge_1 g : 1 ≤ (randomLevel g).1.
Proof. unfold randomLevel, rand. cbv beta iota zeta. apply randomLevel_loop_ge. Qed.

(** C4: an [insert] that returns true has sampled a level that does not
    exceed the current one, and has left [level_] as it was. *)
Lemma insert_true_level (sl sl' : t) (sc : float) (m : string) (g g' : Rand) :
  insert sl sc m g = Done (true, sl', g') →
  (randomLevel g).1 ≤ level_ sl ∧ level_ sl' = level_ sl.
Proof.
  unfold insert. intros H.
  inv_bind H as [x update] Hs.
  inv_bind H as xn Hx. inv_bind H as x0 Hx0. inv_bind H as found Hfound.
  destruct found; [congruence|].
  pose proof (randomLevel_ge_1 g) as Hge.
  destruct (randomLevel g) as [lvl g1]. cbn [fst] in Hge. cbv beta iota zeta in H.
  destruct (Z.gtb_spec lvl (level_ sl)) as [Hgt|Hle].
  - exfalso. inv_bind H as upd Hfill.
    unfold fill_head in Hfill. rewrite Z.sub_diag in Hfill. cbn [Z.to_nat fill_from] in Hfill.
    inversion Hfill; subst upd.
    inv_bind H as h' Hlink.
    destruct (link_reads _ _ _ _ _ _ Hlink (Z.to_nat (level_ sl))) as [l Hl]; [lia|].
    unfold search in Hs.
    rewrite (search_from_above _ _ _ _ _ _ _ _ Hs) in Hl by lia.
    apply lookup_replicate in Hl as [? _]. discriminate.
  - inv_bind H as upd Hfill. inv_bind H as h' Hlink. inversion H; subst. cbn [fst level_]. lia.
Qed.

End SkiplistFacts.

(** C1: on the skiplist that holds exactly the node (1, "a"), just
    inserted, [erase(1, "a")] returns false and the node stays. *)
Theorem erase_present_node_returns_false :
  ∃ sl g,
    Skiplist.insert Skiplist.create 1 "a" draws_high = Done (true, sl, g)
    ∧ Skiplist.toVector sl = Done [(1%float, "a")]
    ∧ Skiplist.erase sl 1 "a" = Done (false, sl).
Proof.
  eexists _, _. split; [vm_compute; reflexivity|].
  split; vm_compute; reflexivity.
Qed.

(** C1: on a skiplist where the search ends at the last node, the test of
    [erase] reads through the null pointer. *)
Lemma erase_empty_is_undefined : Skiplist.erase Skiplist.create 1 "a" = UB.
Proof. vm_compute. reflexivity. Qed.

(** C4: on the empty skiplist (current level 1), an [insert] whose sampled
    level is 2 reads through the null [update[1]]. *)
Theorem insert_above_current_level_is_undefined :
  (Skiplist.randomLevel draws_low_once).1 = 2
  ∧ Skiplist.level_ Skiplist.create = 1
  ∧ Skiplist.insert Skiplist.create 1 "a" draws_low_once = UB.
Proof. repeat split; vm_compute; reflexivity. Qed.

(** ** Strings in lexicographic order *)

Definition str_lt (a b : string) : Prop := String.ltb a b = true.

Lemma str_lt_iff a b : str_lt a b ↔ String_as_OT.lt a b.
Proof.
  unfold str_lt, String.ltb. rewrite <- String_as_OT.cmp_lt.
  unfold String_as_OT.cmp. destruct (String.compare a b); split; congruence.
Qed.

Lemma str_lt_trans a b c : str_lt a b → str_lt b c → str_lt a c.
Proof. rewrite !str_lt_iff. apply String_as_OT.lt_trans. Qed.

Lemma str_lt_irrefl a : ¬ str_lt a a.
Proof. rewrite str_lt_iff. intros H. exact (String_as_OT.lt_not_eq _ _ H eq_refl). Qed.

(** [operator<] is total: what is neither below nor equal is above. *)
Lemma str_lt_total a b : String.ltb b a = false → a ≠ b → str_lt a b.
Proof.
  unfold str_lt, String.ltb. rewrite (String.compare_antisym a b).
  destruct (String.compare b a) eqn:E; simpl; try congruence.
  apply String.compare_eq_iff in E. congruence.
Qed.

Section ListKeys.
Import KeyValueStore.

(** Ascending with repetitions allowed: no element is above its successor. *)
Definition str_le (a b : string) : Prop := String.ltb b a = false.

Lemma sort_insert_elem x y l : x ∈ sort_insert y l ↔ x = y ∨ x ∈ l.
Proof.
  induction l as [|z l IH]; simpl.
  - set_solver.
  - destruct (String.ltb z y); set_solver.
Qed.

Lemma std_sort_elem x l : x ∈ std_sort l ↔ x ∈ l.
Proof.
  induction l as [|y l IH]; simpl; [done|].
  rewrite sort_insert_elem. set_solver.
Qed.

Lemma sort_insert_sorted x l : Sorted str_le l → Sorted str_le (sort_insert x l).
Proof.
  induction l as [|y l IH]; simpl; intros Hs.
  - repeat constructor.
  - destruct (String.ltb y x) eqn:E.
    + inversion Hs as [|? ? Hl Hhd]; subst.
      constructor; [auto|].
      destruct l as [|z l]; simpl.
      * constructor. unfold str_le.
        destruct (String.ltb x y) eqn:E'; [|done].
        exfalso. apply (str_lt_irrefl y). by apply str_lt_trans with x.
      * inversion Hhd; subst.
        destruct (String.ltb z x) eqn:E2; constructor; [done|].
        unfold str_le. destruct (String.ltb x y) eqn:E'; [|done].
        exfalso. apply (str_lt_irrefl y). by apply str_lt_trans with x.
    + constructor; [done|]. constructor. exact E.
Qed.

Lemma std_sort_sorted l : Sorted str_le (std_sort l).
Proof.
  induction l as [|x l IH]; simpl; [constructor|]. by apply sort_insert_sorted.
Qed.

Lemma std_unique_step x y l :
  std_unique (x :: y :: l)
  = if String.eqb x y then std_unique (y :: l) else x :: std_unique (y :: l).
Proof. reflexivity. Qed.

Lemma std_unique_elem x l : x ∈ std_unique l ↔ x ∈ l.
Proof.
  induction l as [|y l IH]; [done|].
  destruct l as [|z l]; [done|].
  rewrite std_unique_step.
  destruct (String.eqb_spec y z) as [E|Hne].
  - rewrite IH. subst y. set_solver.
  - rewrite elem_of_cons, IH. set_solver.
Qed.

Lemma std_unique_head y l : ∃ l', std_unique (y :: l) = y :: l'.
Proof.
  revert y. induction l as [|z l IH]; intros y.
  - by exists [].
  - rewrite std_unique_step.
    destruct (String.eqb_spec y z) as [E|Hne]; [subst y; apply IH|].
    by exists (std_unique (z :: l)).
Qed.

Lemma std_unique_sorted l : Sorted str_le l → Sorted str_lt (std_unique l).
Proof.
  induction l as [|y l IH]; intros Hs; [constructor|].
  inversion Hs as [|? ? Hl Hhd]; subst.
  destruct l as [|z l]; [repeat constructor|].
  rewrite std_unique_step.
  destruct (String.eqb_spec y z) as [E|Hne]; [by apply IH|].
  constructor; [by apply IH|].
  destruct (std_unique_head z l) as [l' ->]. constructor.
  inversion Hhd; subst. by apply str_lt_total.
Qed.

Lemma strictly_sorted_NoDup l : StronglySorted str_lt l → NoDup l.
Proof.
  induction 1 as [|x l Hs IH Hall]; constructor; [|done].
  intros Hin. rewrite Forall_forall in Hall.
  apply (str_lt_irrefl x), Hall, Hin.
Qed.

Lemma keys_elem {V} (m : gmap string V) k : k ∈ (map_to_list m).*1 ↔ is_Some (m !! k).
Proof.
  rewrite list_elem_of_fmap. split.
  - intros ([k' v] & -> & Hin). apply elem_of_map_to_list in Hin. by eexists.
  - intros [v Hv]. exists (k, v). split; [done|]. by apply elem_of_map_to_list.
Qed.

(** C10: [listKeys] returns the names held by at least one of the three
    families, each once, in ascending lexicographic order. *)
Theorem listKeys_sorted_distinct_complete (s : KeyValueStore.t) :
  StronglySorted (λ a b, String.ltb a b = true) (listKeys s)
  ∧ NoDup (listKeys s)
  ∧ ∀ k, k ∈ listKeys s ↔
         is_Some (map_ s !! k) ∨ is_Some (hmap_ s !! k) ∨ is_Some (zmap_ s !! k).
Proof.
  assert (StronglySorted str_lt (listKeys s)) as Hs.
  { apply Sorted_StronglySorted; [intros a b c; apply str_lt_trans|].
    apply std_unique_sorted, std_sort_sorted. }
  split; [exact Hs|]. split; [by apply strictly_sorted_NoDup|].
  intros k. unfold listKeys.
  rewrite std_unique_elem, std_sort_elem, !elem_of_app, !keys_elem. tauto.
Qed.

End ListKeys.

(** ** The data engine *)

Section EngineFacts.
Import KeyValueStore.

(** C2: a field map with a finite expiry whose last field [hdel] removes:
    the record is gone from every family and the expiry index still holds
    the key. *)
Theorem hdel_last_field_leaves_index_entry :
  ∃ s,
    hdel (setHashExpireAtMs (hset empty "k" "f" "v" 0).2 "k" 1000).2 "k" ["f"] 0 = Done (1, s)
    ∧ map_ s !! "k" = None ∧ hmap_ s !! "k" = None ∧ zmap_ s !! "k" = None
    ∧ expire_index_ s !! "k" = Some 1000.
Proof. eexists. split; [vm_compute; reflexivity|]. repeat split; vm_compute; reflexivity. Qed.

(** C2: the same for an ordered set that [zrem] empties. *)
Lemma zrem_last_member_leaves_index_entry :
  ∃ s1 g s,
    zadd empty "k" 1 "m" 0 draws_high = Done (1, s1, g)
    ∧ zrem (setZSetExpireAtMs s1 "k" 1000).2 "k" ["m"] 0 = Done (1, s)
    ∧ zmap_ s !! "k" = None
    ∧ expire_index_ s !! "k" = Some 1000.
Proof.
  eexists _, _, _. split; [vm_compute; reflexivity|].
  split; [vm_compute; reflexivity|]. split; vm_compute; reflexivity.
Qed.

(** C2: [setWithExpireAtMs] with a negative expiry over a scalar that had
    a finite one: no record with a finite expiry is left, the entry is. *)
Lemma setWithExpireAtMs_negative_leaves_index_entry :
  let s := (setWithExpireAtMs (setWithExpireAtMs empty "k" "v" 1000).2 "k" "v" (-1)).2 in
  (ValueRecord.expire_at_ms <$> map_ s !! "k") = Some (-1)
  ∧ expire_index_ s !! "k" = Some 1000.
Proof. split; vm_compute; reflexivity. Qed.

(** C3: [del] of a name held only by a field map returns 0 and leaves the
    field map in place. *)
Lemma del_ignores_field_map :
  let s := (hset empty "k" "f" "v" 0).2 in
  del s ["k"] 0 = Done (0, s) ∧ is_Some (hmap_ s !! "k").
Proof. split; [vm_compute; reflexivity|]. vm_compute. eauto. Qed.

(** C6: one ordered set in sequence mode: the loop fills [out] with its
    entry, and the call ends without returning it. *)
Theorem snapshotZSet_returns_nothing :
  ∃ s g,
    zadd empty "z" 1 "a" 0 draws_high = Done (1, s, g)
    ∧ snapshotZSet_out s = Done [ZSetFlat.mk "z" [(1%float, "a")] (-1)]
    ∧ snapshotZSet s = UB.
Proof.
  eexists _, _. split; [vm_compute; reflexivity|]. split; vm_compute; reflexivity.
Qed.

(** C6: in no state does [snapshotZSet] return a vector. *)
Lemma snapshotZSet_never_returns (s : t) (out : list ZSetFlat.t) :
  snapshotZSet s ≠ Done out.
Proof. unfold snapshotZSet. destruct (snapshotZSet_out s); discriminate. Qed.

(** C7: an ordered set of 128 members in sequence mode; the [zadd] of
    member 129 starts the move to a skiplist, whose first [insert] samples
    level 2 and reads through a null pointer.  With draws that keep every
    level at 1 the same call ends in skiplist mode with 129 nodes. *)
Theorem zadd_past_threshold_is_undefined :
  zadd_upto 128 "z" empty draws_high = Done (seq128, draws_high)
  ∧ zset_shape seq128 "z" = Some (false, 128%nat, None)
  ∧ zadd seq128 "z" (score_of 129) (member_of 129) 0 draws_low_once = UB
  ∧ (λ r, (r.1.1, zset_shape r.1.2 "z"))
      <$> zadd seq128 "z" (score_of 129) (member_of 129) 0 draws_high
    = Done (1, Some (true, 0%nat, Some 129)).
Proof. split; [|split; [|split]]; vm_compute; reflexivity. Qed.

End EngineFacts.

Section DelFacts.
Import KeyValueStore.

(** The names that hold a scalar record not yet expired at [now]. *)
Definition live_scalars (s : t) (now : Z) : gset string :=
  dom (filter (λ kv, isExpired (ValueRecord.expire_at_ms kv.2) now = false) (map_ s)).

Lemma elem_of_live_scalars s now k :
  k ∈ live_scalars s now ↔
  ∃ r, map_ s !! k = Some r ∧ isExpired (ValueRecord.expire_at_ms r) now = false.
Proof.
  unfold live_scalars. rewrite elem_of_dom. unfold is_Some.
  setoid_rewrite map_lookup_filter_Some. naive_solver.
Qed.

Lemma cleanupIfExpired_hmap s k now : hmap_ (cleanupIfExpired s k now) = hmap_ s.
Proof. unfold cleanupIfExpired. destruct (map_ s !! k); [destruct isExpired|]; done. Qed.

Lemma cleanupIfExpired_zmap s k now : zmap_ (cleanupIfExpired s k now) = zmap_ s.
Proof. unfold cleanupIfExpired. destruct (map_ s !! k); [destruct isExpired|]; done. Qed.

Lemma cleanupIfExpired_lookup_ne s k k' now :
  k ≠ k' → map_ (cleanupIfExpired s k now) !! k' = map_ s !! k'.
Proof.
  intros Hne. unfold cleanupIfExpired.
  destruct (map_ s !! k); [destruct isExpired|]; simpl; try done.
  by rewrite lookup_delete_ne.
Qed.

(** After the lazy step the name holds a record exactly when it held a
    live one. *)
Lemma cleanupIfExpired_lookup s k now :
  is_Some (map_ (cleanupIfExpired s k now) !! k) ↔ k ∈ live_scalars s now.
Proof.
  rewrite elem_of_live_scalars. unfold cleanupIfExpired.
  destruct (map_ s !! k) as [r|] eqn:E.
  - destruct (isExpired (ValueRecord.expire_at_ms r) now) eqn:Ex; simpl.
    + rewrite lookup_delete_eq. split; [by intros [? ?]|]. intros (r' & ? & ?). congruence.
    + rewrite E. split; [eauto|]. eauto.
  - rewrite E. split; [by intros [? ?]|]. by intros (? & ? & ?).
Qed.

Lemma cleanupIfExpired_live s k now :
  live_scalars (cleanupIfExpired s k now) now = live_scalars s now.
Proof.
  apply set_eq. intros k'. rewrite !elem_of_live_scalars. unfold cleanupIfExpired.
  destruct (map_ s !! k) as [r|] eqn:E; [|done].
  destruct (isExpired (ValueRecord.expire_at_ms r) now) eqn:Ex; [|done]. simpl.
  destruct (decide (k = k')) as [->|Hne].
  - rewrite lookup_delete_eq, E. split; [by intros (? & ? & ?)|].
    intros (r' & ? & ?). congruence.
  - by rewrite lookup_delete_ne.
Qed.

(** What the loop of [del] does, for any count it starts from. *)
Lemma del_loop_spec ks : ∀ s now removed,
  0 ≤ removed → removed + Z.of_nat (length ks) ≤ INT_MAX →
  ∃ s',
    del_loop ks s now removed
      = Done (removed + Z.of_nat (size (live_scalars s now ∩ list_to_set ks)), s')
    ∧ hmap_ s' = hmap_ s ∧ zmap_ s' = zmap_ s
    ∧ (∀ k, k ∈ ks → map_ s' !! k = None)
    ∧ (∀ k, k ∉ ks → map_ s' !! k = map_ s !! k)
    ∧ (∀ k, map_ s !! k = None → map_ s' !! k = None).
Proof.
  induction ks as [|k ks IH]; intros s now removed H0 Hmax.
  - exists s. simpl. rewrite intersection_empty_r_L, size_empty.
    rewrite Z.add_0_r. repeat split; try done. intros k Hk. by apply elem_of_nil in Hk.
  - cbn [del_loop length] in *.
    pose proof (cleanupIfExpired_lookup s k now) as Hlive.
    pose proof (cleanupIfExpired_live s k now) as Hsame.
    pose proof (cleanupIfExpired_hmap s k now) as Hh.
    pose proof (cleanupIfExpired_zmap s k now) as Hz.
    pose proof (cleanupIfExpired_lookup_ne s k) as Hne.
    assert (∀ k', map_ s !! k' = None → map_ (cleanupIfExpired s k now) !! k' = None) as Hmono.
    { intros k' Hk'. destruct (decide (k = k')) as [->|Hd]; [|by rewrite Hne].
      destruct (map_ (cleanupIfExpired s k' now) !! k') eqn:E; [|done].
      assert (k' ∈ live_scalars s now) as Hin by (apply Hlive; eauto).
      apply elem_of_live_scalars in Hin as (? & ? & ?). congruence. }
    set (s1 := cleanupIfExpired s k now) in *.
    destruct (map_ s1 !! k) as [r|] eqn:E.
    + assert (k ∈ live_scalars s now) as Hin by (apply Hlive; eauto).
      unfold int32.
      replace ((- 2 ^ 31 <=? removed + 1) && (removed + 1 <=? INT_MAX)) with true
        by (symmetry; apply andb_true_iff; unfold INT_MAX in *; lia).
      cbn [mbind outcome_bind].
      set (s2 := mk (delete k (map_ s1)) (hmap_ s1) (zmap_ s1) (delete k (expire_index_ s1))).
      destruct (IH s2 now (removed + 1)) as (s' & Hrun & Hh' & Hz' & Hin' & Hout' & Hno');
        [lia|lia|].
      exists s'. rewrite Hrun.
      assert (live_scalars s2 now = live_scalars s now ∖ {[k]}) as Hl2.
      { rewrite <- Hsame. fold s1. apply set_eq. intros k'.
        rewrite elem_of_difference, !elem_of_live_scalars, elem_of_singleton. simpl.
        destruct (decide (k = k')) as [->|Hd].
        - rewrite lookup_delete_eq. naive_solver.
        - rewrite lookup_delete_ne by done. naive_solver. }
      assert (Z.of_nat (size (live_scalars s now ∩ list_to_set (k :: ks)))
              = 1 + Z.of_nat (size (live_scalars s2 now ∩ list_to_set ks))) as ->.
      { rewrite Hl2, list_to_set_cons.
        assert (live_scalars s now ∩ ({[k]} ∪ list_to_set ks)
                = {[k]} ∪ (live_scalars s now ∖ {[k]}) ∩ list_to_set ks) as ->.
        { apply set_eq. intros k'. destruct (decide (k' = k)) as [->|]; set_solver. }
        assert (({[k]} : gset string) ## (live_scalars s now ∖ {[k]}) ∩ list_to_set ks)
          as Hdisj by set_solver.
        rewrite (size_union _ _ Hdisj), size_singleton. lia. }
      split; [f_equal; f_equal; lia|].
      simpl in Hh', Hz'. rewrite Hh', Hz'. repeat split; try done.
      * intros k' Hk'. apply elem_of_cons in Hk' as [->|Hk']; [|by apply Hin'].
        apply Hno'. simpl. apply lookup_delete_eq.
      * intros k' Hk'. apply not_elem_of_cons in Hk' as [Hd Hk'].
        rewrite (Hout' k' Hk'). simpl. rewrite lookup_delete_ne by done. by apply Hne.
      * intros k' Hk'. apply Hno'. simpl.
        destruct (decide (k = k')) as [->|Hd]; [apply lookup_delete_eq|].
        rewrite lookup_delete_ne by done. by apply Hmono.
    + assert (k ∉ live_scalars s now) as Hnin.
      { intros Hin. apply Hlive in Hin as [? ?]. congruence. }
      destruct (IH s1 now removed) as (s' & Hrun & Hh' & Hz' & Hin' & Hout' & Hno');
        [lia|lia|].
      exists s'. rewrite Hrun. rewrite Hsame in *.
      assert (live_scalars s now ∩ list_to_set (k :: ks)
              = live_scalars s now ∩ list_to_set ks) as ->.
      { rewrite list_to_set_cons. set_solver. }
      split; [done|].
      rewrite Hh', Hz'. repeat split; try done.
      * intros k' Hk'. apply elem_of_cons in Hk' as [->|Hk']; [by apply Hno'|by apply Hin'].
      * intros k' Hk'. apply not_elem_of_cons in Hk' as [Hd Hk'].
        rewrite (Hout' k' Hk'). by apply Hne.
      * intros k' Hk'. by apply Hno', Hmono.
Qed.

(** C3 (amended): [del] works on the scalar family alone.  It returns the
    number of listed names that held an unexpired scalar record, leaves no
    scalar record under a listed name, and leaves every field map, every
    ordered set and every other scalar record as they were. *)
Theorem del_removes_scalar_records_only (s : t) (ks : list string) (now : Z) :
  Z.of_nat (length ks) ≤ INT_MAX →
  ∃ s',
    del s ks now = Done (Z.of_nat (size (live_scalars s now ∩ list_to_set ks)), s')
    ∧ hmap_ s' = hmap_ s ∧ zmap_ s' = zmap_ s
    ∧ (∀ k, k ∈ ks → map_ s' !! k = None)
    ∧ (∀ k, k ∉ ks → map_ s' !! k = map_ s !! k).
Proof.
  intros Hlen. destruct (del_loop_spec ks s now 0) as (s' & Hrun & ? & ? & ? & ? & _);
    [lia|lia|].
  exists s'. unfold del. rewrite Hrun. rewrite Z.add_0_l. done.
Qed.

(** A store that holds the name [k] in all three families. *)
Definition three_families : t :=
  match zadd (hset (setWithExpireAtMs empty "k" "v" (-1)).2 "k" "f" "v" 0).2
             "k" 1 "m" 0 draws_high with
  | Done (_, s, _) => s
  | _ => empty
  end.

(** The amended C3 on that store: one record removed, the field map and the
    ordered set under the same name kept. *)
Lemma del_removes_scalar_records_only_witness :
  Z.of_nat (length ["k"]) ≤ INT_MAX
  ∧ ∃ s',
      del three_families ["k"] 0
        = Done (Z.of_nat (size (live_scalars three_families 0 ∩ list_to_set ["k"])), s')
      ∧ hmap_ s' = hmap_ three_families ∧ zmap_ s' = zmap_ three_families
      ∧ (∀ k, k ∈ ["k"] → map_ s' !! k = None)
      ∧ (∀ k, k ∉ ["k"] → map_ s' !! k = map_ three_families !! k).
Proof.
  split; [vm_compute; discriminate|].
  apply (del_removes_scalar_records_only three_families ["k"] 0).
  vm_compute; discriminate.
Defined.

End DelFacts.

(** ** The snapshot codec *)

Section RdbFacts.
Import KeyValueStore.

Variable to_string_double : float → string.
Variable stod : string → outcome float.

(** An engine whose only record is the scalar [k] with a value of two
    lines, as [SET k "a\nb"] leaves it. *)
Definition two_lines : KeyValueStore.t :=
  (setWithExpireAtMs empty "k" ("a" +:+ nl +:+ "b") (-1)).2.

Definition world0 (s : KeyValueStore.t) : Rdb.world := Rdb.mkWorld s clock0 draws_high.

(** What [save] writes when every [write] succeeds, from snapshots of the
    three families. *)
Definition rendered (snap_str : list (string * ValueRecord.t))
    (snap_hash : list (string * HashRecord.t)) (snap_zset : list ZSetFlat.t) : string :=
  (Rdb.write_all None (Rdb.chunks to_string_double snap_str snap_hash snap_zset) EmptyString).2.

(** C5: [save] on that engine calls [snapshotZSet], which ends without a
    return value; and the bytes [save] would write from the three populated
    snapshots make [load] throw, the record line being cut at the newline
    of the value. *)
Theorem save_then_load_loses_two_line_value :
  Rdb.save to_string_double true (Rdb.mkDevice true None) Rdb.NoFile two_lines = UB
  ∧ snapshotZSet_out two_lines = Done []
  ∧ rendered (snapshot two_lines) (snapshotHash two_lines) []
    = "MRDB2" +:+ nl +:+ "STR 1" +:+ nl +:+ "1 k 3 a" +:+ nl +:+ "b -1" +:+ nl
      +:+ "HASH 0" +:+ nl +:+ "ZSET 0" +:+ nl
  ∧ Rdb.load stod true
      (Rdb.Content (rendered (snapshot two_lines) (snapshotHash two_lines) []))
      (world0 empty)
    = Throw "out_of_range".
Proof. split; [|split; [|split]]; vm_compute; reflexivity. Qed.

(** C5: in no state does an enabled [save] that could open its file
    return. *)
Lemma save_never_returns (s : KeyValueStore.t) (writes : option nat) (old : Rdb.file)
    (r : bool * string * Rdb.file) :
  Rdb.save to_string_double true (Rdb.mkDevice true writes) old s ≠ Done r.
Proof.
  unfold Rdb.save. cbn [negb Rdb.can_open].
  pose proof (snapshotZSet_never_returns s) as Hz.
  destruct (snapshotZSet s); try discriminate. by destruct (Hz a).
Qed.

End RdbFacts.

(** An engine with a scalar, a field map and an ordered set whose names,
    values, fields and members hold spaces or are empty. *)
Definition spaced : KeyValueStore.t :=
  match
    KeyValueStore.zadd
      (KeyValueStore.hset
         (KeyValueStore.hset
            (KeyValueStore.setWithExpireAtMs KeyValueStore.empty "a key" "v w" 5).2
            "h" " f" "" 0).2
         "h" "g" "x y" 0).2 "z" 1 "m 1" 0 draws_high
  with
  | Done (_, s, _) => (KeyValueStore.setZSetExpireAtMs s "z" 7).2
  | _ => KeyValueStore.empty
  end.

(** The two library functions on the one score of [spaced]. *)
Definition to_string_one (x : float) : string := "1.000000".
Definition stod_one (s : string) : outcome float := Done 1%float.

(** Without newlines, and from the vector [snapshotZSet] has filled, the
    bytes of [save] load back to the same engine. *)
Lemma load_after_render_with_spaces :
  ∃ out,
    KeyValueStore.snapshotZSet_out spaced = Done out
    ∧ (λ r, (r.1, Rdb.engine r.2))
        <$> Rdb.load stod_one true
              (Rdb.Content (rendered to_string_one (KeyValueStore.snapshot spaced)
                              (KeyValueStore.snapshotHash spaced) out))
              (world0 KeyValueStore.empty)
      = Done (true, EmptyString, spaced).
Proof. eexists. split; [vm_compute; reflexivity|]. vm_compute. reflexivity. Qed.

(** ** The replication client *)

Section ReplicaFacts.
Import ReplicaClient.

Variable stod : string → outcome float.

(** C8: a simple-string frame, whatever it holds, goes through
    [threadMain] without any effect: [last_offset_], the engine and the
    snapshot file stay as they were. *)
Theorem simple_string_frame_changes_nothing
    (can_fopen : bool) (s : string) (a : list RespValue) (r : ReplicaClient.t) :
  on_frame stod can_fopen (mkResp kSimpleString s a) r = Done (Continue r).
Proof. reflexivity. Qed.

(** C8 on the frame [+OFFSET 42] and a client whose offset is 0. *)
Lemma offset_frame_keeps_last_offset (w : Rdb.world) (f : Rdb.file) :
  on_frame stod true (mkResp kSimpleString "OFFSET 42" []) (mk w 0 f)
  = Done (Continue (mk w 0 f)).
Proof. reflexivity. Qed.

Lemma timed_keeps_offset {A} (r r' : ReplicaClient.t)
    (call : KeyValueStore.t → Z → outcome (A * KeyValueStore.t)) :
  timed r call = Done (Continue r') → last_offset_ r' = last_offset_ r.
Proof.
  unfold timed. destruct (nowMs _) as [now c]. intros H.
  inv_bind H as [x s] Hc. by inversion H.
Qed.

(** The [OFFSET] branch sits inside the branch for arrays, under a test
    of the frame type that is false there: no array frame reaches it
    either. *)
Lemma offset_branch_is_dead (v : RespValue) (r r' : ReplicaClient.t) :
  type v = kArray →
  on_array stod v r = Done (Continue r') → last_offset_ r' = last_offset_ r.
Proof.
  intros Ht. unfold on_array. destruct (array v) as [|first rest]; [congruence|].
  rewrite Ht. rewrite (bool_decide_eq_false_2 (kArray = kSimpleString)) by discriminate.
  intros H.
  repeat match type of H with
  | context [if ?b then _ else _] => destruct b
  end;
  repeat match goal with
  | H : (_ ≫= _) = Done _ |- _ =>
      let a := fresh "a" in let Ha := fresh "Ha" in inv_bind H as a Ha
  | H : (let '(_, _) := ?p in _) = Done _ |- _ => destruct p
  | H : context [nowMs ?c] |- _ => destruct (nowMs c)
  | H : timed _ _ = Done _ |- _ => apply timed_keeps_offset in H
  end;
  try (inversion H; reflexivity); try assumption.
Qed.

(** Were the branch reached, [substr(8)] would drop the first digit. *)
Lemma parse_offset_drops_a_digit : parse_offset "OFFSET 42" 0 = 2.
Proof. vm_compute. reflexivity. Qed.

End ReplicaFacts.

(** ** The command line *)

Section MainFacts.

Variable ServerConfig : Type.
Variable default_config : ServerConfig.
Variable set_port : Z → ServerConfig → ServerConfig.
Variable set_bind_address : string → ServerConfig → ServerConfig.
Variable loadConfigFromFile : string → ServerConfig → bool * ServerConfig * string.
Variable run_server : ServerConfig → Z.

#[local] Abbreviation main :=
  (Main.main ServerConfig default_config set_port set_bind_address loadConfigFromFile
     run_server).

Definition is_help (a : string) : bool := String.eqb a "-h" || String.eqb a "--help".

(** [a] is one of the three options that read a value, and a value
    follows it. *)
Definition reads_value (a : string) (rest : list string) : bool :=
  (String.eqb a "--port" || String.eqb a "--bind" || String.eqb a "--config")
  && negb (bool_decide (rest = [])).

Definition nothing_printed : Main.console := Main.mkConsole [] [].

(** C9 (amended): when the first argument is [-h] or [--help] the usage
    text is printed and the exit status is 1; when it is any other string
    that is not an option with its value, the diagnostic and the usage text
    are printed and the exit status is 1 as well. *)
Theorem help_and_unknown_argument_exit_1 (argv0 a : string) (rest : list string) :
  reads_value a rest = false →
  main argv0 (a :: rest)
  = Done (1, if is_help a then Main.print_usage argv0 nothing_printed
             else Main.print_usage argv0
                    (Main.to_cerr ("Unknown argument: " +:+ a) nothing_printed)).
Proof.
  unfold reads_value, is_help, Main.main, Main.parse_args. intros H.
  cbn [Main.parse_loop].
  destruct rest as [|x rest].
  - destruct (String.eqb a "-h" || String.eqb a "--help"); reflexivity.
  - rewrite bool_decide_eq_false_2 in H by discriminate.
    rewrite andb_true_r in H. apply orb_false_elim in H as [H Hc].
    apply orb_false_elim in H as [Hp Hb]. rewrite Hp, Hb, Hc.
    destruct (String.eqb a "-h" || String.eqb a "--help"); reflexivity.
Qed.

End MainFacts.

(** The server left out: a configuration without content, a reader that
    accepts every file, a run that ends with status 0. *)
Definition main_alone : string → list string → outcome (Z * Main.console) :=
  Main.main unit () (λ _ c, c) (λ _ c, c) (λ _ c, (true, c, EmptyString)) (λ _, 0).

(** C9: [tiny-redis -h] prints the usage text and exits with status 1. *)
Lemma help_exits_with_status_1 :
  main_alone "tiny-redis" ["-h"]
  = Done (1, Main.mkConsole
               ["mini-redis usage:";
                "  tiny-redis [--port <port>] [--bind <ip>] [--config <file>]"] []).
Proof. vm_compute. reflexivity. Qed.

(** The amended C9 on [tiny-redis --help] and on [tiny-redis --port]. *)
Lemma help_and_unknown_argument_exit_1_witness :
  reads_value "--help" [] = false
  ∧ main_alone "tiny-redis" ["--help"]
    = Done (1, if is_help "--help" then Main.print_usage "tiny-redis" nothing_printed
               else Main.print_usage "tiny-redis"
                      (Main.to_cerr ("Unknown argument: " +:+ "--help") nothing_printed)).
Proof.
  split; [reflexivity|].
  apply (help_and_unknown_argument_exit_1 unit () (λ _ c, c) (λ _ c, c)
           (λ _ c, (true, c, EmptyString)) (λ _, 0) "tiny-redis" "--help" []).
  reflexivity.
Defined.

(** ** Storage mode of an ordered set *)

Section ModeFacts.
Import KeyValueStore.

Lemma place_mode rec vec g rec' g' :
  place rec vec g = Done (rec', g') →
  ZSetRecord.use_skiplist rec = true → ZSetRecord.use_skiplist rec' = true.
Proof.
  unfold place. destruct (_ >? _); intros H Hm.
  - inv_bind H as [sl g1] Hi. inversion H; by subst.
  - inversion H; by subst.
Qed.

(** [zadd] never clears [use_skiplist] on the record it works on. *)
Lemma zadd_rec_mode rec sc m g r rec' g' :
  zadd_rec rec sc m g = Done (r, rec', g') →
  ZSetRecord.use_skiplist rec = true → ZSetRecord.use_skiplist rec' = true.
Proof.
  unfold zadd_rec. intros H Hm. rewrite Hm in H. cbn [negb] in H.
  destruct (ZSetRecord.member_to_score rec !! m) as [old|].
  - destruct (PrimFloat.eqb old sc); [inversion H; by subst|].
    inv_bind H as [rec1 g1] H1. inversion H; subst; clear H. cbn.
    destruct (ZSetRecord.sl rec) as [sl|]; [|discriminate].
    inv_bind H1 as [b sl1] He. inv_bind H1 as [[b2 sl2] g2] Hi. inversion H1; by subst.
  - inv_bind H as [rec1 g1] H1. inversion H; subst; clear H. cbn.
    destruct (ZSetRecord.sl rec) as [sl|]; [|discriminate].
    inv_bind H1 as [[b2 sl2] g2] Hi. inversion H1; by subst.
Qed.

(** Nor does the loop of [zrem]. *)
Lemma zrem_loop_mode ms : ∀ rec removed n rec',
  zrem_loop ms rec removed = Done (n, rec') →
  ZSetRecord.use_skiplist rec' = ZSetRecord.use_skiplist rec.
Proof.
  induction ms as [|m ms IH]; intros rec removed n rec' H; cbn [zrem_loop] in H.
  - inversion H; by subst.
  - destruct (ZSetRecord.member_to_score rec !! m) as [sc|]; [|by apply IH in H].
    cbn [with_scores ZSetRecord.use_skiplist ZSetRecord.items ZSetRecord.sl] in H.
    destruct (ZSetRecord.use_skiplist rec) eqn:Hm; cbn [negb] in H.
    + destruct (ZSetRecord.sl rec) as [sl|]; [|discriminate].
      inv_bind H as [hit sl'] He. inv_bind H as removed' Hr.
      apply IH in H. by rewrite H.
    + destruct (erase_first _ sc m) as [hit vec].
      inv_bind H as removed' Hr. apply IH in H. by rewrite H.
Qed.

(** The two operations on an ordered set. *)
Inductive zop :=
| Zadd (sc : float) (m : string)
| Zrem (ms : list string).

Definition apply_zop (op : zop) (key : string) (now : Z) (s : t) (g : Rand)
    : outcome (t * Rand) :=
  match op with
  | Zadd sc m => '(_, s', g') ← zadd s key sc m now g; Done (s', g')
  | Zrem ms => '(_, s') ← zrem s key ms now; Done (s', g)
  end.

(** A run of [zadd] and [zrem] calls on [key], each at its own time, during
    which the record under [key] stays the same record: it is there and not
    expired when a call starts, the call returns, and the record is there
    when it ends. *)
Inductive same_record (key : string) : t → Rand → list (zop * Z) → t → Rand → Prop :=
| same_record_nil s g : same_record key s g [] s g
| same_record_cons s g op now s1 g1 ops s2 g2 rec :
    zmap_ s !! key = Some rec →
    isExpired (ZSetRecord.expire_at_ms rec) now = false →
    apply_zop op key now s g = Done (s1, g1) →
    is_Some (zmap_ s1 !! key) →
    same_record key s1 g1 ops s2 g2 →
    same_record key s g ((op, now) :: ops) s2 g2.

Definition in_skiplist_mode (s : t) (key : string) : Prop :=
  ∃ rec, zmap_ s !! key = Some rec ∧ ZSetRecord.use_skiplist rec = true.

Lemma apply_zop_mode op key now s g s1 g1 rec :
  zmap_ s !! key = Some rec →
  isExpired (ZSetRecord.expire_at_ms rec) now = false →
  ZSetRecord.use_skiplist rec = true →
  apply_zop op key now s g = Done (s1, g1) →
  is_Some (zmap_ s1 !! key) →
  in_skiplist_mode s1 key.
Proof.
  intros Hrec Hlive Hm Hrun Hsome.
  assert (cleanupIfExpiredZSet s key now = s) as Hclean.
  { unfold cleanupIfExpiredZSet. by rewrite Hrec, Hlive. }
  destruct op as [sc m|ms]; cbn [apply_zop] in Hrun.
  - inv_bind Hrun as [[r s'] g'] Hz. inversion Hrun; subst; clear Hrun.
    unfold zadd in Hz. rewrite Hclean, Hrec in Hz. cbn [default] in Hz.
    inv_bind Hz as [[r' rec'] g''] Hr. inversion Hz; subst; clear Hz.
    exists rec'. cbn. rewrite lookup_insert_eq. split; [done|].
    by apply (zadd_rec_mode _ _ _ _ _ _ _ Hr).
  - inv_bind Hrun as [r s'] Hz. inversion Hrun; subst; clear Hrun.
    unfold zrem in Hz. rewrite Hclean, Hrec in Hz.
    inv_bind Hz as [removed rec'] Hl. apply zrem_loop_mode in Hl.
    inv_bind Hz as gone Hg. destruct gone; inversion Hz; subst; clear Hz.
    + cbn in Hsome. rewrite lookup_delete_eq in Hsome. by destruct Hsome.
    + exists rec'. cbn. rewrite lookup_insert_eq. split; [done|]. congruence.
Qed.

(** X23.  Once in skiplist mode, the record stays in skiplist mode
    through any run of [zadd] and [zrem] calls on its key, for as long as
    it is the same record. *)
Theorem skiplist_mode_is_kept key s g ops s' g' :
  same_record key s g ops s' g' →
  in_skiplist_mode s key → in_skiplist_mode s' key.
Proof.
  induction 1 as [|s g op now s1 g1 ops s2 g2 rec Hrec Hlive Hrun Hsome Hrest IH];
    intros Hmode; [done|].
  apply IH. destruct Hmode as (rec0 & Hrec0 & Hm).
  assert (rec0 = rec) as -> by congruence.
  by eapply apply_zop_mode.
Qed.

(** An ordered set in skiplist mode that holds (1, a) and (2, b), then
    [ZADD z 0.5 new] and [ZREM z a] on it. *)
Definition run_start : t :=
  match Skiplist.insert Skiplist.create 1 "a" draws_high with
  | Done (_, sl1, g1) =>
      match Skiplist.insert sl1 2 "b" g1 with
      | Done (_, sl2, _) =>
          with_zmap empty
            {[ "z" := ZSetRecord.mk true [] (Some sl2)
                        (<["a" := 1%float]> {[ "b" := 2%float ]}) (-1) ]}
      | _ => empty
      end
  | _ => empty
  end.

Definition run_middle : t * Rand :=
  match apply_zop (Zadd 0.5 "new") "z" 0 run_start draws_high with
  | Done r => r
  | _ => (empty, draws_high)
  end.

Definition run_end : t * Rand :=
  match apply_zop (Zrem ["a"]) "z" 0 run_middle.1 run_middle.2 with
  | Done r => r
  | _ => (empty, draws_high)
  end.

Lemma skiplist_mode_is_kept_witness :
  same_record "z" run_start draws_high [(Zadd 0.5 "new", 0); (Zrem ["a"], 0)]
    run_end.1 run_end.2
  ∧ in_skiplist_mode run_start "z"
  ∧ in_skiplist_mode run_end.1 "z".
Proof.
  assert (same_record "z" run_start draws_high [(Zadd 0.5 "new", 0); (Zrem ["a"], 0)]
            run_end.1 run_end.2) as Hrun.
  { apply same_record_cons with (s1 := run_middle.1) (g1 := run_middle.2)
      (rec := default ZSetRecord.fresh (zmap_ run_start !! "z")).
    - vm_compute. reflexivity.
    - vm_compute. reflexivity.
    - vm_compute. reflexivity.
    - vm_compute. eauto.
    - apply same_record_cons with (s1 := run_end.1) (g1 := run_end.2)
        (rec := default ZSetRecord.fresh (zmap_ run_middle.1 !! "z")).
      + vm_compute. reflexivity.
      + vm_compute. reflexivity.
      + vm_compute. reflexivity.
      + vm_compute. eauto.
      + apply same_record_nil. }
  assert (in_skiplist_mode run_start "z") as Hstart.
  { exists (default ZSetRecord.fresh (zmap_ run_start !! "z")).
    split; vm_compute; reflexivity. }
  split; [exact Hrun|]. split; [exact Hstart|].
  exact (skiplist_mode_is_kept "z" run_start draws_high _ run_end.1 run_end.2 Hrun Hstart).
Defined.

End ModeFacts.

(** ** Skiplists of one level *)

(** Every skiplist the engine can build has [level_ = 1]: it starts there
    and an [insert] above the current level does not return.  Such a
    skiplist is a singly linked list from the sentinel, and the operations
    are characterised on the sequence of pairs it holds. *)

Lemma bind_Done_l {A B} (a : A) (f : A → outcome B) : Done a ≫= f = f a.
Proof. reflexivity. Qed.

(** Runs the calls that have returned. *)
Ltac run := repeat (cbv beta iota; rewrite ?bind_Done_l).

Section OneLevel.
Import Skiplist.

Variable sc : float.
Variable m : string.

(** The test of the search loop on a pair of the list. *)
Definition below (e : float * string) : bool := comparedLess e.1 e.2 sc m.

(** The number of leading pairs the search passes. *)
Fixpoint passed (l : list (float * string)) : nat :=
  match l with
  | e :: l' => if below e then S (passed l') else O
  | [] => O
  end.

Lemma passed_le l : (passed l ≤ length l)%nat.
Proof. induction l as [|e l IH]; simpl; [lia|]. destruct (below e); simpl; lia. Qed.

(** [path h x ns l]: from cell [x], following [forward[0]], the cells [ns]
    are met in turn, they hold the pairs [l], and the last pointer is
    null. *)
Inductive path (h : gmap loc SkiplistNode) : loc → list loc → list (float * string) → Prop :=
| path_end x n :
    h !! x = Some n → at_ (forward n) 0 = Done None → path h x [] []
| path_step x n y yn ns l :
    h !! x = Some n → at_ (forward n) 0 = Done (Some y) →
    h !! y = Some yn → path h y ns l →
    path h x (y :: ns) ((score yn, member yn) :: l).

Lemma path_length h x ns l : path h x ns l → length ns = length l.
Proof. induction 1; simpl; congruence. Qed.

Lemma path_cells_in_heap h x ns l : path h x ns l → ∀ y, y ∈ x :: ns → is_Some (h !! y).
Proof.
  induction 1 as [x n Hx Hn|x n y yn ns l Hx Hn Hy Hp IH]; intros z Hz.
  - apply list_elem_of_singleton in Hz as ->. eauto.
  - apply elem_of_cons in Hz as [->|Hz]; [eauto|by apply IH].
Qed.

(** A heap that agrees on the cells of a path has the same path. *)
Lemma path_frame h h' x ns l :
  path h x ns l → (∀ y, y ∈ x :: ns → h' !! y = h !! y) → path h' x ns l.
Proof.
  induction 1 as [x n Hx Hn|x n y yn ns l Hx Hn Hy Hp IH]; intros Hsame.
  - apply path_end with n; [|done]. rewrite Hsame; [done|set_solver].
  - apply path_step with n; [rewrite Hsame; [done|set_solver]|done
                             |rewrite Hsame; [done|set_solver]|].
    apply IH. intros z Hz. apply Hsame. set_solver.
Qed.

(** What the cell after [k] steps holds: its successor is the next cell of
    the path, or null at the end. *)
Lemma path_cell h x ns l k c :
  path h x ns l → (x :: ns) !! k = Some c →
  ∃ n, h !! c = Some n ∧ at_ (forward n) 0 = Done (ns !! k).
Proof.
  intros Hp. revert k. induction Hp as [x n Hx Hn|x n y yn ns l Hx Hn Hy Hp IH]; intros k Hk.
  - destruct k as [|k]; [|done]. inversion Hk; subst. by exists n.
  - destruct k as [|k]; [inversion Hk; subst; by exists n|].
    by apply IH.
Qed.

Lemma path_pair h x ns l k y yn :
  path h x ns l → ns !! k = Some y → h !! y = Some yn → l !! k = Some (score yn, member yn).
Proof.
  intros Hp. revert k. induction Hp as [x n Hx Hn|x n y' yn' ns l Hx Hn Hy Hp IH];
    intros k Hk Hyn; [done|].
  destruct k as [|k]; simpl in *; [|by apply IH].
  inversion Hk; subst. congruence.
Qed.

(** The search loop at level 0 stops at the cell after the pairs it has
    passed. *)
Lemma walk_path h x ns l fuel :
  path h x ns l → (length ns < fuel)%nat →
  ∃ c, (x :: ns) !! passed l = Some c ∧ walk fuel h 0 x sc m = Done c.
Proof.
  intros Hp. revert fuel.
  induction Hp as [x n Hx Hn|x n y yn ns l Hx Hn Hy Hp IH]; intros fuel Hf;
    (destruct fuel as [|fuel]; [simpl in Hf; lia|]); cbn [walk deref].
  - exists x. split; [done|].
    rewrite Hx. run. rewrite Hn. by run.
  - rewrite Hx. run. rewrite Hn. run. unfold deref. rewrite Hy. run.
    cbn [passed]. unfold below. cbn [fst snd].
    destruct (comparedLess (score yn) (member yn) sc m); [|by exists x].
    destruct (IH fuel) as (c & Hc & Hw); [simpl in Hf; lia|].
    exists c. by split.
Qed.

(** [chain h p ns l]: the same from the pointer [p]. *)
Inductive chain (h : gmap loc SkiplistNode) : ptr → list loc → list (float * string) → Prop :=
| chain_nil : chain h None [] []
| chain_cons y yn p ns l :
    h !! y = Some yn → at_ (forward yn) 0 = Done p → chain h p ns l →
    chain h (Some y) (y :: ns) ((score yn, member yn) :: l).

Lemma path_chain h x ns l :
  path h x ns l ↔ ∃ n p, h !! x = Some n ∧ at_ (forward n) 0 = Done p ∧ chain h p ns l.
Proof.
  split.
  - induction 1 as [x n Hx Hn|x n y yn ns l Hx Hn Hy Hp IH].
    + exists n, None. repeat split; [done..|constructor].
    + destruct IH as (n' & p & Hy' & Hp' & Hc).
      assert (n' = yn) as -> by congruence.
      exists n, (Some y). repeat split; [done..|]. by apply chain_cons with p.
  - intros (n & p & Hx & Hn & Hc). revert x n Hx Hn.
    induction Hc as [|y yn p ns l Hy Hp Hc IH]; intros x n Hx Hn.
    + by apply path_end with n.
    + apply path_step with n; [done..|]. by apply IH with yn.
Qed.

(** Distinct cells of a heap are no more than the heap has. *)
Lemma cells_le_size (h : gmap loc SkiplistNode) (ns : list loc) :
  NoDup ns → (∀ y, y ∈ ns → is_Some (h !! y)) → (length ns ≤ base.size h)%nat.
Proof.
  intros Hnd Hin.
  rewrite <- (size_list_to_set (C := gset loc) ns) by done.
  rewrite <- size_dom. apply subseteq_size.
  intros y Hy. apply elem_of_list_to_set in Hy. by apply elem_of_dom, Hin.
Qed.

Lemma collect_chain h p ns l fuel :
  chain h p ns l → (length ns ≤ fuel)%nat → collect fuel h p = Done l.
Proof.
  intros Hc. revert fuel. induction Hc as [|y yn p ns l Hy Hp Hc IH]; intros fuel Hf.
  - by destruct fuel.
  - destruct fuel as [|fuel]; [simpl in Hf; lia|]. cbn [collect].
    unfold deref. rewrite Hy. run. rewrite Hp. run.
    rewrite IH by (simpl in Hf; lia). by run.
Qed.

(** A skiplist of one level that holds the pairs [l], in the cells [ns]
    after the sentinel. *)
Record one_level (sl : t) (ns : list loc) (l : list (float * string)) : Prop := {
  ol_level : level_ sl = 1;
  ol_path : path (heap sl) (head_ sl) ns l;
  ol_nodup : NoDup (head_ sl :: ns);
  ol_length : length_ sl = Z.of_nat (length l) mod SIZE_MOD
}.

Lemma one_level_size sl ns l : one_level sl ns l → (length ns < base.size (heap sl))%nat.
Proof.
  intros [_ Hp Hnd _].
  pose proof (cells_le_size (heap sl) (head_ sl :: ns) Hnd (path_cells_in_heap _ _ _ _ Hp)).
  simpl in *. lia.
Qed.

(** [toVector] yields the pairs in the order of the chain. *)
Lemma toVector_one_level sl ns l : one_level sl ns l → toVector sl = Done l.
Proof.
  intros Hol. pose proof (one_level_size _ _ _ Hol) as Hsz. destruct Hol as [_ Hp _ _].
  apply path_chain in Hp as (n & p & Hx & Hn & Hc).
  unfold toVector, deref. rewrite Hx. run. rewrite Hn. run.
  apply collect_chain with ns; [done|lia].
Qed.

Lemma deref_ok h x n : h !! x = Some n → deref h (Some x) = Done n.
Proof. intros Hx. unfold deref. by rewrite Hx. Qed.

Lemma put_ok {A} (v : list A) (i : nat) (a : A) :
  (i < length v)%nat → put v i a = Done (<[i:=a]> v).
Proof. intros Hi. unfold put. by rewrite decide_True. Qed.

(** The vector [update] after the search of a skiplist of one level. *)
Definition update_at (c : loc) : list ptr :=
  <[0%nat := Some c]> (replicate (Z.to_nat kMaxLevel) None).

(** The search of a skiplist of one level ends at the cell after the pairs
    it has passed; the successor of that cell is the next cell, or null. *)
Lemma search_one_level sl ns l :
  one_level sl ns l →
  ∃ c n, (head_ sl :: ns) !! passed l = Some c
         ∧ search sl sc m = Done (c, update_at c)
         ∧ heap sl !! c = Some n
         ∧ at_ (forward n) 0 = Done (ns !! passed l).
Proof.
  intros Hol. pose proof (one_level_size _ _ _ Hol) as Hsz.
  destruct Hol as [Hlev Hp _ _].
  destruct (walk_path _ _ _ _ (S (base.size (heap sl))) Hp) as (c & Hc & Hw); [lia|].
  destruct (path_cell _ _ _ _ _ _ Hp Hc) as (n & Hn & Hf).
  exists c, n. repeat split; try done.
  unfold search. rewrite Hlev. change (Z.to_nat 1) with 1%nat. cbn [search_from].
  rewrite Hw. run. rewrite put_ok; [by run|].
  rewrite length_replicate. unfold kMaxLevel. lia.
Qed.

(** X26.  On a skiplist of one level [erase] returns false, leaving
    everything in place, when the search stops before a node, and reads
    through a null pointer when it stops at the end of the chain. *)
Theorem erase_one_level sl ns l :
  one_level sl ns l →
  erase sl sc m = if decide (passed l < length l)%nat then Done (false, sl) else UB.
Proof.
  intros Hol. destruct (search_one_level _ _ _ Hol) as (c & n & Hc & Hs & Hn & Hf).
  destruct Hol as [_ Hp _ _]. pose proof (path_length _ _ _ _ Hp) as Hlen.
  unfold erase. rewrite Hs. run. rewrite (deref_ok _ _ _ Hn). run. rewrite Hf. run.
  destruct (ns !! passed l) as [y|] eqn:Hy.
  - run. rewrite decide_True; [done|].
    apply lookup_lt_Some in Hy. lia.
  - cbn [deref]. rewrite decide_False; [done|].
    apply lookup_ge_None in Hy. lia.
Qed.

Lemma at_insert_0 {A} (v : list A) (a b : A) :
  at_ v 0 = Done a → at_ (<[0%nat := b]> v) 0 = Done b.
Proof. destruct v; [discriminate|done]. Qed.

(** The heap after the new cell [node] has been linked behind the cell
    [c], whose successor was [next]. *)
Definition linked (h : gmap loc SkiplistNode) (c : loc) (n : SkiplistNode) (node : loc)
    (next : ptr) : gmap loc SkiplistNode :=
  <[c := set_forward n (<[0%nat := Some node]> (forward n))]>
    (<[node := mkNode sc m [next]]> h).

(** Linking a new cell behind the cell met after [k] steps puts the new
    pair at position [k] of the sequence. *)
Lemma path_linked h x ns l k c n node :
  path h x ns l → NoDup (x :: ns) → node ∉ x :: ns →
  (x :: ns) !! k = Some c → h !! c = Some n →
  path (linked h c n node (ns !! k)) x
    (take k ns ++ node :: drop k ns) (take k l ++ (sc, m) :: drop k l).
Proof.
  intros Hp. revert k.
  induction Hp as [x n0 Hx Hn|x n0 y yn ns l Hx Hn Hy Hp IH]; intros k Hnd Hfresh Hk Hc.
  - destruct k as [|k]; [|done]. inversion Hk; subst c.
    assert (n = n0) as -> by congruence.
    assert (node ≠ x) as Hne by set_solver.
    cbn [take drop app lookup list_lookup].
    change (path (linked h x n0 node None) x [node] [(score (mkNode sc m [None]),
              member (mkNode sc m [None]))]).
    unfold linked.
    eapply path_step.
    + apply lookup_insert_eq.
    + cbn [forward set_forward]. by eapply at_insert_0.
    + rewrite lookup_insert_ne by done. apply lookup_insert_eq.
    + eapply path_end;
        [rewrite lookup_insert_ne by done; apply lookup_insert_eq|done].
  - apply NoDup_cons in Hnd as [Hxn Hnd].
    assert (node ≠ x ∧ node ∉ y :: ns) as [Hne Hfresh'] by set_solver.
    destruct k as [|k].
    + inversion Hk; subst c. assert (n = n0) as -> by congruence.
      cbn [take drop app lookup list_lookup].
      change (path (linked h x n0 node (Some y)) x (node :: y :: ns)
                ((score (mkNode sc m [Some y]), member (mkNode sc m [Some y]))
                 :: (score yn, member yn) :: l)).
      unfold linked.
      eapply path_step.
      * apply lookup_insert_eq.
      * cbn [forward set_forward]. by eapply at_insert_0.
      * rewrite lookup_insert_ne by done. apply lookup_insert_eq.
      * assert (y ≠ x ∧ y ≠ node) as [? ?] by set_solver.
        eapply path_step.
        -- rewrite lookup_insert_ne by done. apply lookup_insert_eq.
        -- done.
        -- rewrite !lookup_insert_ne by done. exact Hy.
        -- apply path_frame with h; [exact Hp|].
           intros z Hz. assert (z ≠ x ∧ z ≠ node) as [? ?] by set_solver.
           by rewrite !lookup_insert_ne.
    + cbn [lookup list_lookup] in Hk. cbn [take drop app].
      change ((y :: ns) !! S k) with (ns !! k).
      assert (c ≠ x) as Hcx.
      { intros ->. apply Hxn. by eapply list_elem_of_lookup_2. }
      assert (node ≠ y) as Hny by set_solver.
      specialize (IH k Hnd Hfresh' Hk Hc).
      destruct (decide (c = y)) as [->|Hcy].
      * assert (n = yn) as -> by congruence.
        change (score yn, member yn)
          with (score (set_forward yn (<[0%nat := Some node]> (forward yn))),
                member (set_forward yn (<[0%nat := Some node]> (forward yn)))).
        eapply path_step; [| |apply lookup_insert_eq|exact IH].
        -- unfold linked. rewrite !lookup_insert_ne by done. exact Hx.
        -- done.
      * eapply path_step; [| | |exact IH].
        -- unfold linked. rewrite !lookup_insert_ne by done. exact Hx.
        -- done.
        -- unfold linked. rewrite !lookup_insert_ne by done. exact Hy.
Qed.

(** Whether the pair the search stops before is the pair looked for. *)
Definition hit (l : list (float * string)) : bool :=
  match l !! passed l with
  | Some e => close e.1 sc && String.eqb e.2 m
  | None => false
  end.

(** The sequence with the new pair behind the pairs the search passes. *)
Definition placed (l : list (float * string)) : list (float * string) :=
  take (passed l) l ++ (sc, m) :: drop (passed l) l.

(** The first turn of the linking loop of [insert], on the heap that holds
    the new node of [lvl] levels. *)
Lemma link_first_turn h c n node next lvl rest :
  h !! c = Some n → at_ (forward n) 0 = Done next → h !! node = None →
  (0 < lvl)%nat →
  link (S rest) 0 node (update_at c)
    (<[node := mkNode sc m (replicate lvl None)]> h)
  = link rest 1 node (update_at c)
      (<[c := set_forward n (<[0%nat := Some node]> (forward n))]>
         (<[node := mkNode sc m (<[0%nat := next]> (replicate lvl None))]> h)).
Proof.
  intros Hc Hf Hnode Hlvl.
  assert (c ≠ node) as Hne by congruence.
  cbn [link]. change (at_ (update_at c) 0) with (Done (Some c : ptr)). run.
  rewrite (deref_ok _ c n) by (by rewrite lookup_insert_ne). run.
  rewrite Hf. run.
  rewrite (deref_ok _ node (mkNode sc m (replicate lvl None))) by apply lookup_insert_eq.
  run. cbn [forward]. rewrite put_ok by (rewrite length_replicate; lia). run.
  cbn [set_forward score member]. rewrite insert_insert_eq.
  rewrite (deref_ok _ c n) by (by rewrite lookup_insert_ne). run.
  rewrite put_ok; [by run|].
  destruct (forward n); [discriminate|simpl; lia].
Qed.

(** [insert] on a skiplist of one level.  When the search stops before a
    pair with the member looked for and a score within the tolerance, it
    returns false and changes nothing.  Otherwise, with a sampled level of
    1, it returns true and the new pair stands behind the pairs the search
    has passed; with a higher level it reads through a null pointer. *)
Theorem insert_one_level sl ns l g :
  one_level sl ns l →
  if hit l then insert sl sc m g = Done (false, sl, g)
  else if decide ((randomLevel g).1 = 1) then
    ∃ sl' ns', insert sl sc m g = Done (true, sl', (randomLevel g).2)
               ∧ one_level sl' ns' (placed l)
  else insert sl sc m g = UB.
Proof.
  intros Hol. destruct (search_one_level _ _ _ Hol) as (c & n & Hc & Hs & Hn & Hf).
  destruct Hol as [Hlev Hp Hnd Hlen].
  pose proof (path_length _ _ _ _ Hp) as Hnl.
  pose proof (path_cells_in_heap _ _ _ _ Hp) as Hcells.
  unfold insert. rewrite Hs. run. rewrite (deref_ok _ _ _ Hn). run. rewrite Hf. run.
  assert ((match ns !! passed l with
           | Some _ =>
               n0 ← deref (heap sl) (ns !! passed l);
               Done (close (score n0) sc && String.eqb (member n0) m)
           | None => Done false
           end) = Done (hit l)) as ->.
  { unfold hit. destruct (ns !! passed l) as [y|] eqn:Hy.
    - destruct (Hcells y) as [yn Hyn]; [apply elem_of_cons; right; by eapply list_elem_of_lookup_2|].
      rewrite (deref_ok _ _ _ Hyn). run.
      by rewrite (path_pair _ _ _ _ _ _ _ Hp Hy Hyn).
    - apply lookup_ge_None in Hy. rewrite lookup_ge_None_2 by lia. done. }
  run. destruct (hit l); [done|].
  pose proof (randomLevel_ge_1 g) as Hge.
  destruct (randomLevel g) as [lvl g'] eqn:Hrl. cbn [fst snd] in *.
  set (node := fresh (dom (heap sl))).
  assert (heap sl !! node = None) as Hfresh.
  { apply not_elem_of_dom. apply is_fresh. }
  assert (node ∉ head_ sl :: ns) as Hnotin.
  { intros Hin. apply Hcells in Hin as [? ?]. congruence. }
  unfold new_node.
  destruct (decide (lvl = 1)) as [->|Hlvl].
  - rewrite Hlev. change (1 >? 1) with false. run.
    change (Z.to_nat 1) with 1%nat.
    rewrite (link_first_turn _ c n node (ns !! passed l)) by (done || lia).
    cbn [link]. run.
    eexists _, (take (passed l) ns ++ node :: drop (passed l) ns). split; [done|].
    split; cbn [level_ heap head_ length_].
    + done.
    + by apply path_linked.
    + assert (take (passed l) ns ++ node :: drop (passed l) ns ≡ₚ node :: ns) as ->.
      { rewrite <- Permutation_middle. by rewrite take_drop. }
      apply NoDup_cons in Hnd as [Hh Hnd].
      apply NoDup_cons. split; [|apply NoDup_cons; split; [|done]]; set_solver.
    + assert (length (placed l) = S (length l)) as ->.
      { unfold placed. rewrite length_app, length_cons, length_take, length_drop.
        pose proof (passed_le l). lia. }
      rewrite Hlen, Zplus_mod_idemp_l. f_equal. lia.
  - rewrite Hlev.
    assert ((lvl >? 1) = true) as -> by lia.
    unfold fill_head. rewrite Z.sub_diag. change (Z.to_nat 0) with O.
    cbn [fill_from]. run.
    assert (∃ rest, Z.to_nat lvl = S (S rest)) as [rest Hrest].
    { exists (Z.to_nat lvl - 2)%nat. lia. }
    rewrite Hrest.
    rewrite (link_first_turn _ c n node (ns !! passed l)) by (done || lia).
    cbn [link]. change (at_ (update_at c) 1) with (Done (None : ptr)). run.
    done.
Qed.

Lemma create_one_level : one_level create [] [].
Proof.
  split; [done| |apply NoDup_singleton|done].
  eapply path_end; [apply lookup_singleton_eq|done].
Qed.

(** *** Ranks *)

(** The members at the ranks [start .. stop] of a sequence, with the
    indices normalised as [rangeByRank] and [zrange] do. *)
Definition ranks (l : list (float * string)) (start stop : Z) : list string :=
  let n := Z.of_nat (length l) in
  if n =? 0 then []
  else
    let s := norm n start in
    let e := norm n stop in
    if s >? e then [] else (take (Z.to_nat (e - s + 1)) (drop (Z.to_nat s) l)).*2.

(** A normalised index is a position of the sequence. *)
Lemma norm_range n idx : 0 < n → 0 ≤ norm n idx ≤ n - 1.
Proof.
  intros Hn. unfold norm. cbv zeta. rewrite Z.geb_leb.
  repeat match goal with
  | |- context [if ?a <? ?b then _ else _] => destruct (Z.ltb_spec a b)
  | |- context [if ?a <=? ?b then _ else _] => destruct (Z.leb_spec a b)
  end; lia.
Qed.

Lemma to_int64_small z : 0 ≤ z ≤ INT64_MAX → to_int64 z = z.
Proof.
  intros Hz. unfold to_int64, INT64_MAX, SIZE_MOD in *.
  rewrite Z.mod_small by lia. destruct (_ <=? _) eqn:E; lia.
Qed.

Lemma skip_to_chain h p ns l fuel rank j :
  chain h p ns l → (length ns ≤ fuel)%nat → (j ≤ length ns)%nat →
  ∃ p', skip_to fuel h p rank (rank + Z.of_nat j) = Done (p', rank + Z.of_nat j)
        ∧ chain h p' (drop j ns) (drop j l).
Proof.
  intros Hc. revert fuel rank j.
  induction Hc as [|y yn p ns l Hy Hp Hc IH]; intros fuel rank j Hf Hj.
  - simpl in Hj. assert (j = O) as -> by lia. exists None.
    destruct fuel; simpl; rewrite Z.add_0_r; (split; [done|constructor]).
  - destruct j as [|j].
    + exists (Some y). rewrite Z.add_0_r. split; [|by econstructor].
      destruct fuel; cbn [skip_to]; by rewrite Z.ltb_irrefl.
    + destruct fuel as [|fuel]; [simpl in Hf; lia|]. cbn [skip_to].
      assert ((rank <? rank + Z.of_nat (S j)) = true) as -> by (apply Z.ltb_lt; lia).
      rewrite (deref_ok _ _ _ Hy). run. rewrite Hp. run.
      destruct (IH fuel (rank + 1) j) as (p' & Hs & Hc'); [simpl in *; lia..|].
      exists p'. replace (rank + Z.of_nat (S j)) with (rank + 1 + Z.of_nat j) by lia.
      by split.
Qed.

Lemma push_members_chain h p ns l fuel rank e out :
  chain h p ns l → (length ns ≤ fuel)%nat →
  push_members fuel h p rank e out = Done (out ++ (take (Z.to_nat (e - rank + 1)) l).*2).
Proof.
  intros Hc. revert fuel rank out.
  induction Hc as [|y yn p ns l Hy Hp Hc IH]; intros fuel rank out Hf.
  - destruct fuel; simpl; by rewrite take_nil, app_nil_r.
  - destruct (Z.leb_spec rank e) as [Hle|Hgt].
    + destruct fuel as [|fuel]; [simpl in Hf; lia|]. cbn [push_members].
      assert ((rank <=? e) = true) as -> by (apply Z.leb_le; lia).
      rewrite (deref_ok _ _ _ Hy). run. rewrite Hp. run.
      rewrite IH by (simpl in Hf; lia).
      replace (Z.to_nat (e - rank + 1)) with (S (Z.to_nat (e - (rank + 1) + 1))) by lia.
      cbn [take fmap list_fmap snd]. by rewrite <- app_assoc.
    + replace (Z.to_nat (e - rank + 1)) with O by lia.
      destruct fuel; cbn [push_members]; assert ((rank <=? e) = false) as -> by (apply Z.leb_gt; lia);
        by rewrite app_nil_r.
Qed.

(** [rangeByRank] on a skiplist of one level appends the members at the
    normalised ranks [start .. stop] of the sequence it holds. *)
Theorem rangeByRank_one_level sl ns l start stop out :
  one_level sl ns l → Z.of_nat (length l) ≤ INT64_MAX →
  rangeByRank sl start stop out = Done (out ++ ranks l start stop).
Proof.
  intros Hol Hmax. pose proof (one_level_size _ _ _ Hol) as Hsz.
  destruct Hol as [_ Hp _ Hlen]. pose proof (path_length _ _ _ _ Hp) as Hnl.
  assert (length_ sl = Z.of_nat (length l)) as Hlen'.
  { rewrite Hlen. apply Z.mod_small. unfold INT64_MAX, SIZE_MOD in *. lia. }
  unfold rangeByRank, ranks. rewrite Hlen'.
  destruct (Z.of_nat (length l) =? 0) eqn:Hz; [by rewrite app_nil_r|].
  rewrite to_int64_small by lia.
  set (n := Z.of_nat (length l)) in *.
  pose proof (norm_range n start) as Hs. pose proof (norm_range n stop) as He.
  destruct (norm n start >? norm n stop) eqn:Hse; [by rewrite app_nil_r|].
  apply path_chain in Hp as (hn & p & Hx & Hn & Hc).
  rewrite (deref_ok _ _ _ Hx). run. rewrite Hn. run.
  destruct (skip_to_chain _ _ _ _ (base.size (heap sl)) 0 (Z.to_nat (norm n start)) Hc)
    as (p' & Hskip & Hc'); [lia..|].
  rewrite Z.add_0_l, Z2Nat.id in Hskip by lia. rewrite Hskip. run.
  rewrite (push_members_chain _ _ _ _ _ _ _ _ Hc') by (rewrite length_drop; lia).
  done.
Qed.

End OneLevel.

(** *** The skiplists the code can build *)

(** What the constructor gives, and what [insert] and [erase] calls that
    return make of it. *)
Inductive built : Skiplist.t → Prop :=
| built_create : built Skiplist.create
| built_insert sl sc m g b sl' g' :
    built sl → Skiplist.insert sl sc m g = Done (b, sl', g') → built sl'
| built_erase sl sc m b sl' :
    built sl → Skiplist.erase sl sc m = Done (b, sl') → built sl'.

(** X24.  Every skiplist the code can build has one level, and
    [toVector] returns on it. *)
Theorem built_one_level (sl : Skiplist.t) :
  built sl →
  ∃ ns l, one_level sl ns l ∧ Skiplist.level_ sl = 1 ∧ Skiplist.toVector sl = Done l.
Proof.
  assert (∀ sl, (∃ ns l, one_level sl ns l) →
            ∃ ns l, one_level sl ns l ∧ Skiplist.level_ sl = 1
                    ∧ Skiplist.toVector sl = Done l) as Hfin.
  { intros sl0 (ns & l & Hol). exists ns, l.
    split; [done|]. split; [by destruct Hol|by eapply toVector_one_level]. }
  intros Hb. apply Hfin.
  induction Hb as [|sl sc m g b sl' g' Hb IH Hi|sl sc m b sl' Hb IH He].
  - exists [], []. apply create_one_level.
  - destruct IH as (ns & l & Hol).
    pose proof (insert_one_level sc m sl ns l g Hol) as Hspec.
    destruct (hit sc m l).
    + rewrite Hspec in Hi. inversion Hi; subst. eauto.
    + destruct (decide _).
      * destruct Hspec as (sl1 & ns1 & Hi1 & Hol1). rewrite Hi1 in Hi.
        inversion Hi; subst. eauto.
      * congruence.
  - apply erase_returns_false in He. inversion He; subst. exact IH.
Qed.

Lemma hit_other_member sc m l : m ∉ l.*2 → hit sc m l = false.
Proof.
  intros Hm. unfold hit. destruct (l !! passed sc m l) as [e|] eqn:He; [|done].
  destruct (String.eqb_spec e.2 m) as [Heq|_]; [|by rewrite andb_false_r].
  exfalso. apply Hm. rewrite <- Heq.
  apply list_elem_of_fmap. exists e. split; [done|]. by eapply list_elem_of_lookup_2.
Qed.

Lemma placed_perm sc m l : placed sc m l ≡ₚ (sc, m) :: l.
Proof. unfold placed. rewrite <- Permutation_middle. by rewrite take_drop. Qed.

(** X25.  The loop that moves a sequence into a skiplist: when it
    returns, the skiplist holds the pairs it held before and every pair of
    the sequence, provided the members are all different. *)
Theorem insert_all_keeps_every_pair vec : ∀ sl ns l g sl' g',
  one_level sl ns l → NoDup (vec.*2 ++ l.*2) →
  KeyValueStore.insert_all vec sl g = Done (sl', g') →
  ∃ ns' l', one_level sl' ns' l' ∧ l' ≡ₚ vec ++ l.
Proof.
  induction vec as [|e vec IH]; intros sl ns l g sl' g' Hol Hnd Hrun.
  - inversion Hrun; subst. by exists ns, l.
  - cbn [KeyValueStore.insert_all] in Hrun.
    inv_bind Hrun as [[b sl1] g1] Hi.
    rewrite fmap_cons in Hnd. cbn [app] in Hnd. apply NoDup_cons in Hnd as [He Hnd].
    pose proof (insert_one_level e.1 e.2 sl ns l g Hol) as Hspec.
    rewrite hit_other_member in Hspec by (intros Hin; apply He; set_solver).
    destruct (decide _); [|congruence].
    destruct Hspec as (sl2 & ns2 & Hi2 & Hol2). rewrite Hi2 in Hi.
    inversion Hi; subst; clear Hi.
    assert (NoDup (vec.*2 ++ (placed e.1 e.2 l).*2)) as Hnd'.
    { rewrite placed_perm, fmap_cons. cbn [snd].
      rewrite <- Permutation_middle. apply NoDup_cons. by split. }
    destruct (IH _ _ _ _ _ _ Hol2 Hnd' Hrun) as (ns' & l' & Hol' & Hperm).
    exists ns', l'. split; [done|].
    rewrite Hperm, placed_perm, <- Permutation_middle. by destruct e.
Qed.

(** ** Scalar records *)

Section ScalarFacts.
Import KeyValueStore.

Lemma int64_ok z : INT64_MIN ≤ z ≤ INT64_MAX → int64 z = Done z.
Proof.
  intros Hz. unfold int64.
  assert ((INT64_MIN <=? z) && (z <=? INT64_MAX) = true) as ->; [|done].
  apply andb_true_iff. split; apply Z.leb_le; lia.
Qed.

Lemma int64_Done z z' : int64 z = Done z' → z' = z ∧ INT64_MIN ≤ z ≤ INT64_MAX.
Proof.
  unfold int64. destruct (Z.leb_spec INT64_MIN z), (Z.leb_spec z INT64_MAX);
    simpl; intros E; inversion E; subst. split; [done|lia].
Qed.

(** X1.  [SET] then [GET]: the value comes back until the time to live
    has passed; from then on [get] finds nothing and takes the record and
    its index entry away. *)
Theorem get_after_set s key value ttl_ms now now' :
  let e := match ttl_ms with Some ttl => now + ttl | None => -1 end in
  INT64_MIN ≤ e ≤ INT64_MAX →
  ∃ s1, set s key value ttl_ms now = Done (true, s1)
    ∧ (get s1 key now').1 = (if isExpired e now' then None else Some value)
    ∧ (isExpired e now' = true →
         map_ (get s1 key now').2 !! key = None
         ∧ expire_index_ (get s1 key now').2 !! key = None).
Proof.
  intros e He. unfold set.
  assert (match ttl_ms with Some ttl => int64 (now + ttl) | None => Done (-1) end = Done e)
    as ->.
  { subst e. destruct ttl_ms; [by apply int64_ok|done]. }
  run. eexists. split; [done|].
  unfold get, cleanupIfExpired. cbn [map_ expire_index_ fst snd].
  rewrite lookup_insert_eq. cbn [ValueRecord.expire_at_ms].
  destruct (isExpired e now') eqn:Ex; cbn [map_ expire_index_].
  - rewrite !lookup_delete_eq. done.
  - rewrite lookup_insert_eq. split; [done|]. intros; discriminate.
Qed.

Lemma get_after_set_witness :
  (INT64_MIN ≤ 100 + 50 ≤ INT64_MAX)
  ∧ ∃ s1, set empty "k" "v" (Some 50) 100 = Done (true, s1)
    ∧ (get s1 "k" 149).1 = Some "v" ∧ (get s1 "k" 150).1 = None.
Proof.
  split; [vm_compute; split; discriminate|].
  destruct (get_after_set empty "k" "v" (Some 50) 100 149) as (s1 & Hs & Hg & _).
  { vm_compute; split; discriminate. }
  exists s1. split; [exact Hs|]. split; [exact Hg|].
  vm_compute in Hs. inversion Hs; subst. vm_compute. reflexivity.
Defined.

(** X2.  [EXPIRE] then [TTL] at the same time: a negative count makes
    the record permanent, zero makes it expired at once, and a positive
    count is read back as it was given. *)
Theorem ttl_after_expire s key secs now s1 :
  0 ≤ now →
  expire s key secs now = Done (true, s1) →
  fst <$> ttl s1 key now
    = Done (if secs <? 0 then -1 else if secs =? 0 then -2 else secs).
Proof.
  intros Hnow. unfold expire.
  destruct (map_ (cleanupIfExpired s key now) !! key) as [r|]; [|discriminate].
  destruct (Z.ltb_spec secs 0) as [Hneg|Hpos].
  - intros E; inversion E; subst; clear E.
    unfold ttl, cleanupIfExpired. cbn [map_]. rewrite lookup_insert_eq.
    cbn [ValueRecord.expire_at_ms]. change (isExpired (-1) now) with false.
    cbn [map_]. rewrite lookup_insert_eq. done.
  - intros E. inv_bind E as ms Hms. inv_bind E as e He.
    apply int64_Done in Hms as [-> Hms]. apply int64_Done in He as [-> He].
    inversion E; subst; clear E.
    unfold ttl, cleanupIfExpired. cbn [map_]. rewrite lookup_insert_eq.
    cbn [ValueRecord.expire_at_ms]. unfold isExpired.
    destruct (Z.eqb_spec secs 0) as [->|Hnz].
    + assert ((now + 0 * 1000 >=? 0) && (now >=? now + 0 * 1000) = true) as ->.
      { apply andb_true_iff. rewrite !Z.geb_leb. split; apply Z.leb_le; lia. }
      cbn [map_]. by rewrite lookup_delete_eq.
    + assert ((now + secs * 1000 >=? 0) && (now >=? now + secs * 1000) = false) as ->.
      { apply andb_false_iff. right. rewrite Z.geb_leb. apply Z.leb_gt. lia. }
      cbn [map_]. rewrite lookup_insert_eq. cbn [ValueRecord.expire_at_ms].
      assert ((now + secs * 1000 <? 0) = false) as -> by (apply Z.ltb_ge; lia).
      replace (now + secs * 1000 - now) with (secs * 1000) by lia.
      rewrite int64_ok by lia. run.
      assert ((secs * 1000 <=? 0) = false) as -> by (apply Z.leb_gt; lia).
      by rewrite Z.quot_mul.
Qed.

Lemma ttl_after_expire_witness :
  ∃ s0 s1, set empty "k" "v" None 5 = Done (true, s0)
    ∧ 0 ≤ 5
    ∧ expire s0 "k" 7 5 = Done (true, s1)
    ∧ fst <$> ttl s1 "k" 5 = Done 7.
Proof.
  eexists _, _. split; [vm_compute; reflexivity|]. split; [lia|].
  assert (expire (mk {[ "k" := ValueRecord.mk "v" (-1) ]} ∅ ∅ ∅) "k" 7 5
          = Done (true, mk {[ "k" := ValueRecord.mk "v" 7005 ]} ∅ ∅ {[ "k" := 7005 ]})) as He
    by (vm_compute; reflexivity).
  split; [vm_compute; reflexivity|].
  exact (ttl_after_expire _ "k" 7 5 _ ltac:(lia) He).
Defined.

End ScalarFacts.
(** ** The expiry index under the scalar commands *)

Section IndexFacts.
Import KeyValueStore.

(** The index is exact for the scalar records: a name has an entry exactly
    when its scalar record has an expiry time, and the entry is that time. *)
Definition scalar_indexed (s : t) : Prop :=
  ∀ k, expire_index_ s !! k
       = r ← map_ s !! k;
         if ValueRecord.expire_at_ms r >=? 0 then Some (ValueRecord.expire_at_ms r) else None.

(** The commands on scalar records, and the periodic scan. *)
Inductive scalar_cmd :=
| CSet (key value : string) (ttl_ms : option Z)
| CGet (key : string)
| CDel (keys : list string)
| CExists (key : string)
| CExpire (key : string) (ttl_seconds : Z)
| CTtl (key : string)
| CScan (max_steps : Z) (r : Z).

(** The engine after the command, run at time [now]. *)
Definition run_cmd (c : scalar_cmd) (now : Z) (s : t) : outcome t :=
  match c with
  | CSet key value ttl_ms => snd <$> set s key value ttl_ms now
  | CGet key => Done (get s key now).2
  | CDel keys => snd <$> del s keys now
  | CExists key => Done (exists_ s key now).2
  | CExpire key secs => snd <$> expire s key secs now
  | CTtl key => snd <$> ttl s key now
  | CScan max_steps r => Done (expireScanStep s max_steps now r).2
  end.

Fixpoint run_cmds (cs : list (scalar_cmd * Z)) (s : t) : outcome t :=
  match cs with
  | [] => Done s
  | (c, now) :: cs' => s' ← run_cmd c now s; run_cmds cs' s'
  end.

Lemma fmap_Done {A B} (f : A → B) (m : outcome A) (b : B) :
  f <$> m = Done b → ∃ a, m = Done a ∧ b = f a.
Proof. destruct m; simpl; intros E; inversion E; eauto. Qed.

Lemma scalar_indexed_cleanup s key now :
  scalar_indexed s → scalar_indexed (cleanupIfExpired s key now).
Proof.
  intros Hs k. unfold cleanupIfExpired.
  destruct (map_ s !! key) as [r|] eqn:E; [|apply Hs].
  destruct (isExpired _ _); [|apply Hs]. cbn [map_ expire_index_].
  destruct (decide (k = key)) as [->|Hne].
  - by rewrite !lookup_delete_eq.
  - rewrite !lookup_delete_ne by done. apply Hs.
Qed.

Lemma scalar_indexed_put s key value e :
  scalar_indexed s →
  scalar_indexed (mk (<[key := ValueRecord.mk value e]> (map_ s)) (hmap_ s) (zmap_ s)
                     (index_update key e (expire_index_ s))).
Proof.
  intros Hs k. cbn [map_ expire_index_]. unfold index_update.
  destruct (decide (k = key)) as [->|Hne].
  - rewrite lookup_insert_eq. cbn. destruct (e >=? 0).
    + by rewrite lookup_insert_eq.
    + by rewrite lookup_delete_eq.
  - rewrite lookup_insert_ne by done.
    destruct (e >=? 0); [rewrite lookup_insert_ne by done|rewrite lookup_delete_ne by done];
      apply Hs.
Qed.

Lemma scalar_indexed_drop s key :
  scalar_indexed s →
  scalar_indexed (mk (delete key (map_ s)) (hmap_ s) (zmap_ s) (delete key (expire_index_ s))).
Proof.
  intros Hs k. cbn [map_ expire_index_].
  destruct (decide (k = key)) as [->|Hne].
  - by rewrite !lookup_delete_eq.
  - rewrite !lookup_delete_ne by done. apply Hs.
Qed.

Lemma scalar_indexed_del ks : ∀ s now removed r s',
  scalar_indexed s → del_loop ks s now removed = Done (r, s') → scalar_indexed s'.
Proof.
  induction ks as [|k ks IH]; intros s now removed r s' Hs Hrun.
  - inversion Hrun; by subst.
  - cbn [del_loop] in Hrun. cbv zeta in Hrun.
    pose proof (scalar_indexed_cleanup s k now Hs) as Hs1.
    destruct (map_ (cleanupIfExpired s k now) !! k).
    + inv_bind Hrun as removed' Hr.
      eapply IH; [|exact Hrun]. by apply scalar_indexed_drop.
    + by eapply IH.
Qed.

(** The entries the scan is still to meet are entries of the index, each
    name once. *)
Definition scan_order (order : list (string * Z)) (s : t) : Prop :=
  NoDup order.*1 ∧ ∀ k w, (k, w) ∈ order → expire_index_ s !! k = Some w.

Lemma scan_order_drop order it key when s :
  scan_order order s → order !! it = Some (key, when) →
  scan_order (take it order ++ drop (S it) order)
    (mk (delete key (map_ s)) (delete key (hmap_ s)) (delete key (zmap_ s))
        (delete key (expire_index_ s))).
Proof.
  intros [Hnd Hin] Hit.
  pose proof (take_drop_middle _ _ _ Hit) as Hsplit.
  rewrite <- Hsplit in Hnd. rewrite fmap_app, fmap_cons in Hnd.
  apply NoDup_app in Hnd as (Hnd1 & Hdisj & Hnd2).
  apply NoDup_cons in Hnd2 as [Hkey Hnd2]. cbn [fst] in *.
  split.
  - rewrite fmap_app. apply NoDup_app. split; [done|]. split; [|done].
    intros x Hx Hx'. apply (Hdisj x Hx). by right.
  - intros k w Hkw. cbn [expire_index_].
    assert (k ≠ key) as Hne.
    { intros ->. apply elem_of_app in Hkw as [Hkw|Hkw].
      - apply (Hdisj key); [|left].
        apply list_elem_of_fmap. by exists (key, w).
      - apply Hkey. apply list_elem_of_fmap. by exists (key, w). }
    rewrite lookup_delete_ne by done. apply Hin.
    rewrite <- Hsplit. apply elem_of_app in Hkw as [Hkw|Hkw]; apply elem_of_app; [by left|].
    right. by right.
Qed.

(** What the loop of the scan does to an engine whose index is exact. *)
Lemma scan_loop_spec n : ∀ order it s now removed r s',
  scalar_indexed s → scan_order order s →
  scan_loop n order it s now removed = (r, s') →
  scalar_indexed s'
  ∧ removed ≤ r ≤ removed + Z.of_nat n
  ∧ r - removed = Z.of_nat (size (map_ s)) - Z.of_nat (size (map_ s'))
  ∧ (∀ k rec, map_ s' !! k = Some rec → map_ s !! k = Some rec)
  ∧ (∀ k rec, map_ s !! k = Some rec →
       isExpired (ValueRecord.expire_at_ms rec) now = false → map_ s' !! k = Some rec).
Proof.
  induction n as [|n IH]; intros order it s now removed r s' Hs Ho Hrun.
  { inversion Hrun; subst. repeat split; auto; lia. }
  cbn [scan_loop] in Hrun. destruct order as [|o order'] eqn:Eo.
  { inversion Hrun; subst. repeat split; auto; lia. }
  rewrite <- Eo in *. clear Eo o order'. cbv zeta in Hrun.
  set (it' := if decide (it = length order) then O else it) in *.
  destruct (order !! it') as [[key when]|] eqn:Hit.
  2:{ inversion Hrun; subst. repeat split; auto; lia. }
  destruct ((when >=? 0) && (now >=? when)) eqn:Hexp.
  - pose proof (proj2 Ho key when (list_elem_of_lookup_2 _ _ _ Hit)) as Hidx.
    pose proof (Hs key) as Hrec. rewrite Hidx in Hrec.
    destruct (map_ s !! key) as [rec|] eqn:Hmap; [|discriminate]. cbn in Hrec.
    destruct (ValueRecord.expire_at_ms rec >=? 0) eqn:Hge; [|discriminate].
    injection Hrec as Hw.
    assert (scalar_indexed (mk (delete key (map_ s)) (delete key (hmap_ s))
                               (delete key (zmap_ s)) (delete key (expire_index_ s)))) as Hs1.
    { intros k. cbn [map_ expire_index_]. destruct (decide (k = key)) as [->|Hne].
      - by rewrite !lookup_delete_eq.
      - rewrite !lookup_delete_ne by done. apply Hs. }
    destruct (IH _ _ _ _ _ _ _ Hs1 (scan_order_drop _ _ _ _ _ Ho Hit) Hrun)
      as (Hs' & Hr & Hsize & Hsub & Hlive).
    cbn [map_] in *.
    assert (size (map_ s) = S (size (delete key (map_ s)))) as Hsz.
    { rewrite <- (insert_delete_id (map_ s) key rec Hmap) at 1.
      rewrite map_size_insert_None by apply lookup_delete_eq. done. }
    split; [done|]. split; [lia|]. split; [lia|]. split.
    + intros k rec' Hk. apply Hsub in Hk. apply lookup_delete_Some in Hk. tauto.
    + intros k rec' Hk Hlv. apply Hlive; [|done].
      apply lookup_delete_Some. split; [|done].
      intros ->. rewrite Hmap in Hk. injection Hk as <-.
      unfold isExpired in Hlv. rewrite <- Hw in Hlv. congruence.
  - destruct (IH _ _ _ _ _ _ _ Hs Ho Hrun) as (Hs' & Hr & Hsize & Hsub & Hlive).
    repeat split; auto; lia.
Qed.

Lemma scan_order_start s : scan_order (map_to_list (expire_index_ s)) s.
Proof.
  split; [apply NoDup_fst_map_to_list|].
  intros k w Hkw. by apply elem_of_map_to_list in Hkw.
Qed.

Lemma scalar_indexed_scan s max_steps now r :
  scalar_indexed s → scalar_indexed (expireScanStep s max_steps now r).2.
Proof.
  intros Hs. unfold expireScanStep. destruct (_ || _); [done|].
  destruct (scan_loop _ _ _ _ _ _) as [n s'] eqn:Hrun.
  by apply scan_loop_spec in Hrun as (? & _); [| |apply scan_order_start].
Qed.

(** X3.  When the index is exact, one scan removes at most [max_steps]
    records, counts exactly the scalar records it took away, and takes
    away no record that has not expired. *)
Theorem expireScanStep_removes_only_expired s max_steps now r removed s' :
  scalar_indexed s →
  expireScanStep s max_steps now r = (removed, s') →
  0 ≤ removed ≤ Z.max 0 max_steps
  ∧ removed = Z.of_nat (size (map_ s)) - Z.of_nat (size (map_ s'))
  ∧ (∀ k rec, map_ s' !! k = Some rec → map_ s !! k = Some rec)
  ∧ (∀ k rec, map_ s !! k = Some rec →
       isExpired (ValueRecord.expire_at_ms rec) now = false → map_ s' !! k = Some rec).
Proof.
  intros Hs. unfold expireScanStep.
  destruct ((max_steps <=? 0) || bool_decide (expire_index_ s = ∅)) eqn:Hguard.
  - intros E; inversion E; subst. repeat split; auto; lia.
  - intros Hrun.
    apply scan_loop_spec in Hrun as (Hs' & Hr & Hsize & Hsub & Hlive);
      [|done|apply scan_order_start].
    apply orb_false_iff in Hguard as [Hpos _]. apply Z.leb_gt in Hpos.
    repeat split; auto; lia.
Qed.

Lemma scalar_indexed_empty : scalar_indexed empty.
Proof. intros k. cbn [empty map_ expire_index_]. by rewrite !lookup_empty. Qed.

(** A record that expires at 150 and one that never does. *)
Definition two_scalars : t :=
  mk (<["p" := ValueRecord.mk "q" (-1)]> (<["k" := ValueRecord.mk "v" 150]> ∅)) ∅ ∅
     (index_update "p" (-1) (index_update "k" 150 ∅)).

Lemma expireScanStep_removes_only_expired_witness :
  scalar_indexed two_scalars
  ∧ (expireScanStep two_scalars 3 200 7).1 = 1
  ∧ map_ (expireScanStep two_scalars 3 200 7).2 !! "p" = Some (ValueRecord.mk "q" (-1)).
Proof.
  assert (scalar_indexed two_scalars) as Hs.
  { exact (scalar_indexed_put _ "p" "q" (-1)
             (scalar_indexed_put empty "k" "v" 150 scalar_indexed_empty)). }
  split; [exact Hs|]. split; [vm_compute; reflexivity|].
  destruct (expireScanStep_removes_only_expired two_scalars 3 200 7 _ _ Hs
              (surjective_pairing _)) as (_ & _ & _ & Hlive).
  apply Hlive; vm_compute; reflexivity.
Defined.

(** X4.  Every scalar command, and the scan, keeps the index exact, the
    clock never reading below zero. *)
Theorem scalar_commands_keep_index_exact cs : ∀ s s',
  Forall (λ c, 0 ≤ c.2) cs →
  scalar_indexed s → run_cmds cs s = Done s' → scalar_indexed s'.
Proof.
  induction cs as [|[c now] cs IH]; intros s s' Hnow Hs Hrun.
  { inversion Hrun; by subst. }
  apply Forall_cons in Hnow as [Hnow Hnows]. cbn [snd] in Hnow.
  cbn [run_cmds] in Hrun. inv_bind Hrun as s1 Hc.
  eapply IH; [done| |exact Hrun]. clear Hrun IH.
  destruct c as [key value ttl_ms|key|keys|key|key secs|key|max_steps r]; cbn [run_cmd] in Hc.
  - apply fmap_Done in Hc as ([b s2] & Hc & ->). unfold set in Hc.
    inv_bind Hc as e He. inversion Hc; subst. by apply scalar_indexed_put.
  - inversion Hc; subst. by apply scalar_indexed_cleanup.
  - apply fmap_Done in Hc as ([n s2] & Hc & ->). by eapply scalar_indexed_del.
  - inversion Hc; subst. by apply scalar_indexed_cleanup.
  - apply fmap_Done in Hc as ([b s2] & Hc & ->). unfold expire in Hc.
    pose proof (scalar_indexed_cleanup s key now Hs) as Hs1.
    destruct (map_ (cleanupIfExpired s key now) !! key) as [rec|].
    + destruct (Z.ltb_spec secs 0).
      * inversion Hc; subst.
        apply (scalar_indexed_put _ key (ValueRecord.value rec) (-1) Hs1).
      * inv_bind Hc as ms Hms. inv_bind Hc as e He. apply int64_Done in He as [-> He].
        apply int64_Done in Hms as [-> Hms]. inversion Hc; subst.
        pose proof (scalar_indexed_put _ key (ValueRecord.value rec) (now + secs * 1000)
                      Hs1) as Hput.
        unfold index_update in Hput.
        assert ((now + secs * 1000 >=? 0) = true) as Hge
          by (rewrite Z.geb_leb; apply Z.leb_le; lia).
        by rewrite Hge in Hput.
    + inversion Hc; by subst.
  - apply fmap_Done in Hc as ([n s2] & Hc & ->). unfold ttl in Hc.
    pose proof (scalar_indexed_cleanup s key now Hs) as Hs1.
    destruct (map_ (cleanupIfExpired s key now) !! key) as [rec|].
    + destruct (_ <? 0); [inversion Hc; by subst|].
      inv_bind Hc as ms Hms. destruct (ms <=? 0); inversion Hc; by subst.
    + inversion Hc; by subst.
  - inversion Hc; subst. by apply scalar_indexed_scan.
Qed.

(** [SET k v PX 50] at 100, [EXPIRE k 3] at 120, [GET k] and a scan at 5000. *)
Definition scalar_run : list (scalar_cmd * Z) :=
  [(CSet "k" "v" (Some 50), 100); (CSet "p" "q" None, 110); (CExpire "k" 3, 120);
   (CGet "k", 5000); (CScan 2 0, 5000)].

Definition scalar_run_end : t :=
  match run_cmds scalar_run empty with Done s => s | _ => empty end.

Lemma scalar_commands_keep_index_exact_witness :
  Forall (λ c : scalar_cmd * Z, 0 ≤ c.2) scalar_run
  ∧ run_cmds scalar_run empty = Done scalar_run_end
  ∧ scalar_indexed scalar_run_end.
Proof.
  assert (Forall (λ c : scalar_cmd * Z, 0 ≤ c.2) scalar_run) as Hnow.
  { repeat constructor; cbn; lia. }
  assert (run_cmds scalar_run empty = Done scalar_run_end) as Hrun
    by (vm_compute; reflexivity).
  split; [exact Hnow|]. split; [exact Hrun|].
  exact (scalar_commands_keep_index_exact scalar_run empty scalar_run_end Hnow
           scalar_indexed_empty Hrun).
Defined.

End IndexFacts.

(** ** Field maps *)

Section HashFacts.
Import KeyValueStore.

(** The fields under [key] as a reader at [now] finds them. *)
Definition live_fields (s : t) (key : string) (now : Z) : gmap string string :=
  match hmap_ s !! key with
  | Some rec =>
      if isExpired (HashRecord.expire_at_ms rec) now then ∅ else HashRecord.fields rec
  | None => ∅
  end.

Lemma cleanupIfExpiredHash_lookup s key now :
  hmap_ (cleanupIfExpiredHash s key now) !! key
  = rec ← hmap_ s !! key;
    if isExpired (HashRecord.expire_at_ms rec) now then None else Some rec.
Proof.
  unfold cleanupIfExpiredHash. destruct (hmap_ s !! key) as [rec|] eqn:E; cbn; [|done].
  destruct (isExpired _ _); cbn [hmap_]; [apply lookup_delete_eq|done].
Qed.

Lemma cleanupIfExpiredHash_lookup_ne s key key' now :
  key ≠ key' → hmap_ (cleanupIfExpiredHash s key now) !! key' = hmap_ s !! key'.
Proof.
  intros Hne. unfold cleanupIfExpiredHash.
  destruct (hmap_ s !! key); [destruct isExpired|]; cbn [hmap_]; try done.
  by rewrite lookup_delete_ne.
Qed.

Lemma live_fields_cleanup s key now :
  live_fields s key now
  = default ∅ (HashRecord.fields <$> hmap_ (cleanupIfExpiredHash s key now) !! key).
Proof.
  rewrite cleanupIfExpiredHash_lookup. unfold live_fields.
  destruct (hmap_ s !! key) as [rec|]; cbn; [|done]. by destruct (isExpired _ _).
Qed.

Lemma hget_live s key field now : (hget s key field now).1 = live_fields s key now !! field.
Proof.
  rewrite live_fields_cleanup. unfold hget. cbn [fst].
  destruct (hmap_ (cleanupIfExpiredHash s key now) !! key); cbn; [done|].
  by rewrite lookup_empty.
Qed.

Lemma isExpired_never now : isExpired (-1) now = false.
Proof. reflexivity. Qed.

(** The record that [hmap_[key]] refers to after the lazy step has not
    expired. *)
Lemma hset_record_live s key now :
  isExpired (HashRecord.expire_at_ms
               (default HashRecord.fresh (hmap_ (cleanupIfExpiredHash s key now) !! key))) now
  = false.
Proof.
  rewrite cleanupIfExpiredHash_lookup.
  destruct (hmap_ s !! key) as [rec|]; cbn; [|done].
  by destruct (isExpired (HashRecord.expire_at_ms rec) now) eqn:E.
Qed.

Lemma live_fields_hset s key field value now :
  live_fields (hset s key field value now).2 key now
  = <[field := value]> (live_fields s key now).
Proof.
  pose proof (hset_record_live s key now) as Hlive.
  rewrite (live_fields_cleanup s). unfold hset. cbv zeta.
  set (s1 := cleanupIfExpiredHash s key now) in *.
  set (rec := default HashRecord.fresh (hmap_ s1 !! key)) in *.
  assert (HashRecord.fields rec = default ∅ (HashRecord.fields <$> hmap_ s1 !! key)) as <-.
  { subst rec. by destruct (hmap_ s1 !! key). }
  destruct (HashRecord.fields rec !! field); cbn [snd]; unfold live_fields, with_hmap;
    cbn [hmap_]; rewrite lookup_insert_eq; cbn [HashRecord.expire_at_ms HashRecord.fields];
    by rewrite Hlive.
Qed.

(** X5.  [HSET] then [HGET]: the field reads back the value, every
    other field of the key reads as before, and the result is 1 for a new
    field and 0 for one that was there. *)
Theorem hget_after_hset s key field value now f :
  (hget (hset s key field value now).2 key f now).1
  = (if decide (f = field) then Some value else (hget s key f now).1)
  ∧ (hset s key field value now).1
    = match (hget s key field now).1 with Some _ => 0 | None => 1 end.
Proof.
  split.
  - rewrite !hget_live, live_fields_hset. destruct (decide (f = field)) as [->|Hne].
    + apply lookup_insert_eq.
    + by rewrite lookup_insert_ne.
  - rewrite hget_live, live_fields_cleanup. unfold hset. cbv zeta.
    set (s1 := cleanupIfExpiredHash s key now).
    destruct (hmap_ s1 !! key) as [rec|]; cbn.
    + by destruct (HashRecord.fields rec !! field).
    + by rewrite lookup_empty.
Qed.

(** What the loop of [hdel] does, for any count it starts from. *)
Lemma hdel_loop_spec fs : ∀ fields removed,
  0 ≤ removed → removed + Z.of_nat (length fs) ≤ INT_MAX →
  ∃ fields',
    hdel_loop fs fields removed
      = Done (removed + Z.of_nat (size (dom fields ∩ list_to_set fs)), fields')
    ∧ ∀ f, fields' !! f = if decide (f ∈ fs) then None else fields !! f.
Proof.
  induction fs as [|f0 fs IH]; intros fields removed H0 Hmax.
  - exists fields. cbn [hdel_loop list_to_set]. rewrite intersection_empty_r_L, size_empty.
    rewrite Z.add_0_r. split; [done|]. intros f. destruct (decide _) as [Hin|]; [|done].
    by apply elem_of_nil in Hin.
  - cbn [hdel_loop length] in *. destruct (fields !! f0) as [v|] eqn:E.
    + unfold int32.
      replace ((- 2 ^ 31 <=? removed + 1) && (removed + 1 <=? INT_MAX)) with true
        by (symmetry; apply andb_true_iff; unfold INT_MAX in *; lia).
      run.
      destruct (IH (delete f0 fields) (removed + 1)) as (fields' & Hrun & Hf); [lia|lia|].
      exists fields'. rewrite Hrun. split.
      * assert (Z.of_nat (size (dom fields ∩ list_to_set (f0 :: fs)))
                = 1 + Z.of_nat (size (dom (delete f0 fields) ∩ list_to_set fs))) as ->.
        { rewrite list_to_set_cons, dom_delete_L.
          assert (f0 ∈ dom fields) as Hin by (apply elem_of_dom; eauto).
          assert (dom fields ∩ ({[f0]} ∪ list_to_set fs)
                  = {[f0]} ∪ (dom fields ∖ {[f0]}) ∩ list_to_set fs) as ->.
          { apply set_eq. intros k'. destruct (decide (k' = f0)) as [->|]; set_solver. }
          assert (({[f0]} : gset string) ## (dom fields ∖ {[f0]}) ∩ list_to_set fs)
            as Hdisj by set_solver.
          rewrite (size_union _ _ Hdisj), size_singleton. lia. }
        f_equal. f_equal. lia.
      * intros f. rewrite Hf.
        destruct (decide (f ∈ fs)) as [Hin|Hnin], (decide (f ∈ f0 :: fs)) as [Hin'|Hnin'];
          try done.
        -- exfalso. apply Hnin'. by right.
        -- apply elem_of_cons in Hin' as [->|?]; [apply lookup_delete_eq|done].
        -- apply lookup_delete_ne. intros ->. apply Hnin'. by left.
    + destruct (IH fields removed) as (fields' & Hrun & Hf); [lia|lia|].
      exists fields'. rewrite Hrun.
      assert (f0 ∉ dom fields) as Hnin by (by apply not_elem_of_dom).
      assert (dom fields ∩ list_to_set (f0 :: fs) = dom fields ∩ list_to_set fs) as ->.
      { rewrite list_to_set_cons. set_solver. }
      split; [done|]. intros f. rewrite Hf.
      destruct (decide (f ∈ fs)) as [Hin|Hnin1], (decide (f ∈ f0 :: fs)) as [Hin'|Hnin'];
        try done.
      * exfalso. apply Hnin'. by right.
      * apply elem_of_cons in Hin' as [->|?]; [done|done].
Qed.

(** X6.  [HDEL] returns the number of different listed fields the key
    held; afterwards the listed fields are absent and the others read as
    before. *)
Theorem hdel_removes_listed_fields s key fs now :
  Z.of_nat (length fs) ≤ INT_MAX →
  ∃ s',
    hdel s key fs now
      = Done (Z.of_nat (size (dom (live_fields s key now) ∩ list_to_set fs)), s')
    ∧ ∀ f, (hget s' key f now).1
           = if decide (f ∈ fs) then None else (hget s key f now).1.
Proof.
  intros Hmax. pose proof (hset_record_live s key now) as Hlive.
  assert (∀ f, (hget s key f now).1 = live_fields s key now !! f) as Hget
    by (intros; apply hget_live).
  rewrite live_fields_cleanup in *. unfold hdel.
  set (s1 := cleanupIfExpiredHash s key now) in *.
  destruct (hmap_ s1 !! key) as [rec|] eqn:E; cbn [default fmap option_fmap option_map] in *;
    unfold id in *.
  - destruct (hdel_loop_spec fs (HashRecord.fields rec) 0) as (fields' & Hrun & Hf);
      [lia|lia|].
    rewrite Hrun, Z.add_0_l. run.
    assert (∀ s2 : t, hmap_ s2 !! key
              = (if bool_decide (fields' = ∅) then None
                 else Some (HashRecord.mk fields' (HashRecord.expire_at_ms rec))) →
            ∀ f, (hget s2 key f now).1
                 = if decide (f ∈ fs) then None else (hget s key f now).1) as Hfin.
    { intros s2 Hs2 f. rewrite hget_live, Hget, <- Hf. unfold live_fields. rewrite Hs2.
      case_bool_decide as Hemp; [by rewrite Hemp, lookup_empty|].
      cbn [HashRecord.expire_at_ms HashRecord.fields]. by rewrite Hlive. }
    case_bool_decide as Hemp; eexists; (split; [done|]); apply Hfin; unfold with_hmap;
      cbn [hmap_].
    + apply lookup_delete_eq.
    + apply lookup_insert_eq.
  - exists s1. rewrite dom_empty_L, intersection_empty_l_L, size_empty. split; [done|].
    intros f. rewrite Hget, lookup_empty.
    assert ((hget s1 key f now).1 = None) as ->; [|by destruct (decide _)].
    rewrite hget_live. unfold live_fields. by rewrite E.
Qed.

Lemma hdel_removes_listed_fields_witness :
  Z.of_nat (length ["a"; "c"; "a"]) ≤ INT_MAX
  ∧ ∃ s',
      hdel (hset (hset empty "h" "a" "1" 0).2 "h" "b" "2" 0).2 "h" ["a"; "c"; "a"] 0
        = Done (1, s')
      ∧ (hget s' "h" "a" 0).1 = None
      ∧ (hget s' "h" "b" 0).1 = Some "2".
Proof.
  assert (Z.of_nat (length ["a"; "c"; "a"]) ≤ INT_MAX) as Hmax
    by (vm_compute; discriminate).
  split; [exact Hmax|].
  destruct (hdel_removes_listed_fields (hset (hset empty "h" "a" "1" 0).2 "h" "b" "2" 0).2
              "h" ["a"; "c"; "a"] 0 Hmax) as (s' & Hrun & Hf).
  exists s'. split.
  - rewrite Hrun. vm_compute. reflexivity.
  - split.
    + rewrite (Hf "a"). reflexivity.
    + rewrite (Hf "b"). vm_compute. reflexivity.
Defined.

(** ** [HGETALL] *)

Lemma flat_pairs_even l : ∀ i, flat_pairs l !! (2 * i)%nat = fst <$> l !! i.
Proof.
  induction l as [|kv l IH]; intros i; [done|].
  destruct i as [|i]; [done|].
  replace (2 * S i)%nat with (S (S (2 * i))) by lia. apply IH.
Qed.

Lemma flat_pairs_odd l : ∀ i, flat_pairs l !! (2 * i + 1)%nat = snd <$> l !! i.
Proof.
  induction l as [|kv l IH]; intros i; [done|].
  destruct i as [|i]; [done|].
  replace (2 * S i + 1)%nat with (S (S (2 * i + 1))) by lia. apply IH.
Qed.

Lemma flat_pairs_length l : length (flat_pairs l) = (2 * length l)%nat.
Proof.
  induction l as [|kv l IH]; [done|].
  change (flat_pairs (kv :: l)) with (kv.1 :: kv.2 :: flat_pairs l). cbn [length]. lia.
Qed.

(** X7.  [HGETALL] agrees with [HGET] and [HLEN]: a field reads a value
    exactly when the two stand next to each other at an even position of
    the flat list, and the list is twice as long as the count [hlen] gives
    (for fewer than 2^31 fields). *)
Theorem hgetallFlat_lists_every_field s key now :
  (∀ f v, (hget s key f now).1 = Some v ↔
          ∃ i, (hgetallFlat s key now).1 !! (2 * i)%nat = Some f
               ∧ (hgetallFlat s key now).1 !! (2 * i + 1)%nat = Some v)
  ∧ (Z.of_nat (size (live_fields s key now)) ≤ INT_MAX →
     Z.of_nat (length (hgetallFlat s key now).1) = 2 * (hlen s key now).1).
Proof.
  assert (∀ f, (hget s key f now).1 = live_fields s key now !! f) as Hget
    by (intros; apply hget_live).
  rewrite live_fields_cleanup in *. unfold hgetallFlat, hlen. cbn [fst].
  set (s1 := cleanupIfExpiredHash s key now) in *.
  destruct (hmap_ s1 !! key) as [rec|]; cbn [default fmap option_fmap option_map] in *;
    unfold id in *.
  - split.
    + intros f v. rewrite Hget, <- elem_of_map_to_list, list_elem_of_lookup.
      setoid_rewrite flat_pairs_even. setoid_rewrite flat_pairs_odd.
      split; intros [i Hi]; exists i.
      * by rewrite Hi.
      * destruct (map_to_list (HashRecord.fields rec) !! i) as [[f' v']|]; cbn in *;
          [|by destruct Hi]. destruct Hi as [Hf Hv]. congruence.
    + intros Hsz. rewrite flat_pairs_length, length_map_to_list. unfold to_int.
      rewrite Z.mod_small by (unfold INT_MAX in *; lia).
      assert ((Z.of_nat (size (HashRecord.fields rec)) <=? INT_MAX) = true) as ->
        by (by apply Z.leb_le).
      lia.
  - split; [|done]. intros f v. rewrite Hget, lookup_empty. split; [done|].
    by intros (i & Hi & _).
Qed.

End HashFacts.

(** ** Scores of an ordered set *)

Section ScoreFacts.
Import KeyValueStore.

(** The scores under [key] as a reader at [now] finds them. *)
Definition live_scores (s : t) (key : string) (now : Z) : gmap string float :=
  match zmap_ s !! key with
  | Some rec =>
      if isExpired (ZSetRecord.expire_at_ms rec) now then ∅
      else ZSetRecord.member_to_score rec
  | None => ∅
  end.

Lemma cleanupIfExpiredZSet_lookup s key now :
  zmap_ (cleanupIfExpiredZSet s key now) !! key
  = rec ← zmap_ s !! key;
    if isExpired (ZSetRecord.expire_at_ms rec) now then None else Some rec.
Proof.
  unfold cleanupIfExpiredZSet. destruct (zmap_ s !! key) as [rec|] eqn:E; cbn; [|done].
  destruct (isExpired _ _); cbn [zmap_]; [apply lookup_delete_eq|done].
Qed.

Lemma live_scores_cleanup s key now :
  live_scores s key now
  = default ∅ (ZSetRecord.member_to_score <$> zmap_ (cleanupIfExpiredZSet s key now) !! key).
Proof.
  rewrite cleanupIfExpiredZSet_lookup. unfold live_scores.
  destruct (zmap_ s !! key) as [rec|]; cbn; [|done]. by destruct (isExpired _ _).
Qed.

Lemma zscore_live s key m now : (zscore s key m now).1 = live_scores s key now !! m.
Proof.
  rewrite live_scores_cleanup. unfold zscore. cbn [fst].
  destruct (zmap_ (cleanupIfExpiredZSet s key now) !! key); cbn; [done|].
  by rewrite lookup_empty.
Qed.

(** The record that [zmap_[key]] refers to after the lazy step has not
    expired. *)
Lemma zadd_record_live s key now :
  isExpired (ZSetRecord.expire_at_ms
               (default ZSetRecord.fresh (zmap_ (cleanupIfExpiredZSet s key now) !! key))) now
  = false.
Proof.
  rewrite cleanupIfExpiredZSet_lookup.
  destruct (zmap_ s !! key) as [rec|]; cbn; [|done].
  by destruct (isExpired (ZSetRecord.expire_at_ms rec) now) eqn:E.
Qed.

Lemma place_scores rec vec g rec' g' :
  place rec vec g = Done (rec', g') →
  ZSetRecord.member_to_score rec' = ZSetRecord.member_to_score rec
  ∧ ZSetRecord.expire_at_ms rec' = ZSetRecord.expire_at_ms rec.
Proof.
  unfold place. destruct (_ >? _); intros H.
  - inv_bind H as [sl g1] Hi. inversion H; by subst.
  - inversion H; by subst.
Qed.

(** The score [zadd] leaves under the member: the old one when it equals
    the new one as a [double], else the new one. *)
Definition written (old : option float) (sc : float) : float :=
  match old with
  | Some o => if PrimFloat.eqb o sc then o else sc
  | None => sc
  end.

Lemma zadd_rec_scores rec sc m g r rec' g' :
  zadd_rec rec sc m g = Done (r, rec', g') →
  ZSetRecord.member_to_score rec'
    = <[m := written (ZSetRecord.member_to_score rec !! m) sc]> (ZSetRecord.member_to_score rec)
  ∧ ZSetRecord.expire_at_ms rec' = ZSetRecord.expire_at_ms rec
  ∧ r = match ZSetRecord.member_to_score rec !! m with Some _ => 0 | None => 1 end.
Proof.
  unfold zadd_rec. intros H.
  destruct (ZSetRecord.member_to_score rec !! m) as [old|] eqn:E; cbn [written].
  - destruct (PrimFloat.eqb old sc).
    { inversion H; subst. by rewrite insert_id. }
    inv_bind H as [rec1 g1] H1. inversion H; subst; clear H.
    cbn [with_scores ZSetRecord.member_to_score ZSetRecord.expire_at_ms].
    destruct (negb (ZSetRecord.use_skiplist rec)).
    + apply place_scores in H1 as [-> ->]. done.
    + destruct (ZSetRecord.sl rec) as [sl|]; [|discriminate].
      inv_bind H1 as [b sl1] He. inv_bind H1 as [[b2 sl2] g2] Hi. inversion H1; by subst.
  - inv_bind H as [rec1 g1] H1. inversion H; subst; clear H.
    cbn [with_scores ZSetRecord.member_to_score ZSetRecord.expire_at_ms].
    destruct (negb (ZSetRecord.use_skiplist rec)).
    + apply place_scores in H1 as [-> ->]. done.
    + destruct (ZSetRecord.sl rec) as [sl|]; [|discriminate].
      inv_bind H1 as [[b2 sl2] g2] Hi. inversion H1; by subst.
Qed.

(** X8.  [ZADD] then [ZSCORE]: when [zadd] returns, the member has the
    new score (or keeps an old score equal to it), every other member of
    the key reads as before, and the result is 1 for a new member and 0
    for one that was there. *)
Theorem zscore_after_zadd s key sc m now g r s' g' :
  zadd s key sc m now g = Done (r, s', g') →
  (∀ m', (zscore s' key m' now).1
         = if decide (m' = m) then Some (written (zscore s key m now).1 sc)
           else (zscore s key m' now).1)
  ∧ r = match (zscore s key m now).1 with Some _ => 0 | None => 1 end.
Proof.
  intros Hrun. pose proof (zadd_record_live s key now) as Hlive.
  assert (∀ m', (zscore s key m' now).1 = live_scores s key now !! m') as Hget
    by (intros; apply zscore_live).
  rewrite live_scores_cleanup in Hget. unfold zadd in Hrun.
  set (s1 := cleanupIfExpiredZSet s key now) in *.
  set (rec := default ZSetRecord.fresh (zmap_ s1 !! key)) in *.
  assert (∀ m', (zscore s key m' now).1 = ZSetRecord.member_to_score rec !! m') as Hget'.
  { intros m'. rewrite Hget. subst rec. destruct (zmap_ s1 !! key); cbn; [done|].
    by rewrite lookup_empty. }
  inv_bind Hrun as [[r' rec'] g''] Hr. inversion Hrun; subst; clear Hrun.
  apply zadd_rec_scores in Hr as (Hm2s & Hexp & ->).
  split; [|by rewrite Hget'].
  intros m'. rewrite zscore_live. unfold live_scores, with_zmap. cbn [zmap_].
  rewrite lookup_insert_eq, Hexp, Hlive, Hm2s, !Hget'.
  destruct (decide (m' = m)) as [->|Hne].
  - apply lookup_insert_eq.
  - by rewrite lookup_insert_ne.
Qed.

Lemma zscore_after_zadd_witness :
  ∃ s' g', zadd empty "z" 1.5 "a" 0 draws_high = Done (1, s', g')
    ∧ (zscore s' "z" "a" 0).1 = Some 1.5%float
    ∧ (zscore s' "z" "b" 0).1 = None.
Proof.
  assert (∃ s' g', zadd empty "z" 1.5 "a" 0 draws_high = Done (1, s', g')) as (s' & g' & Hrun).
  { eexists _, _. vm_compute. reflexivity. }
  exists s', g'. split; [exact Hrun|].
  destruct (zscore_after_zadd _ _ _ _ _ _ _ _ _ Hrun) as [Hs _].
  split; [rewrite (Hs "a")|rewrite (Hs "b")]; vm_compute; reflexivity.
Defined.

(** What the loop of [zrem] does to the scores. *)
Lemma zrem_loop_scores ms : ∀ rec removed n rec',
  zrem_loop ms rec removed = Done (n, rec') →
  ZSetRecord.expire_at_ms rec' = ZSetRecord.expire_at_ms rec
  ∧ ∀ m, ZSetRecord.member_to_score rec' !! m
         = if decide (m ∈ ms) then None else ZSetRecord.member_to_score rec !! m.
Proof.
  induction ms as [|m0 ms IH]; intros rec removed n rec' H; cbn [zrem_loop] in H.
  { inversion H; subst. split; [done|]. intros m. destruct (decide _) as [Hin|]; [|done].
    by apply elem_of_nil in Hin. }
  assert (∀ rec1 : ZSetRecord.t,
            ZSetRecord.expire_at_ms rec1 = ZSetRecord.expire_at_ms rec →
            (∀ m, m ≠ m0 → ZSetRecord.member_to_score rec1 !! m
                           = ZSetRecord.member_to_score rec !! m) →
            ZSetRecord.member_to_score rec1 !! m0 = None →
            ∀ removed', zrem_loop ms rec1 removed' = Done (n, rec') →
            ZSetRecord.expire_at_ms rec' = ZSetRecord.expire_at_ms rec
            ∧ ∀ m, ZSetRecord.member_to_score rec' !! m
                   = if decide (m ∈ m0 :: ms) then None
                     else ZSetRecord.member_to_score rec !! m) as Hstep.
  { intros rec1 Hexp Hother Hgone removed' Hrun.
    apply IH in Hrun as [Hexp' Hm]. split; [congruence|].
    intros m. rewrite Hm.
    destruct (decide (m ∈ ms)) as [Hin|Hnin], (decide (m ∈ m0 :: ms)) as [Hin'|Hnin'];
      try done.
    - exfalso. apply Hnin'. by right.
    - apply elem_of_cons in Hin' as [->|?]; [done|done].
    - apply Hother. intros ->. apply Hnin'. by left. }
  destruct (ZSetRecord.member_to_score rec !! m0) as [sc|] eqn:E.
  - cbn [with_scores ZSetRecord.use_skiplist ZSetRecord.items ZSetRecord.sl] in H.
    destruct (negb (ZSetRecord.use_skiplist rec)).
    + destruct (erase_first _ sc m0) as [hit vec].
      inv_bind H as removed' Hr. eapply Hstep; [| | |exact H]; cbn; try done.
      * intros m Hne. by rewrite lookup_delete_ne.
      * apply lookup_delete_eq.
    + destruct (ZSetRecord.sl rec) as [sl|]; [|discriminate].
      inv_bind H as [hit sl'] He. inv_bind H as removed' Hr.
      eapply Hstep; [| | |exact H]; cbn; try done.
      * intros m Hne. by rewrite lookup_delete_ne.
      * apply lookup_delete_eq.
  - by eapply Hstep.
Qed.

(** X9.  [ZREM] then [ZSCORE]: when [zrem] returns, the listed members
    have no score; the other members of the key read as before if the key
    is still there, and have no score if [zrem] took the key away. *)
Theorem zscore_after_zrem s key ms now n s' :
  zrem s key ms now = Done (n, s') →
  ∀ m, (zscore s' key m now).1
       = if decide (m ∈ ms) then None
         else match zmap_ s' !! key with
              | Some _ => (zscore s key m now).1
              | None => None
              end.
Proof.
  intros Hrun m. pose proof (zadd_record_live s key now) as Hlive.
  rewrite (zscore_live s), live_scores_cleanup. unfold zrem in Hrun.
  set (s1 := cleanupIfExpiredZSet s key now) in *.
  destruct (zmap_ s1 !! key) as [rec|] eqn:E;
    cbn [default fmap option_fmap option_map] in Hlive |- *; unfold id in *.
  - inv_bind Hrun as [removed rec'] Hl. apply zrem_loop_scores in Hl as [Hexp Hm].
    inv_bind Hrun as gone Hg.
    rewrite zscore_live. unfold live_scores.
    destruct gone; inversion Hrun; subst; clear Hrun; unfold with_zmap; cbn [zmap_].
    + rewrite lookup_delete_eq, lookup_empty. by destruct (decide _).
    + by rewrite lookup_insert_eq, Hexp, Hlive, Hm.
  - inversion Hrun; subst; clear Hrun. rewrite lookup_empty.
    assert ((zscore s1 key m now).1 = None) as ->.
    { rewrite zscore_live. unfold live_scores. by rewrite E. }
    destruct (decide _); [done|]. by destruct (zmap_ s1 !! key).
Qed.

Lemma zscore_after_zrem_witness :
  ∃ s0 g0 s1 g1 s',
    zadd empty "z" 1.5 "a" 0 draws_high = Done (1, s0, g0)
    ∧ zadd s0 "z" 2.5 "b" 0 g0 = Done (1, s1, g1)
    ∧ zrem s1 "z" ["a"; "c"] 0 = Done (1, s')
    ∧ (zscore s' "z" "a" 0).1 = None
    ∧ (zscore s' "z" "b" 0).1 = Some 2.5%float.
Proof.
  assert (∃ s0 g0 s1 g1 s',
    zadd empty "z" 1.5 "a" 0 draws_high = Done (1, s0, g0)
    ∧ zadd s0 "z" 2.5 "b" 0 g0 = Done (1, s1, g1)
    ∧ zrem s1 "z" ["a"; "c"] 0 = Done (1, s')) as (s0 & g0 & s1 & g1 & s' & H0 & H1 & Hrun).
  { eexists _, _, _, _, _.
    split; [vm_compute; reflexivity|]. split; [vm_compute; reflexivity|].
    vm_compute. reflexivity. }
  exists s0, g0, s1, g1, s'. split; [exact H0|]. split; [exact H1|]. split; [exact Hrun|].
  pose proof (zscore_after_zrem _ _ _ _ _ _ Hrun) as Hs.
  vm_compute in H0. injection H0 as <- <-.
  vm_compute in H1. injection H1 as <- <-.
  split; [rewrite (Hs "a")|rewrite (Hs "b")].
  - reflexivity.
  - vm_compute in Hrun. injection Hrun as <-. vm_compute. reflexivity.
Defined.

End ScoreFacts.

(** ** Ranges of an ordered set *)

Section RangeFacts.
Import KeyValueStore.

Lemma push_range_spec n : ∀ vec b out,
  0 ≤ b → b + Z.of_nat n ≤ Z.of_nat (length vec) → Z.of_nat (length vec) ≤ INT64_MAX →
  push_range n vec b out = Done (out ++ (take n (drop (Z.to_nat b) vec)).*2).
Proof.
  induction n as [|n IH]; intros vec b out Hb Hn Hmax.
  { cbn [push_range take fmap list_fmap]. by rewrite app_nil_r. }
  cbn [push_range].
  rewrite Z.mod_small by (unfold INT64_MAX, SIZE_MOD in *; lia).
  destruct (lookup_lt_is_Some_2 vec (Z.to_nat b)) as [e He]; [lia|].
  unfold at_. rewrite He. run.
  rewrite IH by lia.
  rewrite (drop_S _ _ _ He). cbn [take fmap list_fmap].
  replace (Z.to_nat (b + 1)) with (S (Z.to_nat b)) by lia.
  by rewrite <- app_assoc.
Qed.

(** The record holds the sequence [l]: as its vector, or on the bottom
    level of its skiplist. *)
Definition holds (rec : ZSetRecord.t) (l : list (float * string)) : Prop :=
  if ZSetRecord.use_skiplist rec
  then ∃ sl ns, ZSetRecord.sl rec = Some sl ∧ one_level sl ns l
  else ZSetRecord.items rec = l.

(** [zrange] on a record kept as a vector. *)
Lemma zrange_vector s key start stop now rec :
  zmap_ s !! key = Some rec →
  isExpired (ZSetRecord.expire_at_ms rec) now = false →
  ZSetRecord.use_skiplist rec = false →
  Z.of_nat (length (ZSetRecord.items rec)) ≤ INT64_MAX →
  zrange s key start stop now = Done (ranks (ZSetRecord.items rec) start stop, s).
Proof.
  intros Hrec Hlive Hm Hmax. unfold zrange.
  assert (cleanupIfExpiredZSet s key now = s) as ->.
  { unfold cleanupIfExpiredZSet. by rewrite Hrec, Hlive. }
  rewrite Hrec, Hm. cbn [negb]. unfold ranks. rewrite to_int64_small by lia.
  set (n := Z.of_nat (length (ZSetRecord.items rec))) in *.
  destruct (n =? 0) eqn:Hz; [done|].
  pose proof (norm_range n start) as Hs. pose proof (norm_range n stop) as He.
  destruct (Skiplist.norm n start >? Skiplist.norm n stop) eqn:Hse; [done|].
  rewrite push_range_spec by lia. by run.
Qed.

(** X10.  [ZRANGE] lists the members at the normalised ranks
    [start .. stop] of the sequence the record holds, in either mode, and
    leaves the engine as it was. *)
Theorem zrange_lists_ranks s key start stop now rec l :
  zmap_ s !! key = Some rec →
  isExpired (ZSetRecord.expire_at_ms rec) now = false →
  holds rec l → Z.of_nat (length l) ≤ INT64_MAX →
  zrange s key start stop now = Done (ranks l start stop, s).
Proof.
  intros Hrec Hlive Hl Hmax. unfold holds in Hl.
  destruct (ZSetRecord.use_skiplist rec) eqn:Hm.
  - destruct Hl as (sl & ns & Hsl & Hol). unfold zrange.
    assert (cleanupIfExpiredZSet s key now = s) as ->.
    { unfold cleanupIfExpiredZSet. by rewrite Hrec, Hlive. }
    rewrite Hrec, Hm, Hsl. cbn [negb].
    rewrite (rangeByRank_one_level _ _ _ _ _ _ Hol Hmax). by run.
  - subst l. by apply zrange_vector.
Qed.

(** [ZADD z 1.5 a] and [ZADD z 2.5 b] on the empty engine. *)
Definition two_members : t :=
  match zadd empty "z" 2.5 "b" 0 draws_high with
  | Done (_, s0, g0) =>
      match zadd s0 "z" 1.5 "a" 0 g0 with
      | Done (_, s1, _) => s1
      | _ => empty
      end
  | _ => empty
  end.

Lemma zrange_lists_ranks_witness :
  zrange two_members "z" 0 (-1) 0 = Done (["a"; "b"], two_members)
  ∧ zrange two_members "z" (-1) 5 0 = Done (["b"], two_members).
Proof.
  assert (∀ start stop,
            zrange two_members "z" start stop 0
            = Done (ranks [(1.5%float, "a"); (2.5%float, "b")] start stop, two_members)) as H.
  { intros start stop.
    apply (zrange_lists_ranks two_members "z" start stop 0
             (default ZSetRecord.fresh (zmap_ two_members !! "z"))).
    - vm_compute. reflexivity.
    - vm_compute. reflexivity.
    - vm_compute. reflexivity.
    - vm_compute. discriminate. }
  split; rewrite H; vm_compute; reflexivity.
Defined.

(** [zrem] in skiplist mode: [erase] never reports a removal and never
    changes the skiplist. *)
Lemma zrem_loop_skiplist ms : ∀ rec removed n rec' sl,
  ZSetRecord.use_skiplist rec = true → ZSetRecord.sl rec = Some sl →
  zrem_loop ms rec removed = Done (n, rec') →
  n = removed ∧ ZSetRecord.use_skiplist rec' = true ∧ ZSetRecord.sl rec' = Some sl
  ∧ ZSetRecord.expire_at_ms rec' = ZSetRecord.expire_at_ms rec.
Proof.
  induction ms as [|m0 ms IH]; intros rec removed n rec' sl Hm Hsl H; cbn [zrem_loop] in H.
  { inversion H; by subst. }
  destruct (ZSetRecord.member_to_score rec !! m0) as [sc|]; [|by eapply IH].
  cbn [with_scores ZSetRecord.use_skiplist ZSetRecord.items ZSetRecord.sl] in H.
  rewrite Hm, Hsl in H. cbn [negb] in H.
  inv_bind H as [hit sl'] He. apply erase_returns_false in He. inversion He; subst.
  inv_bind H as removed' Hr. inversion Hr; subst.
  eapply IH in H as (-> & ? & ? & ?); [done|by cbn|by cbn].
Qed.

(** X11.  [ZREM] on an ordered set in skiplist mode, when it returns,
    returns 0, and [ZRANGE] lists afterwards what it listed before. *)
Theorem zrem_in_skiplist_mode_removes_nothing s key ms now n s' rec sl :
  zmap_ s !! key = Some rec →
  isExpired (ZSetRecord.expire_at_ms rec) now = false →
  ZSetRecord.use_skiplist rec = true → ZSetRecord.sl rec = Some sl →
  Skiplist.size sl ≠ 0 →
  zrem s key ms now = Done (n, s') →
  n = 0
  ∧ ∀ start stop,
      fst <$> zrange s' key start stop now = fst <$> zrange s key start stop now.
Proof.
  intros Hrec Hlive Hm Hsl Hsize Hrun.
  assert (cleanupIfExpiredZSet s key now = s) as Hclean.
  { unfold cleanupIfExpiredZSet. by rewrite Hrec, Hlive. }
  unfold zrem in Hrun. rewrite Hclean, Hrec in Hrun.
  inv_bind Hrun as [removed rec'] Hl.
  apply (zrem_loop_skiplist _ _ _ _ _ sl Hm Hsl) in Hl as (-> & Hm' & Hsl' & Hexp).
  rewrite Hm', Hsl' in Hrun. cbn [negb] in Hrun. rewrite bind_Done_l in Hrun. cbv beta in Hrun.
  apply Z.eqb_neq in Hsize. rewrite Hsize in Hrun. inversion Hrun; subst; clear Hrun.
  split; [done|]. intros start stop. unfold zrange.
  rewrite Hclean, Hrec, Hm, Hsl. cbn [negb].
  assert (cleanupIfExpiredZSet (with_zmap s (<[key:=rec']> (zmap_ s))) key now
          = with_zmap s (<[key:=rec']> (zmap_ s))) as ->.
  { unfold cleanupIfExpiredZSet, with_zmap. cbn [zmap_].
    by rewrite lookup_insert_eq, Hexp, Hlive. }
  unfold with_zmap at 1. cbn [zmap_]. rewrite lookup_insert_eq, Hm', Hsl'. cbn [negb].
  by destruct (Skiplist.rangeByRank sl start stop []).
Qed.

Lemma zrem_in_skiplist_mode_removes_nothing_witness :
  ∃ s', zrem run_start "z" ["a"] 0 = Done (0, s')
    ∧ fst <$> zrange s' "z" 0 (-1) 0 = Done ["a"; "b"].
Proof.
  assert (∃ s', zrem run_start "z" ["a"] 0 = Done (0, s')) as [s' Hrun].
  { eexists. vm_compute. reflexivity. }
  exists s'. split; [exact Hrun|].
  destruct (zrem_in_skiplist_mode_removes_nothing run_start "z" ["a"] 0 0 s'
              (default ZSetRecord.fresh (zmap_ run_start !! "z"))
              (default Skiplist.create
                 (ZSetRecord.sl (default ZSetRecord.fresh (zmap_ run_start !! "z")))))
    as [_ Hsame].
  - vm_compute. reflexivity.
  - vm_compute. reflexivity.
  - vm_compute. reflexivity.
  - vm_compute. reflexivity.
  - vm_compute. discriminate.
  - exact Hrun.
  - rewrite (Hsame 0 (-1)). vm_compute. reflexivity.
Defined.

End RangeFacts.

(** ** Ordered sets kept as a vector *)

Section SequenceFacts.
Import KeyValueStore.

(** A score that equals itself as a [double]: any score but NaN. *)
Definition ordinary (sc : float) : Prop := PrimFloat.eqb sc sc = true.

(** The vector and the score map tell the same: every member once, with
    the score the map gives it, and no NaN. *)
Definition synced_list (m2s : gmap string float) (l : list (float * string)) : Prop :=
  NoDup l.*2
  ∧ (∀ m sc, m2s !! m = Some sc ↔ (sc, m) ∈ l)
  ∧ Forall (λ e, ordinary e.1) l.

Definition synced (rec : ZSetRecord.t) : Prop :=
  synced_list (ZSetRecord.member_to_score rec) (ZSetRecord.items rec).

Lemma synced_list_perm m2s l l' : l ≡ₚ l' → synced_list m2s l → synced_list m2s l'.
Proof.
  intros Hp (Hnd & Hiff & Hord). split; [by rewrite <- Hp|]. split.
  - intros m sc. by rewrite <- Hp.
  - by rewrite <- Hp.
Qed.

Lemma synced_list_member m2s l sc m :
  synced_list m2s l → (sc, m) ∈ l → ∀ sc', (sc', m) ∈ l → sc' = sc.
Proof.
  intros (_ & Hiff & _) Hin sc' Hin'. apply Hiff in Hin. apply Hiff in Hin'. congruence.
Qed.

Lemma synced_list_add m2s l sc m :
  synced_list m2s l → m2s !! m = None → ordinary sc →
  synced_list (<[m := sc]> m2s) ((sc, m) :: l).
Proof.
  intros (Hnd & Hiff & Hord) Hnone Hsc.
  assert (m ∉ l.*2) as Hnin.
  { intros Hin. apply list_elem_of_fmap in Hin as ([sc' m'] & Heq & Hin). cbn in Heq. subst m'.
    apply Hiff in Hin. congruence. }
  split; [rewrite fmap_cons; by apply NoDup_cons|]. split; [|by apply Forall_cons].
  intros m' sc'. rewrite elem_of_cons. destruct (decide (m' = m)) as [->|Hne].
  - rewrite lookup_insert_eq. split.
    + intros E; injection E as <-. by left.
    + intros [E|Hin]; [by injection E as ->|].
      exfalso. apply Hnin. apply list_elem_of_fmap. by exists (sc', m).
  - rewrite lookup_insert_ne by done. rewrite Hiff. split; [by right|].
    intros [E|Hin]; [|done]. injection E as _ E. done.
Qed.

Lemma synced_list_del m2s l sc m :
  synced_list m2s ((sc, m) :: l) → synced_list (delete m m2s) l.
Proof.
  intros (Hnd & Hiff & Hord). rewrite fmap_cons in Hnd.
  apply NoDup_cons in Hnd as [Hnin Hnd]. apply Forall_cons in Hord as [_ Hord].
  split; [done|]. split; [|done].
  intros m' sc'. destruct (decide (m' = m)) as [->|Hne].
  - rewrite lookup_delete_eq. split; [done|]. intros Hin. exfalso. apply Hnin.
    apply list_elem_of_fmap. by exists (sc', m).
  - rewrite lookup_delete_ne by done. rewrite Hiff, elem_of_cons. split; [|by right].
    intros [E|Hin]; [|done]. injection E as _ E. done.
Qed.

(** The loop that looks for the pair finds it when the vector and the map
    are in step. *)
Lemma erase_first_spec l : ∀ sc m,
  NoDup l.*2 → (sc, m) ∈ l → ordinary sc →
  ∃ l1, erase_first l sc m = (true, l1) ∧ l ≡ₚ (sc, m) :: l1.
Proof.
  induction l as [|e l IH]; intros sc m Hnd Hin Hsc.
  { by apply elem_of_nil in Hin. }
  rewrite fmap_cons in Hnd. apply NoDup_cons in Hnd as [Hnin Hnd].
  cbn [erase_first]. destruct (PrimFloat.eqb e.1 sc && String.eqb e.2 m) eqn:Htest.
  - exists l. split; [done|].
    apply andb_true_iff in Htest as [_ Hm]. apply String.eqb_eq in Hm.
    apply elem_of_cons in Hin as [<-|Hin]; [done|].
    exfalso. apply Hnin. rewrite Hm. apply list_elem_of_fmap. by exists (sc, m).
  - apply elem_of_cons in Hin as [Heq|Hin].
    { subst e. cbn in Htest. unfold ordinary in Hsc.
      rewrite Hsc, String.eqb_refl in Htest. discriminate. }
    destruct (IH sc m Hnd Hin Hsc) as (l1 & -> & Hp).
    exists (e :: l1). split; [done|]. rewrite Hp. apply perm_swap.
Qed.

Lemma vec_insert_perm vec i x : vec_insert vec i x ≡ₚ x :: vec.
Proof. unfold vec_insert. rewrite <- Permutation_middle. by rewrite take_drop. Qed.

Lemma place_items rec vec g rec' g' :
  place rec vec g = Done (rec', g') → ZSetRecord.use_skiplist rec' = false →
  ZSetRecord.items rec' = vec.
Proof.
  unfold place. destruct (_ >? _); intros H Hm.
  - inv_bind H as [sl g1] Hi. inversion H; subst. discriminate.
  - inversion H; by subst.
Qed.

(** [zadd] keeps the vector and the map in step. *)
Lemma zadd_rec_synced rec sc m g r rec' g' :
  ZSetRecord.use_skiplist rec = false → synced rec → ordinary sc →
  zadd_rec rec sc m g = Done (r, rec', g') →
  ZSetRecord.use_skiplist rec' = false → synced rec'.
Proof.
  unfold synced, zadd_rec. intros Hm Hs Hsc H Hm'. rewrite Hm in H. cbn [negb] in H.
  destruct (ZSetRecord.member_to_score rec !! m) as [old|] eqn:E.
  - destruct (PrimFloat.eqb old sc); [inversion H; by subst|].
    inv_bind H as [rec1 g1] H1. inversion H; subst; clear H.
    cbn [with_scores ZSetRecord.use_skiplist ZSetRecord.member_to_score ZSetRecord.items] in *.
    pose proof (place_scores _ _ _ _ _ H1) as [-> _].
    rewrite (place_items _ _ _ _ _ H1 Hm').
    destruct Hs as (Hnd & Hiff & Hord).
    assert ((old, m) ∈ ZSetRecord.items rec) as Hin by by apply Hiff.
    assert (ordinary old) as Hold.
    { rewrite Forall_forall in Hord. apply (Hord _ Hin). }
    destruct (erase_first_spec _ old m Hnd Hin Hold) as (l1 & -> & Hp). cbn [snd].
    eapply synced_list_perm; [symmetry; apply vec_insert_perm|].
    rewrite <- (insert_delete_eq (ZSetRecord.member_to_score rec)).
    apply synced_list_add; [|apply lookup_delete_eq|done].
    apply (synced_list_del _ _ old). by apply (synced_list_perm _ (ZSetRecord.items rec)).
  - inv_bind H as [rec1 g1] H1. inversion H; subst; clear H.
    cbn [with_scores ZSetRecord.use_skiplist ZSetRecord.member_to_score ZSetRecord.items] in *.
    pose proof (place_scores _ _ _ _ _ H1) as [-> _].
    rewrite (place_items _ _ _ _ _ H1 Hm').
    eapply synced_list_perm; [symmetry; apply vec_insert_perm|].
    by apply synced_list_add.
Qed.

(** What the loop of [zrem] does to a vector in step with its map, for
    any count it starts from. *)
Lemma zrem_loop_synced ms : ∀ rec removed,
  ZSetRecord.use_skiplist rec = false → synced rec →
  0 ≤ removed → removed + Z.of_nat (length ms) ≤ INT_MAX →
  ∃ rec',
    zrem_loop ms rec removed
      = Done (removed + Z.of_nat (size (dom (ZSetRecord.member_to_score rec)
                                         ∩ list_to_set ms)), rec')
    ∧ ZSetRecord.use_skiplist rec' = false ∧ synced rec'.
Proof.
  induction ms as [|m0 ms IH]; intros rec removed Hm Hs H0 Hmax.
  { exists rec. cbn [zrem_loop list_to_set]. rewrite intersection_empty_r_L, size_empty.
    by rewrite Z.add_0_r. }
  cbn [zrem_loop length] in *.
  destruct (ZSetRecord.member_to_score rec !! m0) as [sc|] eqn:E.
  - cbn [with_scores ZSetRecord.use_skiplist ZSetRecord.items ZSetRecord.sl].
    rewrite Hm. cbn [negb].
    destruct Hs as (Hnd & Hiff & Hord).
    assert ((sc, m0) ∈ ZSetRecord.items rec) as Hin by by apply Hiff.
    assert (ordinary sc) as Hsc.
    { rewrite Forall_forall in Hord. apply (Hord _ Hin). }
    destruct (erase_first_spec _ sc m0 Hnd Hin Hsc) as (l1 & -> & Hp).
    unfold int32.
    replace ((- 2 ^ 31 <=? removed + 1) && (removed + 1 <=? INT_MAX)) with true
      by (symmetry; apply andb_true_iff; unfold INT_MAX in *; lia).
    run.
    set (rec1 := with_items _ l1).
    destruct (IH rec1 (removed + 1)) as (rec' & Hrun & Hm' & Hs'); [done| |lia|lia|].
    { unfold synced. cbn. apply (synced_list_del _ _ sc).
      by apply (synced_list_perm _ (ZSetRecord.items rec)). }
    exists rec'. rewrite Hrun. split; [|done].
    cbn [rec1 with_items with_scores ZSetRecord.member_to_score].
    assert (Z.of_nat (size (dom (ZSetRecord.member_to_score rec) ∩ list_to_set (m0 :: ms)))
            = 1 + Z.of_nat (size (dom (delete m0 (ZSetRecord.member_to_score rec))
                                  ∩ list_to_set ms))) as ->.
    { rewrite list_to_set_cons, dom_delete_L.
      set (d := dom (ZSetRecord.member_to_score rec)).
      assert (m0 ∈ d) as Hd by (apply elem_of_dom; eauto).
      assert (d ∩ ({[m0]} ∪ list_to_set ms) = {[m0]} ∪ (d ∖ {[m0]}) ∩ list_to_set ms) as ->.
      { apply set_eq. intros k'. destruct (decide (k' = m0)) as [->|]; set_solver. }
      assert (({[m0]} : gset string) ## (d ∖ {[m0]}) ∩ list_to_set ms) as Hdisj
        by set_solver.
      rewrite (size_union _ _ Hdisj), size_singleton. lia. }
    f_equal. f_equal. lia.
  - destruct (IH rec removed) as (rec' & Hrun & Hm' & Hs'); [done|done|lia|lia|].
    exists rec'. rewrite Hrun. split; [|done].
    assert (m0 ∉ dom (ZSetRecord.member_to_score rec)) as Hnin by (by apply not_elem_of_dom).
    assert (dom (ZSetRecord.member_to_score rec) ∩ list_to_set (m0 :: ms)
            = dom (ZSetRecord.member_to_score rec) ∩ list_to_set ms) as ->.
    { rewrite list_to_set_cons. set_solver. }
    done.
Qed.

(** Every ordered set kept as a vector is in step with its score map. *)
Definition vectors_synced (s : t) : Prop :=
  ∀ key rec, zmap_ s !! key = Some rec → ZSetRecord.use_skiplist rec = false → synced rec.

Lemma synced_fresh : synced ZSetRecord.fresh.
Proof.
  split; [constructor|]. split; [|constructor].
  intros m sc. cbn. rewrite lookup_empty. split; [done|]. intros H. by apply elem_of_nil in H.
Qed.

Lemma vectors_synced_cleanup s key now :
  vectors_synced s → vectors_synced (cleanupIfExpiredZSet s key now).
Proof.
  intros Hs k rec. unfold cleanupIfExpiredZSet.
  destruct (zmap_ s !! key) as [r|]; [|apply Hs].
  destruct (isExpired _ _); [|apply Hs]. cbn [zmap_].
  intros Hk. apply lookup_delete_Some in Hk as [_ Hk]. exact (Hs k rec Hk).
Qed.

(** X12.  [ZADD] with a score that is not NaN keeps every vector in
    step with its score map. *)
Theorem zadd_keeps_vectors_synced s key sc m now g r s' g' :
  vectors_synced s → ordinary sc →
  zadd s key sc m now g = Done (r, s', g') → vectors_synced s'.
Proof.
  intros Hs Hsc Hrun. apply (vectors_synced_cleanup _ key now) in Hs. unfold zadd in Hrun.
  set (s1 := cleanupIfExpiredZSet s key now) in *.
  inv_bind Hrun as [[r' rec'] g''] Hr. inversion Hrun; subst; clear Hrun.
  intros k rec. unfold with_zmap. cbn [zmap_].
  destruct (decide (k = key)) as [->|Hne].
  - rewrite lookup_insert_eq. intros E; injection E as <-. intros Hm'.
    assert (ZSetRecord.use_skiplist (default ZSetRecord.fresh (zmap_ s1 !! key)) = false)
      as Hm.
    { destruct (ZSetRecord.use_skiplist (default ZSetRecord.fresh (zmap_ s1 !! key)))
        eqn:Hm; [|done].
      apply (zadd_rec_mode _ _ _ _ _ _ _ Hr) in Hm. congruence. }
    apply (zadd_rec_synced _ _ _ _ _ _ _ Hm) in Hr; [done| |done|done].
    destruct (zmap_ s1 !! key) as [rec0|] eqn:E; cbn in *; [by eapply Hs|apply synced_fresh].
  - rewrite lookup_insert_ne by done. apply Hs.
Qed.

Lemma vectors_synced_empty : vectors_synced empty.
Proof. intros key rec H. cbn in H. by rewrite lookup_empty in H. Qed.

Lemma ordinary_1_5 : ordinary 1.5.
Proof. vm_compute. reflexivity. Qed.

Lemma zadd_keeps_vectors_synced_witness :
  ∃ s' g', zadd empty "z" 1.5 "a" 0 draws_high = Done (1, s', g') ∧ vectors_synced s'.
Proof.
  assert (∃ s' g', zadd empty "z" 1.5 "a" 0 draws_high = Done (1, s', g')) as (s' & g' & Hrun).
  { eexists _, _. vm_compute. reflexivity. }
  exists s', g'. split; [exact Hrun|].
  exact (zadd_keeps_vectors_synced _ _ _ _ _ _ _ _ _ vectors_synced_empty ordinary_1_5 Hrun).
Defined.

(** An ordered set kept as a vector that holds (1.5, a) and (2.5, b). *)
Definition vector_ab : t :=
  with_zmap empty
    {[ "z" := ZSetRecord.mk false [(1.5%float, "a"); (2.5%float, "b")] None
                (<["a" := 1.5%float]> (<["b" := 2.5%float]> ∅)) (-1) ]}.

Lemma vector_ab_synced : vectors_synced vector_ab.
Proof.
  intros key rec H. cbn in H. apply lookup_singleton_Some in H as [_ <-]. intros _.
  unfold synced. cbn [ZSetRecord.member_to_score ZSetRecord.items].
  apply synced_list_add; [|done|apply ordinary_1_5].
  apply synced_list_add; [|done|vm_compute; reflexivity].
  apply synced_fresh.
Qed.

(** X13.  [ZREM] on an ordered set kept as a vector in step with its
    score map returns the number of different listed members that had a
    score, and leaves every vector in step. *)
Theorem zrem_counts_members s key ms now :
  vectors_synced s →
  (∀ rec, zmap_ s !! key = Some rec → ZSetRecord.use_skiplist rec = false) →
  Z.of_nat (length ms) ≤ INT_MAX →
  ∃ s',
    zrem s key ms now
      = Done (Z.of_nat (size (dom (live_scores s key now) ∩ list_to_set ms)), s')
    ∧ vectors_synced s'.
Proof.
  intros Hs Hmode Hmax. apply (vectors_synced_cleanup _ key now) in Hs.
  rewrite live_scores_cleanup. unfold zrem.
  assert (∀ rec, zmap_ (cleanupIfExpiredZSet s key now) !! key = Some rec →
                 ZSetRecord.use_skiplist rec = false) as Hmode1.
  { intros rec. rewrite cleanupIfExpiredZSet_lookup.
    destruct (zmap_ s !! key) as [r|]; cbn; [|done].
    destruct (isExpired _ _); [done|]. intros E; injection E as <-. by apply Hmode. }
  set (s1 := cleanupIfExpiredZSet s key now) in *.
  destruct (zmap_ s1 !! key) as [rec|] eqn:E; cbn [default fmap option_fmap option_map];
    unfold id.
  - destruct (zrem_loop_synced ms rec 0) as (rec' & Hrun & Hm' & Hs');
      [by apply Hmode1|exact (Hs key rec E (Hmode1 rec eq_refl))|lia|lia|].
    rewrite Hrun, Z.add_0_l. run. rewrite Hm'. cbn [negb]. run.
    case_bool_decide; eexists; (split; [done|]); intros k r; unfold with_zmap; cbn [zmap_].
    + intros Hk. apply lookup_delete_Some in Hk as [_ Hk]. exact (Hs k r Hk).
    + destruct (decide (k = key)) as [->|Hne].
      * rewrite lookup_insert_eq. by intros E'; injection E' as <-.
      * rewrite lookup_insert_ne by done. apply Hs.
  - exists s1. rewrite dom_empty_L, intersection_empty_l_L, size_empty. done.
Qed.

Lemma zrem_counts_members_witness :
  ∃ s', zrem vector_ab "z" ["a"; "c"; "a"] 0 = Done (1, s') ∧ vectors_synced s'.
Proof.
  destruct (zrem_counts_members vector_ab "z" ["a"; "c"; "a"] 0 vector_ab_synced)
    as (s' & Hrun & Hs').
  - intros rec H. cbn in H. apply lookup_singleton_Some in H as [_ <-]. reflexivity.
  - vm_compute. discriminate.
  - exists s'. split; [|exact Hs']. rewrite Hrun. vm_compute. reflexivity.
Defined.

(** The whole range of a sequence. *)
Lemma ranks_whole l : ranks l 0 (-1) = l.*2.
Proof.
  unfold ranks. destruct l as [|e l]; [done|].
  set (n := Z.of_nat (length (e :: l))).
  assert (0 < n) as Hn by (subst n; cbn [length]; lia).
  assert ((n =? 0) = false) as -> by (apply Z.eqb_neq; lia).
  assert (Skiplist.norm n 0 = 0) as ->.
  { unfold Skiplist.norm. cbn [Z.ltb Z.compare].
    destruct (Z.geb_spec 0 n); [lia|done]. }
  assert (Skiplist.norm n (-1) = n - 1) as ->.
  { unfold Skiplist.norm. cbn [Z.ltb Z.compare].
    destruct (Z.ltb_spec (n + -1) 0); [lia|].
    destruct (Z.geb_spec (n + -1) n); lia. }
  assert ((0 >? n - 1) = false) as -> by (rewrite Z.gtb_ltb; apply Z.ltb_ge; lia).
  rewrite drop_0, take_ge; [done|]. subst n. lia.
Qed.

(** X14.  For an ordered set kept as a vector in step with its score
    map, [ZRANGE 0 -1] lists each member that has a score, once, and
    nothing else. *)
Theorem zrange_agrees_with_zscore s key now rec :
  zmap_ s !! key = Some rec →
  isExpired (ZSetRecord.expire_at_ms rec) now = false →
  ZSetRecord.use_skiplist rec = false → synced rec →
  Z.of_nat (length (ZSetRecord.items rec)) ≤ INT64_MAX →
  ∃ members,
    zrange s key 0 (-1) now = Done (members, s)
    ∧ NoDup members
    ∧ ∀ m, m ∈ members ↔ is_Some (zscore s key m now).1.
Proof.
  intros Hrec Hlive Hm (Hnd & Hiff & _) Hmax.
  exists (ZSetRecord.items rec).*2. split; [|split; [done|]].
  - rewrite <- ranks_whole. apply (zrange_vector _ _ _ _ _ _ Hrec Hlive Hm Hmax).
  - intros m. rewrite zscore_live. unfold live_scores. rewrite Hrec, Hlive.
    rewrite list_elem_of_fmap. split.
    + intros ([sc m'] & -> & Hin). apply Hiff in Hin. eauto.
    + intros [sc Hsc]. apply Hiff in Hsc. by exists (sc, m).
Qed.

Lemma zrange_agrees_with_zscore_witness :
  ∃ members,
    zrange vector_ab "z" 0 (-1) 0 = Done (members, vector_ab)
    ∧ NoDup members
    ∧ ∀ m, m ∈ members ↔ is_Some (zscore vector_ab "z" m 0).1.
Proof.
  apply (zrange_agrees_with_zscore vector_ab "z" 0
           (ZSetRecord.mk false [(1.5%float, "a"); (2.5%float, "b")] None
              (<["a" := 1.5%float]> (<["b" := 2.5%float]> ∅)) (-1))).
  - reflexivity.
  - reflexivity.
  - reflexivity.
  - apply (vector_ab_synced "z"); reflexivity.
  - vm_compute. discriminate.
Defined.

End SequenceFacts.

(** ** The skiplist seen from outside *)

Section SkiplistUse.
Import Skiplist.

Lemma randomLevel_loop_spec fuel : ∀ lvl r g,
  1 ≤ lvl → kMaxLevel ≤ lvl + Z.of_nat fuel →
  let res := randomLevel_loop fuel lvl r g in
  lvl ≤ res.1 ≤ Z.max lvl kMaxLevel
  ∧ draws res.2 = draws g
  ∧ Z.of_nat (pos res.2) = Z.of_nat (pos g) + (res.1 - lvl)
  ∧ (res.1 = lvl ↔ threshold ≤ r ∨ kMaxLevel ≤ lvl).
Proof.
  induction fuel as [|fuel IH]; intros lvl r g H1 Hfuel; cbn [randomLevel_loop]; cbv zeta.
  { cbn [fst snd]. split; [lia|]. split; [done|]. split; [lia|]. split; [|done].
    intros _. right. lia. }
  destruct (Z.ltb_spec r threshold) as [Hr|Hr], (Z.ltb_spec lvl kMaxLevel) as [Hl|Hl];
    cbn [andb fst snd]; try (split; [lia|]; split; [done|]; split; [lia|]; split; [|done];
                             intros _; lia).
  unfold rand. cbv beta iota zeta.
  specialize (IH (lvl + 1) (Z.land (draws g (pos g)) 65535) (mkRand (draws g) (S (pos g)))).
  cbv zeta in IH. destruct IH as (Hres & Hd & Hp & _); [lia|lia|].
  cbn [draws pos] in *. split; [lia|]. split; [done|]. split; [lia|]. lia.
Qed.

(** X15.  [randomLevel] returns a level from 1 to 32, has called
    [rand()] as many times as the level it returns, and returns 1 exactly
    when the low 16 bits of the first value are not below the threshold. *)
Theorem randomLevel_range g :
  1 ≤ (randomLevel g).1 ≤ kMaxLevel
  ∧ draws (randomLevel g).2 = draws g
  ∧ Z.of_nat (pos (randomLevel g).2) = Z.of_nat (pos g) + (randomLevel g).1
  ∧ ((randomLevel g).1 = 1 ↔ threshold ≤ Z.land (draws g (pos g)) 65535).
Proof.
  unfold randomLevel, rand. cbv beta iota zeta.
  pose proof (randomLevel_loop_spec (Z.to_nat kMaxLevel) 1 (Z.land (draws g (pos g)) 65535)
                (mkRand (draws g) (S (pos g)))) as H.
  cbv zeta in H. destruct H as (Hres & Hd & Hp & Hone); [lia|unfold kMaxLevel; lia|].
  cbn [draws pos] in *. unfold kMaxLevel in *.
  split; [lia|]. split; [done|]. split; [lia|]. rewrite Hone. lia.
Qed.

(** X16.  [insert] then [toVector] on a skiplist of one level: an
    [insert] that returns has returned false and changed nothing when the
    search stopped before the member with a score within the tolerance;
    else it has returned true, and [toVector] yields the old sequence with
    the new pair behind the pairs the search has passed. *)
Theorem toVector_after_insert sl ns l sc m g b sl' g' :
  one_level sl ns l →
  insert sl sc m g = Done (b, sl', g') →
  b = negb (hit sc m l)
  ∧ toVector sl' = Done (if b then placed sc m l else l)
  ∧ level_ sl' = 1.
Proof.
  intros Hol Hrun. pose proof (insert_one_level sc m sl ns l g Hol) as Hspec.
  destruct (hit sc m l).
  - rewrite Hspec in Hrun. inversion Hrun; subst. split; [done|].
    split; [by eapply toVector_one_level|by destruct Hol].
  - destruct (decide _); [|congruence].
    destruct Hspec as (sl1 & ns1 & Hi & Hol1). rewrite Hi in Hrun.
    inversion Hrun; subst. split; [done|].
    split; [by eapply toVector_one_level|by destruct Hol1].
Qed.

(** The skiplist after [insert(1, a)] and the one after [insert(2, b)]
    on it, every sampled level being 1. *)
Definition sl_a : t :=
  match insert create 1 "a" draws_high with
  | Done (_, sl, _) => sl
  | _ => create
  end.

Definition sl_ab : t :=
  match insert sl_a 2 "b" draws_high with
  | Done (_, sl, _) => sl
  | _ => create
  end.

Lemma insert_a : ∃ g, insert create 1 "a" draws_high = Done (true, sl_a, g).
Proof. eexists. vm_compute. reflexivity. Qed.

Lemma insert_b : ∃ g, insert sl_a 2 "b" draws_high = Done (true, sl_ab, g).
Proof. eexists. vm_compute. reflexivity. Qed.

Lemma sl_a_one_level : ∃ ns, one_level sl_a ns [(1%float, "a")].
Proof.
  pose proof (insert_one_level 1 "a" create [] [] draws_high create_one_level) as H.
  change (hit 1 "a" []) with false in H. cbv iota in H.
  destruct (decide _) as [_|Hn]; [|exfalso; apply Hn; vm_compute; reflexivity].
  destruct H as (sl' & ns' & Hi & Hol). destruct insert_a as [g Ha].
  rewrite Ha in Hi. inversion Hi; subst. by exists ns'.
Qed.

Lemma sl_ab_one_level : ∃ ns, one_level sl_ab ns [(1%float, "a"); (2%float, "b")].
Proof.
  destruct sl_a_one_level as [ns Hol].
  pose proof (insert_one_level 2 "b" sl_a ns _ draws_high Hol) as H.
  assert (hit 2 "b" [(1%float, "a")] = false) as Hh by (vm_compute; reflexivity).
  rewrite Hh in H.
  destruct (decide _) as [_|Hn]; [|exfalso; apply Hn; vm_compute; reflexivity].
  destruct H as (sl' & ns' & Hi & Hol'). destruct insert_b as [g Hb].
  rewrite Hb in Hi. inversion Hi; subst. exists ns'.
  assert (placed 2 "b" [(1%float, "a")] = [(1%float, "a"); (2%float, "b")]) as Hpl
    by (vm_compute; reflexivity).
  by rewrite Hpl in Hol'.
Qed.

Lemma toVector_after_insert_witness :
  ∃ ns g,
    one_level sl_a ns [(1%float, "a")]
    ∧ insert sl_a 2 "b" draws_high = Done (true, sl_ab, g)
    ∧ toVector sl_ab = Done [(1%float, "a"); (2%float, "b")].
Proof.
  destruct sl_a_one_level as [ns Hol]. destruct insert_b as [g Hb].
  exists ns, g. split; [exact Hol|]. split; [exact Hb|].
  destruct (toVector_after_insert _ _ _ _ _ _ _ _ _ Hol Hb) as (_ & Hv & _).
  rewrite Hv. vm_compute. reflexivity.
Defined.

(** X17.  On a skiplist of one level, [rangeByRank(0, -1)] lists the
    members of the pairs [toVector] yields, in the same order. *)
Theorem rangeByRank_whole_is_toVector sl ns l out :
  one_level sl ns l → Z.of_nat (length l) ≤ INT64_MAX →
  toVector sl = Done l ∧ rangeByRank sl 0 (-1) out = Done (out ++ l.*2).
Proof.
  intros Hol Hmax. split; [by eapply toVector_one_level|].
  rewrite <- ranks_whole. by eapply rangeByRank_one_level.
Qed.

Lemma rangeByRank_whole_is_toVector_witness :
  ∃ ns, one_level sl_ab ns [(1%float, "a"); (2%float, "b")]
    ∧ Z.of_nat (length [(1%float, "a"); (2%float, "b")]) ≤ INT64_MAX
    ∧ toVector sl_ab = Done [(1%float, "a"); (2%float, "b")]
    ∧ rangeByRank sl_ab 0 (-1) [] = Done ["a"; "b"].
Proof.
  destruct sl_ab_one_level as [ns Hol].
  assert (Z.of_nat (length [(1%float, "a"); (2%float, "b")]) ≤ INT64_MAX) as Hmax
    by (vm_compute; discriminate).
  exists ns. split; [exact Hol|]. split; [exact Hmax|].
  exact (rangeByRank_whole_is_toVector sl_ab ns _ [] Hol Hmax).
Defined.

(** [erase] on [sl_ab]: asked for a pair before the end it returns false,
    asked for one past the end it reads through a null pointer. *)
Lemma erase_one_level_witness :
  ∃ ns, one_level sl_ab ns [(1%float, "a"); (2%float, "b")]
    ∧ erase sl_ab 2 "b" = Done (false, sl_ab)
    ∧ erase sl_ab 3 "c" = UB.
Proof.
  destruct sl_ab_one_level as [ns Hol]. exists ns. split; [exact Hol|].
  split.
  - rewrite (erase_one_level 2 "b" sl_ab ns _ Hol). reflexivity.
  - vm_compute. reflexivity.
Defined.

Lemma insert_all_keeps_every_pair_witness :
  ∃ sl' g' ns' l',
    KeyValueStore.insert_all [(2%float, "b"); (1%float, "a")] create draws_high
      = Done (sl', g')
    ∧ one_level sl' ns' l'
    ∧ l' ≡ₚ [(2%float, "b"); (1%float, "a")].
Proof.
  assert (∃ sl' g',
            KeyValueStore.insert_all [(2%float, "b"); (1%float, "a")] create draws_high
            = Done (sl', g')) as (sl' & g' & Hrun).
  { eexists _, _. vm_compute. reflexivity. }
  destruct (insert_all_keeps_every_pair [(2%float, "b"); (1%float, "a")] create [] []
              draws_high sl' g' create_one_level) as (ns' & l' & Hol & Hperm).
  - cbn. repeat constructor; set_solver.
  - exact Hrun.
  - exists sl', g', ns', l'. split; [exact Hrun|]. split; [exact Hol|].
    by rewrite app_nil_r in Hperm.
Defined.

(** A skiplist built by two calls of [insert] that return true and one of
    [erase]. *)
Lemma built_one_level_witness :
  built sl_ab
  ∧ ∃ ns l, one_level sl_ab ns l ∧ level_ sl_ab = 1 ∧ toVector sl_ab = Done l.
Proof.
  assert (built sl_ab) as Hb.
  { destruct insert_a as [g1 Ha]. destruct insert_b as [g2 Hb].
    apply (built_erase sl_ab 2 "b" false sl_ab).
    - apply (built_insert sl_a 2 "b" draws_high true sl_ab g2); [|exact Hb].
      apply (built_insert create 1 "a" draws_high true sl_a g1); [constructor|exact Ha].
    - vm_compute. reflexivity. }
  split; [exact Hb|]. exact (built_one_level sl_ab Hb).
Defined.

End SkiplistUse.

(** ** Frames of the replication stream *)

Section FrameFacts.
Import ReplicaClient.

Variable stod : string → outcome float.

(** The client a step of the loop leaves. *)
Definition client_of (c : control) : ReplicaClient.t :=
  match c with Continue r | Return r => r end.

(** X18.  No frame, of whatever type, changes [last_offset_]: the one
    assignment to it cannot be reached. *)
Theorem no_frame_changes_last_offset (can_fopen : bool) (v : RespValue)
    (r : ReplicaClient.t) (c : control) :
  on_frame stod can_fopen v r = Done c →
  last_offset_ (client_of c) = last_offset_ r.
Proof.
  unfold on_frame. case_bool_decide as Hb.
  - destruct can_fopen; cbn [negb].
    + intros H. inv_bind H as [[ok err] w] Hl. inversion H; by subst.
    + intros H. inversion H; by subst.
  - case_bool_decide as Ha.
    + intros H. assert (∃ r', c = Continue r') as [r' ->].
      { unfold on_array in H. destruct (array v) as [|first rest]; [inversion H; eauto|].
        repeat match type of H with
        | context [if ?b then _ else _] => destruct b
        end;
        repeat match goal with
        | H : (_ ≫= _) = Done _ |- _ =>
            let a := fresh "a" in let Ha := fresh "Ha" in inv_bind H as a Ha
        | H : (let '(_, _) := ?p in _) = Done _ |- _ => destruct p
        | H : context [nowMs ?c] |- _ => destruct (nowMs c)
        | H : timed _ _ = Done _ |- _ =>
            unfold timed in H; cbv zeta in H
        end;
        try (inversion H; eauto). }
      by apply (offset_branch_is_dead stod v r r' Ha).
    + intros H. inversion H; by subst.
Qed.

(** X19.  A replicated [SET], the command name in any mix of cases:
    the engine then holds the value under the key for good, whatever was
    there, and the clock is not read. *)
Theorem replicated_set_is_readable (can_fopen : bool) (first k x : RespValue) (b : string)
    (r : ReplicaClient.t) :
  upper (bulk first) = "SET" →
  ∃ r',
    on_frame stod can_fopen (mkResp kArray b [first; k; x]) r = Done (Continue r')
    ∧ (∀ now, (KeyValueStore.get (Rdb.engine (g_store r')) (bulk k) now).1 = Some (bulk x))
    ∧ (∀ now, fst <$> KeyValueStore.ttl (Rdb.engine (g_store r')) (bulk k) now = Done (-1))
    ∧ Rdb.clock (g_store r') = Rdb.clock (g_store r).
Proof.
  intros Hcmd. unfold on_frame. cbn [type].
  rewrite (bool_decide_eq_false_2 (kArray = kBulkString)) by discriminate.
  rewrite (bool_decide_eq_true_2 (kArray = kArray)) by done.
  unfold on_array. cbn [array length]. rewrite Hcmd.
  change (String.eqb "SET" "SET") with true.
  rewrite (bool_decide_eq_true_2 (3 = 3)%nat) by done. cbn [andb].
  unfold arg. cbn [array at_ lookup list_lookup fmap outcome_fmap]. run.
  unfold KeyValueStore.set. run. eexists. split; [done|].
  cbn [g_store with_store Rdb.with_engine Rdb.engine Rdb.clock].
  split; [|split; [|done]]; intros now.
  - unfold KeyValueStore.get, KeyValueStore.cleanupIfExpired. cbn [KeyValueStore.map_].
    rewrite lookup_insert_eq. cbn [ValueRecord.expire_at_ms].
    change (KeyValueStore.isExpired (-1) now) with false.
    cbn [KeyValueStore.map_ fst]. by rewrite lookup_insert_eq.
  - unfold KeyValueStore.ttl, KeyValueStore.cleanupIfExpired. cbn [KeyValueStore.map_].
    rewrite lookup_insert_eq. cbn [ValueRecord.expire_at_ms].
    change (KeyValueStore.isExpired (-1) now) with false.
    cbn [KeyValueStore.map_]. by rewrite lookup_insert_eq.
Qed.

End FrameFacts.

(** A client at start-up, and the frame of [set k v] as the master sends
    it. *)
Definition replica0 : ReplicaClient.t :=
  ReplicaClient.mk (world0 KeyValueStore.empty) 0 Rdb.NoFile.

Definition bulk_of (s : string) : RespValue := mkResp kBulkString s [].

Definition set_frame : RespValue := mkResp kArray "" [bulk_of "set"; bulk_of "k"; bulk_of "v"].

Lemma no_frame_changes_last_offset_witness :
  ∃ r', ReplicaClient.on_frame stod_one true set_frame replica0
        = Done (ReplicaClient.Continue r')
    ∧ ReplicaClient.last_offset_ r' = 0.
Proof.
  assert (∃ r', ReplicaClient.on_frame stod_one true set_frame replica0
                = Done (ReplicaClient.Continue r')) as [r' Hrun].
  { eexists. vm_compute. reflexivity. }
  exists r'. split; [exact Hrun|].
  exact (no_frame_changes_last_offset stod_one true set_frame replica0 _ Hrun).
Defined.

Lemma replicated_set_is_readable_witness :
  ReplicaClient.upper (bulk (bulk_of "sEt")) = "SET"
  ∧ ∃ r',
      ReplicaClient.on_frame stod_one false
        (mkResp kArray "" [bulk_of "sEt"; bulk_of "k"; bulk_of "v"]) replica0
      = Done (ReplicaClient.Continue r')
      ∧ (KeyValueStore.get (Rdb.engine (ReplicaClient.g_store r')) "k" 1000).1 = Some "v".
Proof.
  assert (ReplicaClient.upper (bulk (bulk_of "sEt")) = "SET") as Hcmd
    by (vm_compute; reflexivity).
  split; [exact Hcmd|].
  destruct (replicated_set_is_readable stod_one false (bulk_of "sEt") (bulk_of "k")
              (bulk_of "v") "" replica0 Hcmd) as (r' & Hrun & Hget & _).
  exists r'. split; [exact Hrun|]. exact (Hget 1000).
Defined.

(** ** The command line, continued *)

Section MainRuns.

Variable ServerConfig : Type.
Variable default_config : ServerConfig.
Variable set_port : Z → ServerConfig → ServerConfig.
Variable set_bind_address : string → ServerConfig → ServerConfig.
Variable loadConfigFromFile : string → ServerConfig → bool * ServerConfig * string.
Variable run_server : ServerConfig → Z.

#[local] Abbreviation parse_loop :=
  (Main.parse_loop ServerConfig set_port set_bind_address loadConfigFromFile).
#[local] Abbreviation main' :=
  (Main.main ServerConfig default_config set_port set_bind_address loadConfigFromFile
     run_server).




End MainRuns.


(** ** What [exists] and [save] do *)

Section ExistsFacts.
Import KeyValueStore.

(** X21.  [EXISTS] expires scalar records only: for a name that holds a
    field map it answers true whatever the expiry time of the map, leaving
    the map in place, also when the time has passed and [HGET] finds
    nothing there. *)
Theorem exists_sees_expired_field_map s key now rec :
  hmap_ s !! key = Some rec →
  (exists_ s key now).1 = true
  ∧ hmap_ (exists_ s key now).2 !! key = Some rec
  ∧ (isExpired (HashRecord.expire_at_ms rec) now = true →
     ∀ field, (hget s key field now).1 = None).
Proof.
  intros Hrec. unfold exists_. cbn [fst snd]. rewrite cleanupIfExpired_hmap, Hrec.
  split; [|split; [done|]].
  - rewrite (bool_decide_eq_true_2 (is_Some (Some rec))) by eauto.
    by rewrite orb_true_r.
  - intros Hexp field. rewrite hget_live. unfold live_fields. rewrite Hrec, Hexp.
    apply lookup_empty.
Qed.

(** A field map that expired at 10. *)
Definition expired_map : t :=
  (setHashExpireAtMs (hset empty "h" "f" "v" 0).2 "h" 10).2.

Lemma exists_sees_expired_field_map_witness :
  (exists_ expired_map "h" 20).1 = true
  ∧ (hget expired_map "h" "f" 20).1 = None.
Proof.
  destruct (exists_sees_expired_field_map expired_map "h" 20
              (HashRecord.mk {[ "f" := "v" ]} 10)) as (He & _ & Hg).
  - vm_compute. reflexivity.
  - split; [exact He|]. apply Hg. reflexivity.
Defined.

End ExistsFacts.

Section SaveFacts.

Variable to_string_double : float → string.


End SaveFacts.


(** ** Strings: positions in a concatenation *)

Lemma append_cons (x : ascii) (a b : string) : String x a +:+ b = String x (a +:+ b).
Proof. reflexivity. Qed.

Lemma append_nil_l (a : string) : EmptyString +:+ a = a.
Proof. reflexivity. Qed.

Lemma append_assoc (a b c : string) : (a +:+ b) +:+ c = a +:+ (b +:+ c).
Proof. induction a as [|x a IH]; [done|]. rewrite ?append_cons, ?append_nil_l. by rewrite IH. Qed.

Lemma append_nil_r (a : string) : a +:+ EmptyString = a.
Proof. induction a as [|x a IH]; [done|]. rewrite ?append_cons, ?append_nil_l. by rewrite IH. Qed.

Lemma length_append (a b : string) :
  String.length (a +:+ b) = (String.length a + String.length b)%nat.
Proof. induction a as [|x a IH]; [done|]. rewrite ?append_cons, ?append_nil_l; cbn [String.length]. by rewrite IH. Qed.

Lemma size_of_append (a b : string) : size_of (a +:+ b) = size_of a + size_of b.
Proof. unfold size_of. rewrite length_append. lia. Qed.

Lemma size_of_nonneg (a : string) : 0 ≤ size_of a.
Proof. unfold size_of. lia. Qed.

Lemma size_of_String (c : ascii) (a : string) : size_of (String c a) = 1 + size_of a.
Proof. unfold size_of. cbn [String.length]. lia. Qed.

Lemma to_nat_size_of (a : string) : Z.to_nat (size_of a) = String.length a.
Proof. unfold size_of. apply Nat2Z.id. Qed.

(** The character [c] does not occur in [s]. *)
Definition lacks (c : ascii) (s : string) : Prop := find_char c 0 s = None.

Lemma lacks_String c x s : lacks c (String x s) ↔ x ≠ c ∧ lacks c s.
Proof.
  unfold lacks. cbn [find_char]. destruct (Ascii.eqb_spec x c) as [->|Hne].
  - split; [done|]. by intros [? _].
  - destruct (find_char c 0 s); cbn; split; try done; by intros [_ ?].
Qed.

Lemma lacks_append c a b : lacks c (a +:+ b) ↔ lacks c a ∧ lacks c b.
Proof.
  induction a as [|x a IH]; rewrite ?append_cons, ?append_nil_l.
  - split; [by split|by intros [_ ?]].
  - rewrite !lacks_String, IH. tauto.
Qed.

Lemma find_char_skip c a j s :
  find_char c (String.length a + j) (a +:+ s)
  = (λ i, String.length a + i)%nat <$> find_char c j s.
Proof.
  induction a as [|x a IH]; rewrite ?append_cons, ?append_nil_l; cbn [String.length plus find_char].
  - by destruct (find_char c j s).
  - rewrite IH. by destruct (find_char c j s).
Qed.

Lemma find_char_first c tok rest :
  lacks c tok → find_char c 0 (tok +:+ String c rest) = Some (String.length tok).
Proof.
  induction tok as [|x tok IH]; intros Hl; rewrite ?append_cons, ?append_nil_l; cbn [find_char String.length].
  - by rewrite Ascii.eqb_refl.
  - apply lacks_String in Hl as [Hne Hl]. apply Ascii.eqb_neq in Hne. rewrite Hne.
    by rewrite (IH Hl).
Qed.

(** The first [c] at or after the end of [pre], when [tok] lacks it. *)
Lemma find_char_at c pre tok rest :
  lacks c tok →
  find_char c (String.length pre) (pre +:+ tok +:+ String c rest)
  = Some (String.length pre + String.length tok)%nat.
Proof.
  intros Hl. rewrite <- (Nat.add_0_r (String.length pre)) at 1.
  rewrite find_char_skip, find_char_first by done. done.
Qed.

Lemma find_char_none c pre tok :
  lacks c tok → find_char c (String.length pre) (pre +:+ tok) = None.
Proof.
  intros Hl. rewrite <- (Nat.add_0_r (String.length pre)) at 1.
  rewrite find_char_skip. unfold lacks in Hl. by rewrite Hl.
Qed.

Lemma substring_skip a n s :
  String.substring (String.length a) n (a +:+ s) = String.substring 0 n s.
Proof. induction a as [|x a IH]; [done|]. rewrite ?append_cons, ?append_nil_l; cbn [String.length String.substring]. done. Qed.

Lemma substring_head b c : String.substring 0 (String.length b) (b +:+ c) = b.
Proof.
  induction b as [|x b IH]; rewrite ?append_cons, ?append_nil_l; cbn [String.length String.substring].
  - by destruct c.
  - by rewrite IH.
Qed.

(** The piece [tok] of [pre +:+ tok +:+ rest]. *)
Lemma substring_at pre tok rest :
  String.substring (String.length pre) (String.length tok) (pre +:+ tok +:+ rest) = tok.
Proof. by rewrite substring_skip, substring_head. Qed.

Lemma get_at pre c rest : String.get (String.length pre) (pre +:+ String c rest) = Some c.
Proof. induction pre as [|x pre IH]; [done|]. rewrite ?append_cons, ?append_nil_l; cbn [String.length String.get]. done. Qed.

Lemma substr_at pre tok rest n :
  n = size_of tok →
  substr (pre +:+ tok +:+ rest) (size_of pre) n = Done tok.
Proof.
  intros ->. unfold substr. rewrite !size_of_append.
  pose proof (size_of_nonneg tok). pose proof (size_of_nonneg rest).
  pose proof (size_of_nonneg pre).
  assert ((size_of pre >? size_of pre + (size_of tok + size_of rest)) = false) as ->.
  { rewrite Z.gtb_ltb. apply Z.ltb_ge. lia. }
  replace (Z.min (size_of tok) (size_of pre + (size_of tok + size_of rest) - size_of pre))
    with (size_of tok) by lia.
  unfold size_of. rewrite !Nat2Z.id. by rewrite substring_at.
Qed.

Lemma substr_from_at pre tok :
  size_of (pre +:+ tok) < SIZE_MOD →
  substr_from (pre +:+ tok) (size_of pre) = Done tok.
Proof.
  intros Hsz. unfold substr_from, substr. rewrite size_of_append in *.
  pose proof (size_of_nonneg tok). pose proof (size_of_nonneg pre).
  assert ((size_of pre >? size_of pre + size_of tok) = false) as ->.
  { rewrite Z.gtb_ltb. apply Z.ltb_ge. lia. }
  replace (Z.min (SIZE_MOD - 1) (size_of pre + size_of tok - size_of pre))
    with (size_of tok) by lia.
  unfold size_of. rewrite !Nat2Z.id.
  rewrite <- (append_nil_r tok) at 2. by rewrite substring_at.
Qed.
(** ** Decimal numerals *)

(** The value of the digits [d] read after the value [acc]. *)
Fixpoint horner (d : Decimal.uint) (acc : Z) : Z :=
  match d with
  | Decimal.Nil => acc
  | Decimal.D0 l => horner l (10 * acc)
  | Decimal.D1 l => horner l (10 * acc + 1)
  | Decimal.D2 l => horner l (10 * acc + 2)
  | Decimal.D3 l => horner l (10 * acc + 3)
  | Decimal.D4 l => horner l (10 * acc + 4)
  | Decimal.D5 l => horner l (10 * acc + 5)
  | Decimal.D6 l => horner l (10 * acc + 6)
  | Decimal.D7 l => horner l (10 * acc + 7)
  | Decimal.D8 l => horner l (10 * acc + 8)
  | Decimal.D9 l => horner l (10 * acc + 9)
  end.

Lemma horner_acc d : ∀ acc, Z.pos (Pos.of_uint_acc d acc) = horner d (Z.pos acc).
Proof.
  induction d; intros acc; cbn [Pos.of_uint_acc horner]; [done|..];
    rewrite IHd; f_equal; lia.
Qed.

Lemma horner_of_uint d : Z.of_N (Pos.of_uint d) = horner d 0.
Proof.
  induction d; cbn [Pos.of_uint horner]; [done|by rewrite IHd|..];
    cbn [Z.of_N]; by rewrite horner_acc.
Qed.

Lemma horner_to_uint p : horner (Pos.to_uint p) 0 = Z.pos p.
Proof. by rewrite <- horner_of_uint, DecimalPos.Unsigned.of_to. Qed.

(** The digits of [to_string z], without the sign. *)
Definition numeral (z : Z) : Decimal.uint :=
  match z with
  | 0 => Decimal.D0 Decimal.Nil
  | Z.pos p | Z.neg p => Pos.to_uint p
  end.

Lemma numeral_value z : horner (numeral z) 0 = Z.abs z.
Proof. destruct z; [done|apply horner_to_uint..]. Qed.

Lemma numeral_nonnil z : numeral z ≠ Decimal.Nil.
Proof. destruct z; [done|apply DecimalPos.Unsigned.to_uint_nonnil..]. Qed.

Lemma to_string_shape z :
  to_string z
  = (if z <? 0 then "-" else "") +:+ NilEmpty.string_of_uint (numeral z).
Proof.
  unfold to_string, NilZero.string_of_int, NilZero.string_of_uint.
  destruct z as [|p|p]; cbn [Z.to_int numeral Z.ltb Z.compare]; [done|..];
    pose proof (DecimalPos.Unsigned.to_uint_nonnil p) as Hn;
    by destruct (Pos.to_uint p).
Qed.

(** Evaluates [digit_of] and [isspace] on the characters at hand. *)
Ltac eval_chars :=
  repeat match goal with
  | |- context [digit_of ?c] =>
      let v := eval vm_compute in (digit_of c) in change (digit_of c) with v
  | |- context [isspace ?c] =>
      let v := eval vm_compute in (isspace c) in change (isspace c) with v
  end.

Lemma read_digits_numeral d : ∀ rest n acc,
  read_digits (NilEmpty.string_of_uint d +:+ rest) n acc
  = read_digits rest (n + Decimal.nb_digits d) (horner d acc).
Proof.
  induction d; intros rest n acc;
    cbn [NilEmpty.string_of_uint Decimal.nb_digits horner];
    rewrite ?append_nil_l, ?append_cons; [by rewrite Nat.add_0_r|..];
    cbn [read_digits]; eval_chars; cbv iota; rewrite IHd, ?Z.add_0_r; f_equal; lia.
Qed.

Lemma numeral_lacks c d : digit_of c = None → lacks c (NilEmpty.string_of_uint d).
Proof.
  intros Hc. induction d; cbn [NilEmpty.string_of_uint]; [done|..];
    apply lacks_String; (split; [intros <-; vm_compute in Hc; discriminate|done]).
Qed.

Lemma to_string_lacks c z :
  digit_of c = None → c ≠ "-"%char → lacks c (to_string z).
Proof.
  intros Hc Hm. rewrite to_string_shape. apply lacks_append. split.
  - destruct (z <? 0); [|done]. apply lacks_String. by split.
  - by apply numeral_lacks.
Qed.

Lemma to_string_head z : ∃ c s, to_string z = String c s ∧ c ≠ " "%char.
Proof.
  rewrite to_string_shape. destruct (z <? 0).
  - eexists _, _. by split.
  - pose proof (numeral_nonnil z) as Hn. rewrite append_nil_l.
    destruct (numeral z); [done|..]; cbn [NilEmpty.string_of_uint];
      eexists _, _; by split.
Qed.

(** [std::stoi] and [std::stoll] read back what [std::to_string] wrote. *)
Lemma sto_to_string lo hi z : lo ≤ z ≤ hi → sto lo hi (to_string z) = Done z.
Proof.
  intros Hz. rewrite to_string_shape.
  pose proof (numeral_nonnil z) as Hn. pose proof (numeral_value z) as Hv.
  pose proof (read_digits_numeral (numeral z) EmptyString 0 0) as Hr.
  rewrite append_nil_r in Hr. cbn [read_digits] in Hr.
  assert (∃ k, Decimal.nb_digits (numeral z) = S k) as [k Hk].
  { destruct (numeral z); [done|..]; cbn; eauto. }
  rewrite Hk, Hv in Hr. cbn [plus] in Hr.
  assert ((lo <=? z) && (z <=? hi) = true) as Hin.
  { apply andb_true_iff. split; apply Z.leb_le; lia. }
  unfold sto. destruct (Z.ltb_spec z 0) as [Hneg|Hpos].
  - rewrite append_cons, append_nil_l. cbn [skip_space]. eval_chars. cbv iota.
    rewrite Hr. replace (- Z.abs z) with z by lia. by rewrite Hin.
  - rewrite append_nil_l.
    assert (skip_space (NilEmpty.string_of_uint (numeral z))
            = NilEmpty.string_of_uint (numeral z)) as ->.
    { destruct (numeral z); [done|..]; cbn [NilEmpty.string_of_uint skip_space];
        by eval_chars. }
    assert (∀ s : string,
              s = NilEmpty.string_of_uint (numeral z) →
              match s with
              | String "-" s' => (true, s')
              | String "+" s' => (false, s')
              | _ => (false, s)
              end = (false, s)) as Hsign.
    { intros s ->. destruct (numeral z); [done|..]; reflexivity. }
    rewrite (Hsign _ eq_refl), Hr. replace (Z.abs z) with z by lia. by rewrite Hin.
Qed.

Lemma stoi_to_string z : - 2 ^ 31 ≤ z ≤ INT_MAX → stoi (to_string z) = Done z.
Proof. apply sto_to_string. Qed.

Lemma stoll_to_string z : INT64_MIN ≤ z ≤ INT64_MAX → stoll (to_string z) = Done z.
Proof. apply sto_to_string. Qed.
(** ** Tokens of a record line *)

Section TokenFacts.
Import Rdb.

(** A token: not empty and without a blank. *)
Definition token (tok : string) : Prop :=
  lacks " "%char tok ∧ tok ≠ EmptyString.

Lemma to_string_token z : token (to_string z).
Proof.
  split; [by apply to_string_lacks|].
  destruct (to_string_head z) as (c & s & -> & _). done.
Qed.

Lemma skip_blanks_token fuel pre tok rest :
  token tok → skip_blanks fuel (pre +:+ tok +:+ rest) (size_of pre) = size_of pre.
Proof.
  intros [Hl Hne]. destruct fuel as [|fuel]; [done|]. cbn [skip_blanks].
  destruct tok as [|c tok]; [done|]. apply lacks_String in Hl as [Hc _].
  rewrite to_nat_size_of, append_cons, get_at.
  rewrite (bool_decide_eq_false_2 (Some c = Some " "%char)) by congruence.
  by rewrite andb_false_r.
Qed.

(** A token followed by a blank. *)
Lemma nextTok_mid pre tok rest :
  token tok →
  nextTok (pre +:+ tok +:+ String " " rest) (size_of pre)
  = Done (tok, size_of pre + size_of tok + 1).
Proof.
  intros Htok. unfold nextTok. rewrite (skip_blanks_token _ _ _ _ Htok).
  destruct Htok as [Hl Hne].
  assert ((size_of pre <? size_of (pre +:+ tok +:+ String " " rest)) = true) as ->.
  { apply Z.ltb_lt. rewrite !size_of_append, size_of_String.
    pose proof (size_of_nonneg tok). pose proof (size_of_nonneg rest). lia. }
  rewrite to_nat_size_of, (find_char_at _ _ _ _ Hl).
  rewrite Nat2Z.inj_add. fold (size_of pre) (size_of tok).
  replace (size_of pre + size_of tok - size_of pre) with (size_of tok) by lia.
  rewrite substr_at by done. by run.
Qed.

(** The last token of the line. *)
Lemma nextTok_last pre tok :
  token tok → size_of (pre +:+ tok) < SIZE_MOD →
  nextTok (pre +:+ tok) (size_of pre) = Done (tok, size_of (pre +:+ tok)).
Proof.
  intros Htok Hsz. unfold nextTok.
  assert (∀ fuel, skip_blanks fuel (pre +:+ tok) (size_of pre) = size_of pre) as ->.
  { intros fuel. pose proof (skip_blanks_token fuel pre tok EmptyString Htok) as H.
    by rewrite append_nil_r in H. }
  destruct Htok as [Hl Hne].
  rewrite to_nat_size_of, (find_char_none _ _ _ Hl).
  destruct (_ <? _); rewrite substr_from_at by done; by run.
Qed.

(** A length, a blank, that many bytes and a blank. *)
Lemma sized_mid pre bytes rest :
  size_of bytes ≤ INT_MAX →
  size_of (pre +:+ to_string (size_of bytes) +:+ String " " (bytes +:+ String " " rest))
    < SIZE_MOD →
  sized (pre +:+ to_string (size_of bytes) +:+ String " " (bytes +:+ String " " rest))
    (size_of pre)
  = Done (bytes,
          size_of (pre +:+ to_string (size_of bytes) +:+ String " " (bytes +:+ " "))).
Proof.
  intros Hmax Hsz. unfold sized.
  rewrite (nextTok_mid _ _ _ (to_string_token _)). run.
  pose proof (size_of_nonneg bytes) as H0.
  rewrite stoi_to_string by lia. run.
  unfold to_size_t. rewrite !size_of_append, !size_of_String, !size_of_append in *.
  rewrite size_of_String in *.
  pose proof (size_of_nonneg pre). pose proof (size_of_nonneg rest).
  pose proof (size_of_nonneg (to_string (size_of bytes))).
  rewrite (Z.mod_small (size_of bytes)) by (unfold SIZE_MOD in *; lia).
  assert (pre +:+ to_string (size_of bytes) +:+ String " " (bytes +:+ String " " rest)
          = (pre +:+ to_string (size_of bytes) +:+ " ") +:+ bytes +:+ String " " rest) as ->.
  { by rewrite !append_assoc, append_cons, append_nil_l. }
  assert (size_of pre + size_of (to_string (size_of bytes)) + 1
          = size_of (pre +:+ to_string (size_of bytes) +:+ " ")) as ->.
  { rewrite !size_of_append. change (size_of " ") with 1. lia. }
  rewrite substr_at by done. run. f_equal. f_equal.
  rewrite !size_of_append. change (size_of " ") with 1. change (size_of EmptyString) with 0.
  rewrite Z.mod_small; unfold SIZE_MOD in *; lia.
Qed.

(** The line of a scalar record, without the newline. *)
Definition str_line (key value : string) (exp : Z) : string :=
  to_string (size_of key) +:+ String " " (key +:+ String " "
    (to_string (size_of value) +:+ String " " (value +:+ String " " (to_string exp)))).

Lemma str_rec_line kv :
  str_rec kv
  = str_line kv.1 (ValueRecord.value kv.2) (ValueRecord.expire_at_ms kv.2) +:+ nl.
Proof.
  unfold str_rec, str_line, sp. by rewrite !append_assoc, !append_cons, !append_nil_l,
    !append_assoc, !append_cons, !append_assoc, !append_cons, !append_assoc.
Qed.

(** [parse_str] reads back the record behind a line, whatever bytes the
    key and the value are made of. *)
Lemma parse_str_line key value exp :
  size_of key ≤ INT_MAX → size_of value ≤ INT_MAX →
  INT64_MIN ≤ exp ≤ INT64_MAX →
  size_of (str_line key value exp) < SIZE_MOD →
  parse_str (str_line key value exp) = Done (key, value, exp).
Proof.
  intros Hk Hv He Hsz. unfold parse_str, str_line in *.
  pose proof (sized_mid EmptyString key
                (to_string (size_of value) +:+ String " " (value +:+ String " " (to_string exp))))
    as H1.
  rewrite !append_nil_l in H1. change (size_of EmptyString) with 0 in H1.
  rewrite H1 by done. run. clear H1.
  set (pre1 := to_string (size_of key) +:+ String " " (key +:+ " ")).
  assert (to_string (size_of key) +:+ String " " (key +:+ String " "
            (to_string (size_of value) +:+ String " " (value +:+ String " " (to_string exp))))
          = pre1 +:+ to_string (size_of value) +:+ String " " (value +:+ String " " (to_string exp)))
    as Hline.
  { subst pre1. by rewrite !append_assoc, !append_cons, !append_assoc, !append_cons,
      !append_nil_l. }
  rewrite Hline in *.
  rewrite (sized_mid pre1 value (to_string exp)) by done. run.
  set (pre2 := pre1 +:+ to_string (size_of value) +:+ String " " (value +:+ " ")).
  assert (pre1 +:+ to_string (size_of value) +:+ String " " (value +:+ String " " (to_string exp))
          = pre2 +:+ to_string exp) as Hline2.
  { subst pre2. by rewrite !append_assoc, !append_cons, !append_assoc, !append_cons,
      !append_nil_l. }
  rewrite Hline2 in *.
  rewrite (nextTok_last pre2 _ (to_string_token exp)) by done. run.
  rewrite stoll_to_string by done. by run.
Qed.

End TokenFacts.
(** ** A snapshot of scalar records, written and read back *)

Section RoundTrip.
Import KeyValueStore Rdb.

Variable to_string_double : float → string.
Variable stod : string → outcome float.

(** Puts a concatenation in its right-nested form. *)
Ltac str_norm := unfold nl, sp; rewrite ?append_assoc, ?append_cons, ?append_nil_l.

(** The record lines of [recs], then [rest]. *)
Fixpoint records (recs : list (string * ValueRecord.t)) (rest : string) : string :=
  match recs with
  | [] => rest
  | kv :: recs' => str_rec kv +:+ records recs' rest
  end.

(** The data of the [write] calls, one after the other. *)
Fixpoint joined (cs : list (string * string)) : string :=
  match cs with
  | [] => EmptyString
  | c :: cs' => c.1 +:+ joined cs'
  end.

Lemma write_all_joined cs : ∀ acc,
  write_all None cs acc = (true, EmptyString, acc +:+ joined cs).
Proof.
  induction cs as [|[d msg] cs IH]; intros acc; cbn [write_all joined fst].
  - by rewrite append_nil_r.
  - by rewrite IH, append_assoc.
Qed.

Lemma joined_records recs tail :
  joined (map (λ kv, (str_rec kv, "write str rec")) recs ++ tail)
  = records recs (joined tail).
Proof.
  induction recs as [|kv recs IH]; [done|].
  cbn [map app joined records fst]. by rewrite IH.
Qed.

(** The bytes of a snapshot that holds scalar records only. *)
Definition scalar_file (recs : list (string * ValueRecord.t)) : string :=
  "MRDB2" +:+ nl +:+ "STR " +:+ to_string (Z.of_nat (length recs)) +:+ nl
  +:+ records recs ("HASH 0" +:+ nl +:+ "ZSET 0" +:+ nl).

Lemma rendered_scalars recs : rendered to_string_double recs [] [] = scalar_file recs.
Proof.
  unfold rendered, chunks. rewrite write_all_joined. cbn [snd map concat length].
  change (to_string (Z.of_nat 0)) with "0".
  rewrite append_nil_l. cbn [app joined fst].
  rewrite joined_records. unfold scalar_file. cbn [joined fst].
  rewrite append_nil_r. str_norm. reflexivity.
Qed.

Lemma and_then_Go {A B} (a : A) (f : A → outcome (step B)) :
  and_then (Done (@Go _ a)) f = f a.
Proof. reflexivity. Qed.

Lemma lift_Done {A} (a : A) : lift (Done a) = Done (@Go _ a).
Proof. reflexivity. Qed.

(** Runs the parts of [load] that have gone through. *)
Ltac go := repeat (cbv beta iota; rewrite ?lift_Done, ?and_then_Go, ?bind_Done_l).

Lemma readLine_at file pre line rest :
  file = pre +:+ line +:+ String "010" rest → lacks "010"%char line →
  readLine file (String.length pre)
  = Some (line, String.length (pre +:+ line +:+ nl)).
Proof.
  intros -> Hl. unfold readLine. rewrite (find_char_at _ _ _ _ Hl).
  replace (String.length pre + String.length line - String.length pre)%nat
    with (String.length line) by lia.
  rewrite substring_at. f_equal. f_equal.
  rewrite !length_append. cbn. lia.
Qed.

Lemma read_or_at file pre line rest err w :
  file = pre +:+ line +:+ String "010" rest → lacks "010"%char line →
  read_or file (String.length pre) err w
  = Done (@Go _ (line, String.length (pre +:+ line +:+ nl))).
Proof. intros Hf Hl. unfold read_or. by rewrite (readLine_at _ _ _ _ Hf Hl). Qed.

(** A section line: the tag and the count. *)
Lemma section_count_at tag err n w :
  (∀ s, String.prefix tag (tag +:+ s) = true) →
  0 ≤ n ≤ INT_MAX → size_of (tag +:+ to_string n) < SIZE_MOD →
  section_count tag err (tag +:+ to_string n) w = Done (@Go _ (Z.to_nat n)).
Proof.
  intros Hp Hn Hsz. unfold section_count. rewrite Hp.
  rewrite (substr_from_at tag (to_string n) Hsz). go.
  rewrite stoi_to_string by (unfold INT_MAX in *; lia). by go.
Qed.

(** A record that fits the format: no newline in the key or the value,
    lengths that fit an [int], an expiry time that fits an [int64_t]. *)
Definition storable (kv : string * ValueRecord.t) : Prop :=
  lacks "010"%char kv.1 ∧ lacks "010"%char (ValueRecord.value kv.2)
  ∧ size_of kv.1 ≤ INT_MAX ∧ size_of (ValueRecord.value kv.2) ≤ INT_MAX
  ∧ INT64_MIN ≤ ValueRecord.expire_at_ms kv.2 ≤ INT64_MAX.

Lemma str_line_lacks_newline kv :
  storable kv →
  lacks "010"%char (str_line kv.1 (ValueRecord.value kv.2) (ValueRecord.expire_at_ms kv.2)).
Proof.
  intros (Hk & Hv & _). unfold str_line.
  assert (∀ z, lacks "010"%char (to_string z)) as Hnum
    by (intros z; by apply to_string_lacks).
  apply lacks_append; split; [done|]. apply lacks_String; split; [done|].
  apply lacks_append; split; [done|]. apply lacks_String; split; [done|].
  apply lacks_append; split; [done|]. apply lacks_String; split; [done|].
  apply lacks_append; split; [done|]. apply lacks_String; split; [done|]. done.
Qed.

(** The engine after the records [recs] have been stored in turn. *)
Definition restore (recs : list (string * ValueRecord.t)) (s : KeyValueStore.t)
    : KeyValueStore.t :=
  foldl (λ s kv, (setWithExpireAtMs s kv.1 (ValueRecord.value kv.2)
                    (ValueRecord.expire_at_ms kv.2)).2) s recs.

(** The loop over the scalar records reads every record line. *)
Lemma load_strs_records recs : ∀ pre rest file w err,
  file = pre +:+ records recs rest → size_of file < SIZE_MOD →
  Forall storable recs →
  load_strs (length recs) err file (String.length pre) w
  = Done (@Go _ (String.length (pre +:+ records recs EmptyString),
                 with_engine w (restore recs (engine w)))).
Proof.
  induction recs as [|kv recs IH]; intros pre rest file w err Hfile Hsz Hok.
  { cbn [length load_strs records restore foldl]. rewrite append_nil_r.
    by destruct w. }
  apply Forall_cons in Hok as [Hkv Hok].
  cbn [length load_strs records] in *. rewrite str_rec_line in Hfile.
  set (line := str_line kv.1 (ValueRecord.value kv.2) (ValueRecord.expire_at_ms kv.2)) in *.
  assert (file = pre +:+ line +:+ String "010" (records recs rest)) as Hfile1.
  { rewrite Hfile. by str_norm. }
  rewrite (read_or_at _ _ _ _ _ _ Hfile1 (str_line_lacks_newline _ Hkv)). go.
  destruct Hkv as (_ & _ & Hk & Hv & He).
  assert (size_of line < SIZE_MOD) as Hline.
  { rewrite Hfile1, !size_of_append in Hsz.
    pose proof (size_of_nonneg pre). pose proof (size_of_nonneg (String "010" (records recs rest))).
    lia. }
  pose proof (parse_str_line _ _ _ Hk Hv He Hline) as Hparse. fold line in Hparse.
  rewrite Hparse. go.
  assert (file = (pre +:+ line +:+ nl) +:+ records recs rest) as Hfile2.
  { rewrite Hfile1. by str_norm. }
  rewrite (IH _ _ _ _ _ Hfile2 Hsz Hok). f_equal. f_equal. f_equal.
  f_equal. rewrite str_rec_line. fold line. by str_norm.
Qed.

(** [load] on the bytes of a snapshot of scalar records stores them in
    turn, and reads neither the clock nor [rand()]. *)
Lemma load_scalar_file recs w :
  Forall storable recs → Z.of_nat (length recs) ≤ INT_MAX →
  size_of (scalar_file recs) < SIZE_MOD →
  load stod true (Content (scalar_file recs)) w
  = Done (true, EmptyString, with_engine w (restore recs (engine w))).
Proof.
  intros Hok Hn Hsz. unfold load. cbn [negb]. unfold load_text.
  set (file := scalar_file recs) in *.
  set (tail := ("HASH " +:+ to_string 0) +:+ nl +:+ ("ZSET " +:+ to_string 0) +:+ nl).
  set (count := Z.of_nat (length recs)) in *.
  assert (∀ tag tok rest : string,
            size_of (tag +:+ tok) ≤ size_of (tag +:+ tok +:+ rest)) as Hpart.
  { intros tag tok rest. rewrite !size_of_append. pose proof (size_of_nonneg rest). lia. }
  assert (∀ pre line rest : string,
            file = pre +:+ line +:+ rest → size_of line < SIZE_MOD) as Hshort.
  { intros pre line rest Hf. rewrite Hf, !size_of_append in Hsz.
    pose proof (size_of_nonneg pre). pose proof (size_of_nonneg rest). lia. }
  (* the magic *)
  assert (file = EmptyString +:+ "MRDB2"
                 +:+ String "010" (("STR " +:+ to_string count) +:+ nl +:+ records recs tail))
    as Hf0.
  { subst file tail. unfold scalar_file. by str_norm. }
  assert (lacks "010"%char "MRDB2") as Hl0 by (vm_compute; reflexivity).
  pose proof (read_or_at _ _ _ _ "bad magic" w Hf0 Hl0) as Hr0.
  change (String.length EmptyString) with O in Hr0. rewrite Hr0. go.
  change (String.eqb "MRDB2" "MRDB1") with false.
  change (negb (String.eqb "MRDB2" "MRDB2")) with false. cbv iota.
  (* the count of scalar records *)
  set (pre1 := EmptyString +:+ "MRDB2" +:+ nl).
  assert (file = pre1 +:+ ("STR " +:+ to_string count)
                 +:+ String "010" (records recs tail)) as Hf1.
  { rewrite Hf0. subst pre1. by str_norm. }
  assert (∀ (tag : string) z, lacks "010"%char tag →
            lacks "010"%char (tag +:+ to_string z)) as Hltag.
  { intros tag z Ht. apply lacks_append. split; [done|by apply to_string_lacks]. }
  rewrite (read_or_at _ _ _ _ _ _ Hf1 (Hltag "STR " _ eq_refl)). go.
  rewrite section_count_at;
    [|intros []; reflexivity|subst count; lia|by eapply Hshort]. go.
  subst count. rewrite Nat2Z.id.
  (* the records *)
  set (pre2 := pre1 +:+ ("STR " +:+ to_string (Z.of_nat (length recs))) +:+ nl).
  assert (file = pre2 +:+ records recs tail) as Hf2.
  { rewrite Hf1. subst pre2. by str_norm. }
  rewrite (load_strs_records recs pre2 tail file w _ Hf2 Hsz Hok). go.
  (* the two empty sections *)
  set (pre3 := pre2 +:+ records recs EmptyString).
  assert (∀ rest, records recs EmptyString +:+ rest = records recs rest) as Hrecs.
  { intros rest. clear. induction recs as [|kv recs IH]; [done|].
    cbn [records]. by rewrite append_assoc, IH. }
  assert (file = pre3 +:+ ("HASH " +:+ to_string 0)
                 +:+ String "010" (("ZSET " +:+ to_string 0) +:+ nl)) as Hf4.
  { rewrite Hf2, <- (Hrecs tail). subst pre3 tail. by str_norm. }
  rewrite (read_or_at _ _ _ _ _ _ Hf4 (Hltag "HASH " _ eq_refl)). go.
  rewrite section_count_at; [|intros []; reflexivity|done|by eapply Hshort]. go.
  change (Z.to_nat 0) with O. cbn [load_hashes]. go.
  set (pre4 := pre3 +:+ ("HASH " +:+ to_string 0) +:+ nl).
  assert (file = pre4 +:+ ("ZSET " +:+ to_string 0) +:+ String "010" EmptyString) as Hf5.
  { rewrite Hf4. subst pre4. by str_norm. }
  rewrite (read_or_at _ _ _ _ _ _ Hf5 (Hltag "ZSET " _ eq_refl)). go.
  rewrite section_count_at; [|intros []; reflexivity|done|by eapply Hshort]. go.
  change (Z.to_nat 0) with O. cbn [load_zsets]. by go.
Qed.

Lemma restore_snoc recs kv s :
  restore (recs ++ [kv]) s
  = (setWithExpireAtMs (restore recs s) kv.1 (ValueRecord.value kv.2)
       (ValueRecord.expire_at_ms kv.2)).2.
Proof. unfold restore. by rewrite foldl_app. Qed.

(** Storing the records of a snapshot in the empty engine gives back the
    engine the snapshot was taken from. *)
Lemma restore_maps recs :
  NoDup recs.*1 →
  map_ (restore recs empty) = list_to_map recs
  ∧ hmap_ (restore recs empty) = ∅ ∧ zmap_ (restore recs empty) = ∅
  ∧ ∀ k, expire_index_ (restore recs empty) !! k
         = r ← (list_to_map recs : gmap string ValueRecord.t) !! k;
           if ValueRecord.expire_at_ms r >=? 0
           then Some (ValueRecord.expire_at_ms r) else None.
Proof.
  induction recs as [|[k0 r0] recs IH] using rev_ind; intros Hnd.
  { cbn. split; [done|]. split; [done|]. split; [done|]. intros k. by rewrite !lookup_empty. }
  rewrite fmap_app in Hnd. apply NoDup_app in Hnd as (Hnd & Hdisj & _).
  assert (k0 ∉ recs.*1) as Hk0.
  { intros Hin. apply (Hdisj k0 Hin). cbn. by left. }
  destruct (IH Hnd) as (Hm & Hh & Hz & Hi). clear IH.
  rewrite restore_snoc. unfold setWithExpireAtMs.
  cbn [fst snd map_ hmap_ zmap_ expire_index_].
  rewrite list_to_map_snoc by done. rewrite Hm.
  assert (ValueRecord.mk (ValueRecord.value r0) (ValueRecord.expire_at_ms r0) = r0) as ->
    by (by destruct r0).
  split; [done|]. split; [done|]. split; [done|].
  intros k. destruct (decide (k = k0)) as [->|Hne].
  - rewrite lookup_insert_eq. cbn.
    destruct (ValueRecord.expire_at_ms r0 >=? 0); [by rewrite lookup_insert_eq|].
    rewrite Hi. by rewrite (not_elem_of_list_to_map_1 _ _ Hk0).
  - rewrite lookup_insert_ne by done.
    destruct (ValueRecord.expire_at_ms r0 >=? 0); [rewrite lookup_insert_ne by done|];
      apply Hi.
Qed.

Lemma restore_snapshot s :
  hmap_ s = ∅ → zmap_ s = ∅ → scalar_indexed s → restore (snapshot s) empty = s.
Proof.
  intros Hh Hz Hi. unfold snapshot.
  destruct (restore_maps (map_to_list (map_ s))) as (Hm' & Hh' & Hz' & Hi').
  { apply NoDup_fst_map_to_list. }
  rewrite list_to_map_to_list in *.
  destruct (restore _ _) as [m h z i], s as [m0 h0 z0 i0]. cbn in *. subst.
  f_equal. apply map_eq. intros k. by rewrite Hi', Hi.
Qed.

(** X27.  An engine that holds scalar records only, with an exact
    expiry index, no newline in a key or a value and lengths that fit an
    [int], is restored exactly by [load] from the bytes [save] writes from
    its snapshots; the clock and [rand()] are not read. *)
Theorem load_restores_scalar_engine (s : KeyValueStore.t) (c : Clock) (g : Rand) :
  hmap_ s = ∅ → zmap_ s = ∅ → scalar_indexed s →
  (∀ k r, map_ s !! k = Some r → storable (k, r)) →
  Z.of_nat (size (map_ s)) ≤ INT_MAX →
  ∃ out,
    snapshotZSet_out s = Done out
    ∧ (size_of (rendered to_string_double (snapshot s) (snapshotHash s) out) < SIZE_MOD →
       load stod true
         (Content (rendered to_string_double (snapshot s) (snapshotHash s) out))
         (mkWorld empty c g)
       = Done (true, EmptyString, mkWorld s c g)).
Proof.
  intros Hh Hz Hi Hok Hn. exists [].
  unfold snapshotZSet_out, snapshotHash. rewrite Hh, Hz, !map_to_list_empty.
  split; [done|]. rewrite rendered_scalars. intros Hsz.
  assert (Forall storable (snapshot s)) as Hall.
  { apply Forall_forall. intros [k r] Hin. apply Hok. by apply elem_of_map_to_list. }
  assert (Z.of_nat (length (snapshot s)) ≤ INT_MAX) as Hlen.
  { unfold snapshot. by rewrite length_map_to_list. }
  rewrite (load_scalar_file _ _ Hall Hlen Hsz).
  unfold with_engine. cbn [engine clock rng]. by rewrite restore_snapshot.
Qed.

(** The loop over the scalar records when the file ends before the count
    is reached: the records read so far stay in the engine. *)
Lemma load_strs_truncated recs : ∀ pre file w err k,
  file = pre +:+ records recs EmptyString → size_of file < SIZE_MOD →
  Forall storable recs →
  load_strs (length recs + S k) err file (String.length pre) w
  = Done (@Fail _ err (with_engine w (restore recs (engine w)))).
Proof.
  induction recs as [|kv recs IH]; intros pre file w err k Hfile Hsz Hok.
  { cbn [length plus load_strs records restore foldl] in *. unfold read_or, readLine.
    rewrite Hfile, (find_char_none _ pre EmptyString) by done. by destruct w. }
  apply Forall_cons in Hok as [Hkv Hok].
  cbn [length plus load_strs records] in *. rewrite str_rec_line in Hfile.
  set (line := str_line kv.1 (ValueRecord.value kv.2) (ValueRecord.expire_at_ms kv.2)) in *.
  assert (file = pre +:+ line +:+ String "010" (records recs EmptyString)) as Hfile1.
  { rewrite Hfile. by str_norm. }
  rewrite (read_or_at _ _ _ _ _ _ Hfile1 (str_line_lacks_newline _ Hkv)). go.
  destruct Hkv as (_ & _ & Hk & Hv & He).
  assert (size_of line < SIZE_MOD) as Hline.
  { rewrite Hfile1, !size_of_append in Hsz.
    pose proof (size_of_nonneg pre).
    pose proof (size_of_nonneg (String "010" (records recs EmptyString))). lia. }
  pose proof (parse_str_line _ _ _ Hk Hv He Hline) as Hparse. fold line in Hparse.
  rewrite Hparse. go.
  assert (file = (pre +:+ line +:+ nl) +:+ records recs EmptyString) as Hfile2.
  { rewrite Hfile1. by str_norm. }
  rewrite (IH _ _ _ _ _ Hfile2 Hsz Hok). by destruct w.
Qed.

(** The bytes of a snapshot cut after the scalar records [recs], the
    count line announcing [n] of them. *)
Definition cut_file (n : Z) (recs : list (string * ValueRecord.t)) : string :=
  "MRDB2" +:+ nl +:+ "STR " +:+ to_string n +:+ nl +:+ records recs EmptyString.

(** X28.  [load] does not undo what it has done: on a snapshot that
    ends before the announced number of scalar records it returns false
    with the message of the truncation, and the records read until then
    are in the engine. *)
Theorem load_truncated_keeps_records (n : Z) (recs : list (string * ValueRecord.t))
    (w : world) :
  Forall storable recs → Z.of_nat (length recs) < n ≤ INT_MAX →
  size_of (cut_file n recs) < SIZE_MOD →
  load stod true (Content (cut_file n recs)) w
  = Done (false, "trunc str rec", with_engine w (restore recs (engine w))).
Proof.
  intros Hok Hn Hsz. unfold load. cbn [negb]. unfold load_text.
  set (file := cut_file n recs) in *.
  assert (file = EmptyString +:+ "MRDB2"
                 +:+ String "010" (("STR " +:+ to_string n) +:+ nl
                                   +:+ records recs EmptyString)) as Hf0.
  { subst file. unfold cut_file. by str_norm. }
  assert (lacks "010"%char "MRDB2") as Hl0 by (vm_compute; reflexivity).
  pose proof (read_or_at _ _ _ _ "bad magic" w Hf0 Hl0) as Hr0.
  change (String.length EmptyString) with O in Hr0. rewrite Hr0. go.
  change (String.eqb "MRDB2" "MRDB1") with false.
  change (negb (String.eqb "MRDB2" "MRDB2")) with false. cbv iota.
  set (pre1 := EmptyString +:+ "MRDB2" +:+ nl).
  assert (file = pre1 +:+ ("STR " +:+ to_string n)
                 +:+ String "010" (records recs EmptyString)) as Hf1.
  { rewrite Hf0. subst pre1. by str_norm. }
  assert (lacks "010"%char ("STR " +:+ to_string n)) as Hl1.
  { apply lacks_append. split; [done|by apply to_string_lacks]. }
  rewrite (read_or_at _ _ _ _ _ _ Hf1 Hl1). go.
  rewrite section_count_at; [|intros []; reflexivity|lia|].
  2:{ rewrite Hf1, !size_of_append in Hsz. rewrite size_of_append.
      pose proof (size_of_nonneg pre1).
      pose proof (size_of_nonneg (String "010" (records recs EmptyString))). lia. }
  go.
  set (pre2 := pre1 +:+ ("STR " +:+ to_string n) +:+ nl).
  assert (file = pre2 +:+ records recs EmptyString) as Hf2.
  { rewrite Hf1. subst pre2. by str_norm. }
  assert (Z.to_nat n = (length recs + S (Z.to_nat n - length recs - 1))%nat) as ->
    by lia.
  rewrite (load_strs_truncated recs pre2 file w _ _ Hf2 Hsz Hok). by go.
Qed.

(** The bytes of a snapshot in the older format, which holds scalar
    records only. *)
Definition legacy_file (recs : list (string * ValueRecord.t)) : string :=
  "MRDB1" +:+ nl +:+ to_string (Z.of_nat (length recs)) +:+ nl
  +:+ records recs EmptyString.

(** X29.  A snapshot in the older format [MRDB1] loads as well: its
    records are stored in turn, and the field maps and ordered sets of the
    engine are left as they are. *)
Theorem load_reads_legacy_format (recs : list (string * ValueRecord.t)) (w : world) :
  Forall storable recs → Z.of_nat (length recs) ≤ INT_MAX →
  size_of (legacy_file recs) < SIZE_MOD →
  load stod true (Content (legacy_file recs)) w
  = Done (true, EmptyString, with_engine w (restore recs (engine w)))
  ∧ hmap_ (restore recs (engine w)) = hmap_ (engine w)
  ∧ zmap_ (restore recs (engine w)) = zmap_ (engine w).
Proof.
  intros Hok Hn Hsz. split.
  - unfold load. cbn [negb]. unfold load_text.
    set (file := legacy_file recs) in *.
    set (count := Z.of_nat (length recs)) in *.
    assert (file = EmptyString +:+ "MRDB1"
                   +:+ String "010" (to_string count +:+ nl
                                     +:+ records recs EmptyString)) as Hf0.
    { subst file. unfold legacy_file. by str_norm. }
    assert (lacks "010"%char "MRDB1") as Hl0 by (vm_compute; reflexivity).
    pose proof (read_or_at _ _ _ _ "bad magic" w Hf0 Hl0) as Hr0.
    change (String.length EmptyString) with O in Hr0. rewrite Hr0. go.
    change (String.eqb "MRDB1" "MRDB1") with true. cbv iota.
    set (pre1 := EmptyString +:+ "MRDB1" +:+ nl).
    assert (file = pre1 +:+ to_string count
                   +:+ String "010" (records recs EmptyString)) as Hf1.
    { rewrite Hf0. subst pre1. by str_norm. }
    assert (lacks "010"%char (to_string count)) as Hl1 by (by apply to_string_lacks).
    rewrite (read_or_at _ _ _ _ _ _ Hf1 Hl1). go.
    rewrite stoi_to_string by (subst count; unfold INT_MAX in *; lia). go.
    subst count. rewrite Nat2Z.id.
    set (pre2 := pre1 +:+ to_string (Z.of_nat (length recs)) +:+ nl).
    assert (file = pre2 +:+ records recs EmptyString) as Hf2.
    { rewrite Hf1. subst pre2. by str_norm. }
    rewrite (load_strs_records recs pre2 EmptyString file w _ Hf2 Hsz Hok). by go.
  - clear. generalize (engine w). induction recs as [|kv recs IH] using rev_ind; intros s.
    + done.
    + rewrite restore_snoc. unfold setWithExpireAtMs. cbn [snd hmap_ zmap_]. apply IH.
Qed.

End RoundTrip.
(** One scalar record that expires at 150. *)
Definition one_record : list (string * ValueRecord.t) := [("k", ValueRecord.mk "v" 150)].

Lemma one_record_storable : Forall storable one_record.
Proof.
  repeat constructor; vm_compute; (reflexivity || discriminate).
Qed.

Lemma two_scalars_storable k r :
  KeyValueStore.map_ two_scalars !! k = Some r → storable (k, r).
Proof.
  unfold two_scalars. cbn [KeyValueStore.map_]. intros H.
  apply lookup_insert_Some in H as [[<- <-]|[_ H]].
  { repeat constructor; vm_compute; (reflexivity || discriminate). }
  apply lookup_insert_Some in H as [[<- <-]|[_ H]].
  { repeat constructor; vm_compute; (reflexivity || discriminate). }
  by rewrite lookup_empty in H.
Qed.

Lemma two_scalars_indexed : scalar_indexed two_scalars.
Proof.
  exact (scalar_indexed_put _ "p" "q" (-1)
           (scalar_indexed_put KeyValueStore.empty "k" "v" 150 scalar_indexed_empty)).
Qed.

Lemma load_restores_scalar_engine_witness :
  ∃ out,
    KeyValueStore.snapshotZSet_out two_scalars = Done out
    ∧ Rdb.load stod_one true
        (Rdb.Content (rendered to_string_one (KeyValueStore.snapshot two_scalars)
                        (KeyValueStore.snapshotHash two_scalars) out))
        (Rdb.mkWorld KeyValueStore.empty clock0 draws_high)
      = Done (true, EmptyString, Rdb.mkWorld two_scalars clock0 draws_high).
Proof.
  destruct (load_restores_scalar_engine to_string_one stod_one two_scalars clock0 draws_high)
    as (out & Hout & Hload).
  - reflexivity.
  - reflexivity.
  - exact two_scalars_indexed.
  - exact two_scalars_storable.
  - vm_compute. discriminate.
  - exists out. split; [exact Hout|]. apply Hload.
    vm_compute in Hout. injection Hout as <-. vm_compute. reflexivity.
Defined.

Lemma load_truncated_keeps_records_witness :
  Rdb.load stod_one true (Rdb.Content (cut_file 3 one_record)) (world0 KeyValueStore.empty)
  = Done (false, "trunc str rec",
          Rdb.with_engine (world0 KeyValueStore.empty)
            (restore one_record KeyValueStore.empty))
  ∧ (KeyValueStore.get (restore one_record KeyValueStore.empty) "k" 0).1 = Some "v".
Proof.
  split; [|vm_compute; reflexivity].
  apply (load_truncated_keeps_records stod_one 3 one_record (world0 KeyValueStore.empty)).
  - exact one_record_storable.
  - vm_compute. split; [reflexivity|discriminate].
  - vm_compute. reflexivity.
Defined.

Lemma load_reads_legacy_format_witness :
  Rdb.load stod_one true (Rdb.Content (legacy_file one_record)) (world0 spaced)
  = Done (true, EmptyString,
          Rdb.with_engine (world0 spaced) (restore one_record spaced))
  ∧ KeyValueStore.hmap_ (restore one_record spaced) = KeyValueStore.hmap_ spaced
  ∧ KeyValueStore.zmap_ (restore one_record spaced) = KeyValueStore.zmap_ spaced.
Proof.
  apply (load_reads_legacy_format stod_one one_record (world0 spaced)).
  - exact one_record_storable.
  - vm_compute. discriminate.
  - vm_compute. reflexivity.
Defined.
(** ** Expiry commands and the other families *)

Section OtherFamilies.
Import KeyValueStore.

(** X30.  [EXPIRE] and [TTL] see scalar records only: after [HSET] on a
    name without a scalar record, [expire] returns false and [ttl] -2,
    both leaving the engine as it is, while [exists] returns true and
    [hget] the value. *)
Theorem expire_ignores_field_maps s key field value secs now :
  map_ s !! key = None →
  let s1 := (hset s key field value now).2 in
  expire s1 key secs now = Done (false, s1)
  ∧ ttl s1 key now = Done (-2, s1)
  ∧ (exists_ s1 key now).1 = true
  ∧ (hget s1 key field now).1 = Some value.
Proof.
  intros Hnone s1.
  assert (map_ s1 !! key = None) as Hnone1.
  { subst s1. unfold hset. cbv zeta.
    assert (map_ (cleanupIfExpiredHash s key now) = map_ s) as Hm.
    { unfold cleanupIfExpiredHash. destruct (hmap_ s !! key); [destruct isExpired|]; done. }
    destruct (HashRecord.fields _ !! field); cbn [snd with_hmap map_]; by rewrite Hm. }
  assert (cleanupIfExpired s1 key now = s1) as Hclean.
  { unfold cleanupIfExpired. by rewrite Hnone1. }
  assert (is_Some (hmap_ s1 !! key)) as Hsome.
  { subst s1. unfold hset. cbv zeta.
    destruct (HashRecord.fields _ !! field); cbn [snd with_hmap hmap_];
      rewrite lookup_insert_eq; eauto. }
  split; [|split; [|split]].
  - unfold expire. by rewrite Hclean, Hnone1.
  - unfold ttl. by rewrite Hclean, Hnone1.
  - unfold exists_. cbn [fst]. rewrite Hclean.
    rewrite (bool_decide_eq_true_2 _ Hsome). by rewrite orb_true_r.
  - subst s1. rewrite hget_live, live_fields_hset. apply lookup_insert_eq.
Qed.

Lemma expire_ignores_field_maps_witness :
  expire (hset empty "h" "f" "v" 0).2 "h" 10 0 = Done (false, (hset empty "h" "f" "v" 0).2)
  ∧ ttl (hset empty "h" "f" "v" 0).2 "h" 0 = Done (-2, (hset empty "h" "f" "v" 0).2)
  ∧ (exists_ (hset empty "h" "f" "v" 0).2 "h" 0).1 = true
  ∧ (hget (hset empty "h" "f" "v" 0).2 "h" "f" 0).1 = Some "v".
Proof.
  apply (expire_ignores_field_maps empty "h" "f" "v" 10 0). reflexivity.
Defined.

End OtherFamilies.
